(** * Colored Subtitles resource-pack builder ([build.py])

    A shallow embedding of the translation pipeline of [build.py]:
    the version-to-format loop, the two translation codecs
    ([load_language], [dump_language]), the color-rule loop and the
    per-version pack assembly of [generate_pack], followed by the
    properties established about them. *)

From Stdlib Require Import ZArith List String Ascii Lia Bool DecimalPos.
From stdpp Require Import base list sorting gmap.

Local Open Scope Z_scope.
Set Warnings "-clear-no-such-hyp".

(** ** Python strings

    A Python [str] is a sequence of code points.  A code point is a [Z]
    in the range [0 .. 0x10FFFF]; the surrogate range [0xD800 .. 0xDFFF]
    is allowed in a [str], as in CPython. *)

Abbreviation str := (list Z) (only parsing).

Definition ch (a : ascii) : Z := Z.of_N (N_of_ascii a).

Fixpoint lit (s : string) : str :=
  match s with
  | EmptyString => []
  | String a s' => ch a :: lit s'
  end.

Definition is_code_point (c : Z) : Prop := 0 <= c < 1114112.
Definition is_high_surrogate (c : Z) : bool := (55296 <=? c) && (c <=? 56319).
Definition is_low_surrogate (c : Z) : bool := (56320 <=? c) && (c <=? 57343).
Definition is_surrogate (c : Z) : bool := (55296 <=? c) && (c <=? 57343).

Definition valid_str (s : str) : Prop := Forall is_code_point s.

(** [s.startswith(prefix)] *)
Fixpoint startswith (s prefix : str) {struct prefix} : bool :=
  match prefix, s with
  | [], _ => true
  | p :: prefix', c :: s' => (c =? p) && startswith s' prefix'
  | _ :: _, [] => false
  end.

(** ** Python dictionaries

    A [dict] keeps its keys distinct and in insertion order; assigning
    to a key that is present replaces the value in place and keeps the
    position. *)

Abbreviation dict V := (list (str * V)) (only parsing).

Fixpoint dict_get {V} (k : str) (d : dict V) : option V :=
  match d with
  | [] => None
  | (k', v) :: d' => if decide (k' = k) then Some v else dict_get k d'
  end.

Fixpoint dict_set {V} (k : str) (v : V) (d : dict V) : dict V :=
  match d with
  | [] => [(k, v)]
  | (k', v') :: d' =>
      if decide (k' = k) then (k, v) :: d' else (k', v') :: dict_set k v d'
  end.

Definition dict_keys {V} (d : dict V) : list str := d.*1.

(** [dict(pairs)], a dict display [{k1: v1, ...}] and a dict
    comprehension all insert the pairs from left to right. *)
Definition dict_of_pairs {V} (ps : list (str * V)) : dict V :=
  foldl (λ d kv, dict_set kv.1 kv.2 d) [] ps.

Definition dict_wf {V} (d : dict V) : Prop := NoDup (dict_keys d).

(** ** The static tables *)

Definition pack_format_map : dict Z :=
  dict_of_pairs
    [ (lit "1.6", 1); (lit "1.7", 1); (lit "1.8", 1); (lit "1.9", 2);
      (lit "1.10", 2); (lit "1.11", 3); (lit "1.12", 3); (lit "1.13", 4);
      (lit "1.14", 4); (lit "1.15", 5); (lit "1.15", 5); (lit "1.16", 5);
      (lit "1.16.2", 6); (lit "1.16.5", 6); (lit "1.17", 7);
      (lit "1.17.1", 7); (lit "1.18", 8); (lit "1.19", 9) ].

(** The section sign U+00A7 that starts every formatting code. *)
Definition SECTION_SIGN : Z := 167.

Definition code (a : ascii) : str := [SECTION_SIGN; ch a].

Definition color_codes : dict str :=
  dict_of_pairs
    [ (lit "dark_red", code "4"); (lit "red", code "c");
      (lit "gold", code "6"); (lit "yellow", code "e");
      (lit "dark_green", code "2"); (lit "green", code "a");
      (lit "aqua", code "b"); (lit "dark_aqua", code "3");
      (lit "dark_blue", code "1"); (lit "blue", code "9");
      (lit "light_purple", code "d"); (lit "dark_purple", code "5");
      (lit "white", code "f"); (lit "gray", code "7");
      (lit "dark_gray", code "8"); (lit "black", code "0");
      (lit "reset", code "r"); (lit "bold", code "l");
      (lit "italic", code "o"); (lit "underline", code "n");
      (lit "strike", code "m"); (lit "zalgo", code "k") ].

(** ** The two prefix loops of [generate_pack]

    Both loops assign on every match and never leave the loop early.
    A local that was never assigned is [None]. *)

(** [for key, value in pack_format_map.items():
       if version.startswith(key): pack_format = value] *)
Definition guess_pack_format (version : str) : option Z :=
  foldl (λ pack_format kv,
           if startswith version kv.1 then Some kv.2 else pack_format)
        None pack_format_map.

(** [new_color = None
     for prefix, color in colors:
       if key.startswith(prefix): new_color = color] *)
Definition select_color (colors : list (str * str)) (key : str) : option str :=
  foldl (λ new_color pc,
           if startswith key pc.1 then Some pc.2 else new_color)
        None colors.

(** ** Exceptions

    Every exception of [build.py] is fatal: nothing catches it, so it
    unwinds through [main] and ends the run.  [OSError] stands for the
    errors of the file system and of the console ([FileNotFoundError]
    and the like), [StructError] for [struct.error].  [NotModelled]
    stands for what lies outside this development: printing a float,
    and [str] of a list or a dict. *)

Inductive exn :=
| UnboundLocalError
| JSONDecodeError
| RecursionError
| AttributeError
| KeyError (k : str)
| TypeError
| UnicodeEncodeError
| OSError
| StructError
| NotModelled.

Inductive result (A : Type) :=
| Ok (a : A)
| Raise (e : exn).
Arguments Ok {A} a.
Arguments Raise {A} e.

#[global] Instance result_ret : MRet result := λ A a, Ok a.
#[global] Instance result_bind : MBind result := λ A B f m,
  match m with
  | Ok a => f a
  | Raise e => Raise e
  end.

Definition raises {A} (r : result A) : Prop := ∃ e, r = Raise e.

(** ** Legacy codec: the string methods it uses *)

(** [str.isspace] for one code point (CPython's [Py_UNICODE_ISSPACE]). *)
Definition is_space (c : Z) : bool :=
  ((9 <=? c) && (c <=? 13)) || ((28 <=? c) && (c <=? 32))
  || (c =? 133) || (c =? 160) || (c =? 5760)
  || ((8192 <=? c) && (c <=? 8202))
  || (c =? 8232) || (c =? 8233) || (c =? 8239) || (c =? 8287)
  || (c =? 12288).

(** [s.rstrip()] *)
Fixpoint rstrip (s : str) : str :=
  match s with
  | [] => []
  | c :: s' =>
      match rstrip s' with
      | [] => if is_space c then [] else [c]
      | r => c :: r
      end
  end.

(** [s.replace(c, '')] for a one-character [c] *)
Definition remove_char (c : Z) (s : str) : str :=
  filter (λ x, x ≠ c) s.

(** [s.split(sep)] for a one-character [sep] *)
Fixpoint split (sep : Z) (s : str) : list str :=
  match s with
  | [] => [[]]
  | c :: s' =>
      if c =? sep then [] :: split sep s'
      else match split sep s' with
           | l :: ls => (c :: l) :: ls
           | [] => [[c]]
           end
  end.

(** [s.partition(sep)] for a one-character [sep]: the part before the
    first [sep], the separator found (empty when there is none) and the
    part after it. *)
Fixpoint partition (sep : Z) (s : str) : str * str * str :=
  match s with
  | [] => ([], [], [])
  | c :: s' =>
      if c =? sep then ([], [sep], s')
      else let '(h, m, t) := partition sep s' in (c :: h, m, t)
  end.

(** [t[::2]] of a 3-tuple *)
Definition slice_0_2 (t : str * str * str) : str * str :=
  let '(h, _, t) := t in (h, t).

(** [<] and [<=] on [str]: lexicographic on code points. *)
Fixpoint str_leb (a b : str) : bool :=
  match a, b with
  | [], _ => true
  | _ :: _, [] => false
  | x :: a', y :: b' =>
      if x <? y then true else if y <? x then false else str_leb a' b'
  end.

Definition str_le (a b : str) : Prop := str_leb a b = true.

#[global] Instance str_le_dec : RelDecision str_le.
Proof. intros a b. unfold str_le. apply _. Defined.

(** [sorted(xs)] on a list of [str] *)
Definition sorted (xs : list str) : list str := merge_sort str_le xs.

(** ** Python values that [json.loads] returns

    A float is kept as the text of its literal: the conversion to
    binary64 is outside this development, and printing one is
    [NotModelled]. *)

#[warnings="-register-all"]
Inductive value :=
| VNone
| VBool (b : bool)
| VInt (n : Z)
| VFloat (lexeme : str)
| VStr (s : str)
| VList (vs : list value)
| VDict (d : list (str * value)).

(** A translation map with string values, as a Python value. *)
Definition translation_of (m : dict str) : value :=
  VDict (prod_map id VStr <$> m).

(** ** [json.dumps]

    [ensure_ascii] is on (the default): every code point outside
    [' ' .. '~'], and the quote and the backslash, is escaped. *)

Definition QUOTE : Z := 34.
Definition BACKSLASH : Z := 92.

Definition hex_digit (d : Z) : Z := if d <? 10 then 48 + d else 87 + d.

(** ['{0:04x}'.format(n)] for [0 <= n < 0x10000] *)
Definition hex4 (n : Z) : str :=
  [ hex_digit (Z.land (Z.shiftr n 12) 15); hex_digit (Z.land (Z.shiftr n 8) 15);
    hex_digit (Z.land (Z.shiftr n 4) 15); hex_digit (Z.land n 15) ].

Definition u_escape (n : Z) : str := BACKSLASH :: ch "u" :: hex4 n.

(** The replacement of one code point by [ESCAPE_ASCII.sub]. *)
Definition escape_char (c : Z) : str :=
  if c =? BACKSLASH then [BACKSLASH; BACKSLASH]
  else if c =? QUOTE then [BACKSLASH; QUOTE]
  else if (32 <=? c) && (c <=? 126) then [c]
  else if c =? 8 then [BACKSLASH; ch "b"]
  else if c =? 12 then [BACKSLASH; ch "f"]
  else if c =? 10 then [BACKSLASH; ch "n"]
  else if c =? 13 then [BACKSLASH; ch "r"]
  else if c =? 9 then [BACKSLASH; ch "t"]
  else if c <? 65536 then u_escape c
  else
    let n := c - 65536 in
    let s1 := Z.lor 55296 (Z.land (Z.shiftr n 10) 1023) in
    let s2 := Z.lor 56320 (Z.land n 1023) in
    u_escape s1 ++ u_escape s2.

Definition escape_body (s : str) : str := mbind escape_char s.

(** [encode_basestring_ascii(s)] *)
Definition encode_basestring_ascii (s : str) : str :=
  QUOTE :: escape_body s ++ [QUOTE].

Fixpoint uint_digits (u : Decimal.uint) : str :=
  match u with
  | Decimal.Nil => []
  | Decimal.D0 u' => 48 :: uint_digits u'
  | Decimal.D1 u' => 49 :: uint_digits u'
  | Decimal.D2 u' => 50 :: uint_digits u'
  | Decimal.D3 u' => 51 :: uint_digits u'
  | Decimal.D4 u' => 52 :: uint_digits u'
  | Decimal.D5 u' => 53 :: uint_digits u'
  | Decimal.D6 u' => 54 :: uint_digits u'
  | Decimal.D7 u' => 55 :: uint_digits u'
  | Decimal.D8 u' => 56 :: uint_digits u'
  | Decimal.D9 u' => 57 :: uint_digits u'
  end.

(** [int.__repr__] *)
Definition int_repr (n : Z) : str :=
  match n with
  | Z0 => [48]
  | Zpos p => uint_digits (Pos.to_uint p)
  | Zneg p => ch "-" :: uint_digits (Pos.to_uint p)
  end.

(** [sep.join(chunks)] *)
Fixpoint join (sep : str) (chunks : list str) : str :=
  match chunks with
  | [] => []
  | [c] => c
  | c :: cs => c ++ sep ++ join sep cs
  end.

Definition spaces (n : nat) : str := replicate n 32.

(** ['\n' + _indent * level] *)
Definition newline_indent (indent level : nat) : str :=
  10 :: spaces (indent * level).

(** The text between the brackets of a non-empty list or dict at nesting
    [level], given the encoded items: with [indent], each item sits on a
    line of its own and the closing bracket on a line at [level]. *)
Definition bracket_body (indent : option nat) (level : nat)
    (items : list str) : str :=
  match indent with
  | Some n =>
      newline_indent n (S level)
      ++ join (ch "," :: newline_indent n (S level)) items
      ++ newline_indent n level
  | None => join (lit ", ") items
  end.

(** A [for] loop that collects what its body yields, unless a turn
    raises. *)
Section collect.
Context {A B : Type} (body : A → result B).

Fixpoint collect (xs : list A) : result (list B) :=
  match xs with
  | [] => Ok []
  | x :: xs' => y ← body x; ys ← collect xs'; Ok (y :: ys)
  end.
End collect.

(** [_iterencode(o, level)] of [json.encoder], joined into one string.
    The item separator is [','] with [indent] and [', '] without; the
    key separator is [': ']. *)
Fixpoint iterencode (indent : option nat) (level : nat) (o : value)
    {struct o} : result str :=
  match o with
  | VStr s => Ok (encode_basestring_ascii s)
  | VNone => Ok (lit "null")
  | VBool true => Ok (lit "true")
  | VBool false => Ok (lit "false")
  | VInt n => Ok (int_repr n)
  | VFloat _ => Raise NotModelled
  | VList [] => Ok (lit "[]")
  | VList vs =>
      items ← collect (iterencode indent (S level)) vs;
      Ok (ch "[" :: bracket_body indent level items ++ lit "]")
  | VDict [] => Ok (lit "{}")
  | VDict d =>
      items ← collect (λ '(key, v),
                         x ← iterencode indent (S level) v;
                         Ok (encode_basestring_ascii key ++ lit ": " ++ x)) d;
      Ok (ch "{" :: bracket_body indent level items ++ lit "}")
  end.

(** [json.dumps(obj)] and [json.dumps(obj, indent=n)].  The limits of
    the interpreter on the depth of nesting and on the digits of an
    integer are left out. *)
Definition json_dumps (indent : option nat) (obj : value) : result str :=
  iterencode indent 0 obj.

(** ** [json.loads]

    The scanner of [json.decoder] and [json.scanner], as a function
    from the text that is left to the value read and the text after it.
    The recursion on nested values is bounded by [fuel]; [json_loads]
    supplies more than the scanner can use. *)

Inductive scan (A : Type) :=
| Scanned (a : A) (rest : str)
| Invalid
| OutOfFuel.
Arguments Scanned {A} a rest.
Arguments Invalid {A}.
Arguments OutOfFuel {A}.

Definition scan_bind {A B} (m : scan A) (f : A → str → scan B) : scan B :=
  match m with
  | Scanned a rest => f a rest
  | Invalid => Invalid
  | OutOfFuel => OutOfFuel
  end.

(** The characters matched by [WHITESPACE]. *)
Definition is_json_ws (c : Z) : bool :=
  (c =? 32) || (c =? 9) || (c =? 10) || (c =? 13).

Fixpoint skip_ws (s : str) : str :=
  match s with
  | c :: s' => if is_json_ws c then skip_ws s' else s
  | [] => []
  end.

Definition hex_value (c : Z) : option Z :=
  if (48 <=? c) && (c <=? 57) then Some (c - 48)
  else if (97 <=? c) && (c <=? 102) then Some (c - 87)
  else if (65 <=? c) && (c <=? 70) then Some (c - 55)
  else None.

(** The four hexadecimal digits after [\u]. *)
Definition decode_uXXXX (a b c d : Z) : option Z :=
  match hex_value a, hex_value b, hex_value c, hex_value d with
  | Some x3, Some x2, Some x1, Some x0 =>
      Some (Z.lor (Z.shiftl (Z.lor (Z.shiftl (Z.lor (Z.shiftl x3 4) x2) 4) x1) 4) x0)
  | _, _, _, _ => None
  end.

(** The [BACKSLASH] table of the decoder. *)
Definition unescape (e : Z) : option Z :=
  if e =? QUOTE then Some QUOTE
  else if e =? BACKSLASH then Some BACKSLASH
  else if e =? ch "/" then Some (ch "/")
  else if e =? ch "b" then Some 8
  else if e =? ch "f" then Some 12
  else if e =? ch "n" then Some 10
  else if e =? ch "r" then Some 13
  else if e =? ch "t" then Some 9
  else None.

Definition join_surrogates (hi lo : Z) : Z :=
  65536 + Z.lor (Z.shiftl (hi - 55296) 10) (lo - 56320).

Definition push (c : Z) (r : option (str * str)) : option (str * str) :=
  match r with
  | Some (x, rest) => Some (c :: x, rest)
  | None => None
  end.

(** [scanstring(s, end, strict=True)], from just after the opening
    quote: the decoded string and the text after the closing quote. *)
Fixpoint scanstring (s : str) : option (str * str) :=
  match s with
  | [] => None
  | c :: s1 =>
      if c =? QUOTE then Some ([], s1)
      else if c =? BACKSLASH then
        match s1 with
        | [] => None
        | e :: s2 =>
            if e =? ch "u" then
              match s2 with
              | h1 :: h2 :: h3 :: h4 :: s3 =>
                  match decode_uXXXX h1 h2 h3 h4 with
                  | None => None
                  | Some uni =>
                      if is_high_surrogate uni then
                        match s3 with
                        | b :: u :: s4 =>
                            if (b =? BACKSLASH) && (u =? ch "u") then
                              match s4 with
                              | g1 :: g2 :: g3 :: g4 :: s5 =>
                                  match decode_uXXXX g1 g2 g3 g4 with
                                  | None => None
                                  | Some uni2 =>
                                      if is_low_surrogate uni2
                                      then push (join_surrogates uni uni2)
                                                (scanstring s5)
                                      else push uni (scanstring s3)
                                  end
                              | _ => None
                              end
                            else push uni (scanstring s3)
                        | _ => push uni (scanstring s3)
                        end
                      else push uni (scanstring s3)
                  end
              | _ => None
              end
            else
              match unescape e with
              | Some c' => push c' (scanstring s2)
              | None => None
              end
        end
      else if c <? 32 then None
      else push c (scanstring s1)
  end.

Definition is_digit (c : Z) : bool := (48 <=? c) && (c <=? 57).

(** The longest run of digits at the start of [s], and what follows. *)
Fixpoint span_digits (s : str) : str * str :=
  match s with
  | c :: s' =>
      if is_digit c then let '(ds, r) := span_digits s' in (c :: ds, r)
      else ([], s)
  | [] => ([], [])
  end.

(** The groups of [NUMBER_RE] matched at the start of [s]: integer
    part, fraction, exponent and the text after the match. *)
Definition match_number (s : str) : option (str * str * str * str) :=
  let '(sign, s1) :=
    match s with
    | c :: s' => if c =? ch "-" then ([c], s') else ([], s)
    | [] => ([], s)
    end in
  match s1 with
  | d :: s2 =>
      if is_digit d then
        let '(int_part, s3) :=
          if d =? 48 then ([d], s2)
          else let '(ds, r) := span_digits s2 in (d :: ds, r) in
        let '(frac, s4) :=
          match s3 with
          | p :: t =>
              if p =? ch "." then
                match span_digits t with
                | ([], _) => ([], s3)
                | (ds, r) => (p :: ds, r)
                end
              else ([], s3)
          | [] => ([], s3)
          end in
        let '(exp, s5) :=
          match s4 with
          | e :: t =>
              if (e =? ch "e") || (e =? ch "E") then
                let '(sg, t') :=
                  match t with
                  | c :: t'' =>
                      if (c =? ch "-") || (c =? ch "+") then ([c], t'')
                      else ([], t)
                  | [] => ([], t)
                  end in
                match span_digits t' with
                | ([], _) => ([], s4)
                | (ds, r) => (e :: sg ++ ds, r)
                end
              else ([], s4)
          | [] => ([], s4)
          end in
        Some (sign ++ int_part, frac, exp, s5)
      else None
  | [] => None
  end.

(** [int(lexeme)] for a lexeme matched by the integer group. *)
Definition parse_int (lexeme : str) : Z :=
  let digits ds := foldl (λ acc d, 10 * acc + (d - 48)) 0 ds in
  match lexeme with
  | c :: ds => if c =? ch "-" then - digits ds else digits lexeme
  | [] => 0
  end.

(** The constants and numbers of [_scan_once], after the string, object
    and array cases. *)
Definition scan_atom (s : str) : scan value :=
  if startswith s (lit "null") then Scanned VNone (drop 4 s)
  else if startswith s (lit "true") then Scanned (VBool true) (drop 4 s)
  else if startswith s (lit "false") then Scanned (VBool false) (drop 5 s)
  else
    match match_number s with
    | Some (integer, frac, exp, rest) =>
        match frac, exp with
        | [], [] => Scanned (VInt (parse_int integer)) rest
        | _, _ => Scanned (VFloat (integer ++ frac ++ exp)) rest
        end
    | None =>
        if startswith s (lit "NaN") then Scanned (VFloat (lit "NaN")) (drop 3 s)
        else if startswith s (lit "Infinity")
        then Scanned (VFloat (lit "Infinity")) (drop 8 s)
        else if startswith s (lit "-Infinity")
        then Scanned (VFloat (lit "-Infinity")) (drop 9 s)
        else Invalid
    end.

(** The loop of [JSONObject], from just after the opening quote of a
    key: the pairs up to the closing brace.  [scan_once] reads the
    values; [n] bounds the number of turns. *)
Fixpoint object_members (scan_once : str → scan value) (n : nat) (s : str)
    : scan (list (str * value)) :=
  match n with
  | O => OutOfFuel
  | S n' =>
      match scanstring s with
      | None => Invalid
      | Some (key, r1) =>
          match skip_ws r1 with
          | c2 :: r2 =>
              if c2 =? ch ":" then
                scan_bind (scan_once (skip_ws r2))
                  (λ v r3,
                     match skip_ws r3 with
                     | c3 :: r4 =>
                         if c3 =? ch "}" then Scanned [(key, v)] r4
                         else if c3 =? ch "," then
                           match skip_ws r4 with
                           | q :: r5 =>
                               if q =? QUOTE then
                                 scan_bind (object_members scan_once n' r5)
                                   (λ kvs r6, Scanned ((key, v) :: kvs) r6)
                               else Invalid
                           | [] => Invalid
                           end
                         else Invalid
                     | [] => Invalid
                     end)
              else Invalid
          | [] => Invalid
          end
      end
  end.

(** [JSONObject], from just after the opening brace. *)
Definition JSONObject (scan_once : str → scan value) (n : nat) (s : str)
    : scan value :=
  match skip_ws s with
  | c1 :: s2 =>
      if c1 =? ch "}" then Scanned (VDict []) s2
      else if c1 =? QUOTE then
        scan_bind (object_members scan_once n s2)
          (λ pairs rest, Scanned (VDict (dict_of_pairs pairs)) rest)
      else Invalid
  | [] => Invalid
  end.

(** The loop of [JSONArray], from the start of a value: the values up
    to the closing bracket. *)
Fixpoint array_elements (scan_once : str → scan value) (n : nat) (s : str)
    : scan (list value) :=
  match n with
  | O => OutOfFuel
  | S n' =>
      scan_bind (scan_once s)
        (λ v r1,
           match skip_ws r1 with
           | c2 :: r2 =>
               if c2 =? ch "]" then Scanned [v] r2
               else if c2 =? ch "," then
                 scan_bind (array_elements scan_once n' (skip_ws r2))
                   (λ vs r3, Scanned (v :: vs) r3)
               else Invalid
           | [] => Invalid
           end)
  end.

(** [JSONArray], from just after the opening bracket. *)
Definition JSONArray (scan_once : str → scan value) (n : nat) (s : str)
    : scan value :=
  match skip_ws s with
  | c1 :: s2 =>
      if c1 =? ch "]" then Scanned (VList []) s2
      else
        scan_bind (array_elements scan_once n (c1 :: s2))
          (λ vs rest, Scanned (VList vs) rest)
  | [] => Invalid
  end.

(** [_scan_once].  Each level of nesting takes one unit of [fuel]; the
    loops over members and elements are bounded by what is left. *)
Fixpoint scan_once (fuel : nat) (s : str) : scan value :=
  match fuel with
  | O => OutOfFuel
  | S fuel' =>
      match s with
      | [] => Invalid
      | c :: s1 =>
          if c =? QUOTE then
            match scanstring s1 with
            | Some (x, rest) => Scanned (VStr x) rest
            | None => Invalid
            end
          else if c =? ch "{" then JSONObject (scan_once fuel') fuel' s1
          else if c =? ch "[" then JSONArray (scan_once fuel') fuel' s1
          else scan_atom s
      end
  end.

Definition BOM : Z := 65279.

(** [json.loads(s)] for a [str] argument.  The fuel is more than the
    scanner can use ([json_loads_total] below); the interpreter's own
    limits on nesting depth and on the digits of an integer literal are
    left out. *)
Definition json_loads (s : str) : result value :=
  if startswith s [BOM] then Raise JSONDecodeError
  else
    match scan_once (S (length s)) (skip_ws s) with
    | Scanned obj rest =>
        match skip_ws rest with
        | [] => Ok obj
        | _ :: _ => Raise JSONDecodeError
        end
    | Invalid => Raise JSONDecodeError
    | OutOfFuel => Raise RecursionError
    end.

(** ** [load_language] and [dump_language] *)

(** [contents.rstrip().replace('\r', '').split('\n')] with the empty
    lines filtered out. *)
Definition legacy_lines (contents : str) : list str :=
  filter (λ line, line ≠ []) (split 10 (remove_char 13 (rstrip contents))).

(** [line.partition('=')[::2]] *)
Definition key_value (line : str) : str * str :=
  slice_0_2 (partition (ch "=") line).

Definition load_language (contents : str) (pack_format : Z) : result value :=
  if 4 <=? pack_format then json_loads contents
  else
    Ok (VDict (dict_of_pairs
                 (prod_map id VStr <$> (key_value <$> legacy_lines contents)))).

(** ['%s' % v]: [str(v)] *)
Definition py_str (v : value) : result str :=
  match v with
  | VStr s => Ok s
  | VNone => Ok (lit "None")
  | VBool true => Ok (lit "True")
  | VBool false => Ok (lit "False")
  | VInt n => Ok (int_repr n)
  | VFloat _ | VList _ | VDict _ => Raise NotModelled
  end.

(** [''.join(['%s=%s\n' % (key, translation[key]) for key in keys])] *)
Fixpoint legacy_text (translation : dict value) (keys : list str)
    : result str :=
  match keys with
  | [] => Ok []
  | key :: keys' =>
      match dict_get key translation with
      | None => Raise (KeyError key)
      | Some v =>
          text ← py_str v;
          more ← legacy_text translation keys';
          Ok (key ++ ch "=" :: text ++ 10 :: more)
      end
  end.

Definition dump_language (translation : value) (pack_format : Z)
    : result str :=
  if 4 <=? pack_format then json_dumps (Some 2%nat) translation
  else
    match translation with
    | VDict d => legacy_text d (sorted (dict_keys d))
    | _ => Raise AttributeError
    end.

(** ** [generate_pack] *)

(** The zip file being written: its entries in the order of the
    [writestr] calls. *)
Abbreviation zip := (list (str * str)) (only parsing).

(** [os.path.join(a, b)] for a non-empty [a] without a trailing slash
    (POSIX). *)
Definition path_join (a b : str) : str :=
  if startswith b (lit "/") then b else a ++ ch "/" :: b.

(** [ZipInfo] ends the name at the first null character. *)
Fixpoint zip_name (name : str) : str :=
  match name with
  | [] => []
  | c :: name' => if c =? 0 then [] else c :: zip_name name'
  end.

(** The number of bytes of the UTF-8 encoding of [s]. *)
Definition utf8_length (s : str) : Z :=
  foldr (λ c n,
           (if c <? 128 then 1 else if c <? 2048 then 2
            else if c <? 65536 then 3 else 4) + n)
        0 s.

(** [f.writestr(name, data)]: the data, then the name, are encoded as
    UTF-8, which refuses surrogates; the header of the entry holds the
    length of the encoded name in 16 bits, and [struct.pack] refuses a
    longer name. *)
Definition writestr (f : zip) (name data : str) : result zip :=
  if existsb is_surrogate data || existsb is_surrogate (zip_name name)
  then Raise UnicodeEncodeError
  else if 65535 <? utf8_length (zip_name name) then Raise StructError
  else Ok (f ++ [(zip_name name, data)]).

(** The body of [for key in list(translation.keys())]: the state is the
    translation being rewritten in place and the [unhandled] set. *)
Definition color_key (colors : list (str * str))
    (st : dict value * gset str) (key : str)
    : result (dict value * gset str) :=
  let '(translation, unhandled) := st in
  match select_color colors key with
  | Some new_color =>
      match dict_get new_color color_codes with
      | None => Raise (KeyError new_color)
      | Some code =>
          match dict_get key translation with
          | None => Raise (KeyError key)
          | Some (VStr old) =>
              Ok (dict_set key (VStr (code ++ old)) translation, unhandled)
          | Some _ => Raise TypeError
          end
      end
  | None =>
      if startswith key (lit "subtitles.")
      then Ok (translation, {[ key ]} ∪ unhandled)
      else Ok (translation, unhandled)
  end.

(** A [for] loop whose body may raise. *)
Fixpoint for_each {S A} (body : S → A → result S) (st : S) (xs : list A)
    : result S :=
  match xs with
  | [] => Ok st
  | x :: xs' => st' ← body st x; for_each body st' xs'
  end.

(** The mapping loop over one translation. *)
Definition map_translation (colors : list (str * str)) (translation : value)
    (unhandled : gset str) : result (value * gset str) :=
  match translation with
  | VDict d =>
      st ← for_each (color_key colors) (d, unhandled) (dict_keys d);
      Ok (VDict st.1, st.2)
  | _ => Raise AttributeError
  end.

(** One turn of [for language_path, language_content in languages]:
    the text to store and the new [unhandled] set. *)
Definition map_language (pack_format : Z) (colors : list (str * str))
    (unhandled : gset str) (language_content : str)
    : result (str * gset str) :=
  translation ← load_language language_content pack_format;
  mapped ← map_translation colors translation unhandled;
  text ← dump_language mapped.1 pack_format;
  Ok (text, mapped.2).

(** The loop over the languages.  The zip file is an effect that stays
    when a turn raises: the result pairs the file as it is when the
    loop ends or is left with the outcome. *)
Fixpoint write_languages (pack_format : Z) (colors : list (str * str))
    (languages : list (str * str)) (f : zip) (unhandled : gset str)
    : zip * result (gset str) :=
  match languages with
  | [] => (f, Ok unhandled)
  | (language_path, language_content) :: languages' =>
      match map_language pack_format colors unhandled language_content with
      | Raise e => (f, Raise e)
      | Ok (text, unhandled') =>
          match writestr f (path_join (lit "assets") language_path) text with
          | Raise e => (f, Raise e)
          | Ok f' => write_languages pack_format colors languages' f' unhandled'
          end
      end
  end.

Definition metadata (pack_format : Z) : value :=
  VDict [ (lit "pack",
           VDict [ (lit "pack_format", VInt pack_format);
                   (lit "description", VStr (lit "By Kosmolot")) ]) ].

(** *** The console and the file system

    [generate_pack] prints lines and creates the zip file.  Whether the
    console takes a line and whether the file can be created is decided
    outside the program (the encoding of the console, the directories
    that exist, the access rights): a [world] gives the outcome of each
    such call. *)
Record world := World {
  (** [print(line)]: the line without the line feed that ends it *)
  print : str → result unit;
  (** [zipfile.ZipFile(path, 'w', compression=zipfile.ZIP_DEFLATED)] *)
  ZipFile : str → result unit
}.

(** The lines printed. *)
Definition generating_line (version : str) : str :=
  lit "Generating pack for version " ++ version ++ lit "...".

Definition format_line (pack_format : Z) (version : str) : str :=
  lit "Using pack format " ++ int_repr pack_format ++ lit " for version "
  ++ version ++ lit ".".

Definition warning_line (key : str) : str :=
  lit "Warning: no color code found for" ++ 32 :: key.

Definition generated_line (version : str) : str :=
  lit "Generated pack for version " ++ version ++ lit ".".

(** [os.path.join('output', 'ColoredSubtitles-%s.zip' % version)] *)
Definition zip_path (version : str) : str :=
  path_join (lit "output") (lit "ColoredSubtitles-" ++ version ++ lit ".zip").

(** [generate_pack(version, languages, colors)]: the zip file that
    exists when the call ends ([None] when it was never created) and the
    outcome, which on success is the list of keys warned about, in the
    order of the warnings.

    The loop over the version table does nothing but assign
    [pack_format], so the table is consulted first.  For a version that
    starts with no key the outcome is that of a console that takes the
    first line: formatting the second line is then the first use of
    [pack_format], which is unassigned. *)
Definition generate_pack (w : world) (version : str)
    (languages : list (str * str)) (colors : list (str * str))
    : option zip * result (list str) :=
  match guess_pack_format version with
  | None => (None, Raise UnboundLocalError)
  | Some pack_format =>
      match
        _ ← print w (generating_line version);
        _ ← print w (format_line pack_format version);
        ZipFile w (zip_path version)
      with
      | Raise e => (None, Raise e)
      | Ok _ =>
          match
            data ← json_dumps None (metadata pack_format);
            writestr [] (lit "pack.mcmeta") data
          with
          | Raise e => (Some [], Raise e)
          | Ok f =>
              let '(f', r) :=
                write_languages pack_format colors languages f ∅ in
              (Some f',
               unhandled ← r;
               _ ← for_each (λ _ key, print w (warning_line key)) ()
                     (sorted (elements unhandled));
               _ ← print w (generated_line version);
               Ok (sorted (elements unhandled)))
          end
      end
  end.

(** The run reaches the zip file: the console took the two lines
    printed first and the file was created. *)
Definition pack_opened (w : world) (version : str) (pack_format : Z) : Prop :=
  print w (generating_line version) = Ok ()
  ∧ print w (format_line pack_format version) = Ok ()
  ∧ ZipFile w (zip_path version) = Ok ().

(** A world for the examples: a console that encodes as UTF-8, and a
    file system in which [output] exists and is writable but has no
    subdirectory. *)
Definition utf8_console (line : str) : result unit :=
  if existsb is_surrogate line then Raise UnicodeEncodeError else Ok ().

Definition flat_output (path : str) : result unit :=
  if startswith path (lit "output/")
     && negb (existsb (λ c, (c =? ch "/") || (c =? 0) || is_surrogate c)
                (drop 7 path))
  then Ok () else Raise OSError.

Definition plain_world : world := World utf8_console flat_output.

(** ** Notions the properties are stated with *)

(** [c] is the color of the last rule of [colors], in sequence order,
    whose prefix is a prefix of [key]. *)
Definition last_matching_rule {A} (rules : list (str * A)) (key : str)
    (c : A) : Prop :=
  ∃ before p after,
    rules = before ++ (p, c) :: after
    ∧ p `prefix_of` key
    ∧ Forall (λ r, ¬ r.1 `prefix_of` key) after.

Definition no_matching_rule {A} (rules : list (str * A)) (key : str) : Prop :=
  Forall (λ r, ¬ r.1 `prefix_of` key) rules.

(** The loop shape shared by [guess_pack_format] and [select_color]. *)
Definition scan_rules {A} (key : str) (acc : option A)
    (rules : list (str * A)) : option A :=
  foldl (λ acc r, if startswith key r.1 then Some r.2 else acc) acc rules.

(** The value of the last pair of [ps] whose key is [k]. *)
Definition last_value {V} (k : str) (ps : list (str * V)) : option V :=
  foldl (λ acc kv, if decide (kv.1 = k) then Some kv.2 else acc) None ps.

(** The text of [pack.mcmeta] for a pack format. *)
Definition quoted (s : str) : str := QUOTE :: s ++ [QUOTE].

Definition pack_mcmeta (pack_format : Z) : str :=
  lit "{" ++ quoted (lit "pack") ++ lit ": {"
  ++ quoted (lit "pack_format") ++ lit ": " ++ int_repr pack_format ++ lit ", "
  ++ quoted (lit "description") ++ lit ": " ++ quoted (lit "By Kosmolot")
  ++ lit "}}".


(** [s] ends with a character that [rstrip] removes. *)
Definition ends_with_space (s : str) : bool :=
  match last s with
  | Some c => is_space c
  | None => false
  end.

(** No key holds [=], and no key or value holds a line feed or a
    carriage return. *)
Definition legacy_chars (m : dict str) : Prop :=
  Forall (λ kv, (ch "=" ∉ kv.1) ∧ (10 ∉ kv.1) ∧ (13 ∉ kv.1)
                ∧ (10 ∉ kv.2) ∧ (13 ∉ kv.2)) m.

(** The maps that the legacy format carries faithfully: as above, and
    the value of the greatest key, which is written last, does not end
    with white space. *)
Definition legacy_safe (m : dict str) : Prop :=
  legacy_chars m
  ∧ ∀ k v, (k, v) ∈ m → (∀ k', k' ∈ dict_keys m → str_le k' k) →
           ends_with_space v = false.

(** One line of the legacy format, without its line feed. *)
Definition legacy_line (m : dict str) (key : str) : str :=
  key ++ ch "=" :: default [] (dict_get key m).

(** The text made of the given lines, each followed by a line feed. *)
Definition lines_text (lines : list str) : str :=
  foldr (λ l acc, l ++ 10 :: acc) [] lines.

(** [s] has a high surrogate immediately followed by a low surrogate. *)
Fixpoint has_surrogate_pair (s : str) : bool :=
  match s with
  | hi :: (lo :: _) as s' =>
      (is_high_surrogate hi && is_low_surrogate lo) || has_surrogate_pair s'
  | _ => false
  end.

(** The strings that JSON carries faithfully. *)
Definition json_safe (s : str) : Prop :=
  valid_str s ∧ has_surrogate_pair s = false.

(** The text [t] does not start with a [\u] escape of a low surrogate:
    what the decoder checks after the escape of a high surrogate. *)
Definition not_low_escape (t : str) : Prop :=
  match t with
  | b :: u :: t' =>
      (b =? BACKSLASH) && (u =? ch "u") = true →
      ∃ x t'', t' = hex4 x ++ t'' ∧ 0 <= x < 65536
               ∧ is_low_surrogate x = false
  | _ => True
  end.

(** One member of an object as [json.dumps] writes it. *)
Definition member_text (kv : str * str) : str :=
  encode_basestring_ascii kv.1 ++ lit ": " ++ encode_basestring_ascii kv.2.

(** The text of a non-empty object with string values, written with
    [indent=2] at level 0, from just after the opening quote of the
    first key to the closing brace. *)
Fixpoint members_tail (m : list (str * str)) : str :=
  match m with
  | [] => []
  | (k, v) :: m' =>
      escape_body k ++ QUOTE :: lit ": " ++ encode_basestring_ascii v
      ++ match m' with
         | [] => [10; ch "}"]
         | _ :: _ => [ch ","; 10; 32; 32; QUOTE] ++ members_tail m'
         end
  end.

(** The maps that the JSON format carries faithfully. *)
Definition json_safe_map (m : dict str) : Prop :=
  Forall (λ kv, json_safe kv.1 ∧ json_safe kv.2) m.

#[global] Instance is_code_point_dec (c : Z) : Decision (is_code_point c).
Proof. unfold is_code_point. apply _. Defined.

#[global] Instance json_safe_dec (s : str) : Decision (json_safe s).
Proof. unfold json_safe, valid_str. apply _. Defined.

#[global] Instance json_safe_map_dec (m : dict str) : Decision (json_safe_map m).
Proof. unfold json_safe_map. apply _. Defined.

(** One step of [scanstring]: the code point [c] it appends, the text
    [pre] it consumes for it and the text [t] it goes on with. *)
Inductive string_step (c : Z) (t : str) : str → Prop :=
| step_literal :
    c ≠ QUOTE → c ≠ BACKSLASH → 32 <= c →
    string_step c t [c]
| step_short e :
    e ≠ ch "u" → unescape e = Some c →
    string_step c t [BACKSLASH; e]
| step_single h1 h2 h3 h4 :
    decode_uXXXX h1 h2 h3 h4 = Some c →
    (is_high_surrogate c = true →
     ∀ g1 g2 g3 g4 t' lo,
       t = BACKSLASH :: ch "u" :: g1 :: g2 :: g3 :: g4 :: t' →
       decode_uXXXX g1 g2 g3 g4 = Some lo → is_low_surrogate lo = false) →
    string_step c t [BACKSLASH; ch "u"; h1; h2; h3; h4]
| step_pair h1 h2 h3 h4 g1 g2 g3 g4 hi lo :
    decode_uXXXX h1 h2 h3 h4 = Some hi → is_high_surrogate hi = true →
    decode_uXXXX g1 g2 g3 g4 = Some lo → is_low_surrogate lo = true →
    c = join_surrogates hi lo →
    string_step c t [BACKSLASH; ch "u"; h1; h2; h3; h4;
                     BACKSLASH; ch "u"; g1; g2; g3; g4].

(** What [bytes.decode('utf8')] can return: code points that are not
    surrogates. *)
Definition decoded_text (s : str) : Prop :=
  Forall (λ c, is_code_point c ∧ is_surrogate c = false) s.

(** A scanner makes progress: what it leaves is a proper suffix of what
    it was given. *)
Definition scan_progress {A} (sc : str → scan A) : Prop :=
  ∀ t a r, sc t = Scanned a r →
           r `suffix_of` t ∧ (length r < length t)%nat.

(** A scanner has fuel enough for texts shorter than [bound]. *)
Definition scan_fuelled {A} (sc : str → scan A) (bound : nat) : Prop :=
  ∀ t, (length t < bound)%nat → sc t ≠ OutOfFuel.

(** A value that is a string is one that JSON carries faithfully. *)
Definition str_value_safe (v : value) : Prop :=
  match v with
  | VStr x => json_safe x
  | _ => True
  end.

(** The text of a formatting code: no surrogate, line feed or carriage
    return. *)
Definition code_text (p : str) : Prop :=
  decoded_text p ∧ (10 ∉ p) ∧ (13 ∉ p).

#[global] Instance code_text_dec (p : str) : Decision (code_text p).
Proof. unfold code_text, decoded_text, is_code_point. apply _. Defined.

(** [m'] is [m] with formatting codes put in front of some values: same
    keys in the same order. *)
Definition recolored (m m' : dict str) : Prop :=
  Forall2 (λ kv kv', kv'.1 = kv.1 ∧ ∃ p, code_text p ∧ kv'.2 = p ++ kv.2) m m'.

(** The text after a number does not go on as a number. *)
Definition number_end (rest : str) : bool :=
  match rest with
  | [] => true
  | c :: _ =>
      negb (is_digit c || (c =? ch ".") || (c =? ch "e") || (c =? ch "E"))
  end.

(** The value of a run of decimal digits read after [acc]. *)
Definition digits_value (acc : Z) (ds : str) : Z :=
  foldl (λ acc d, 10 * acc + (d - 48)) acc ds.

(** The values that [json.dumps] prints and [json.loads] reads back as
    they are: no float, safe strings and keys, well-formed dicts. *)
Fixpoint dumpable (v : value) : Prop :=
  match v with
  | VNone | VBool _ | VInt _ => True
  | VFloat _ => False
  | VStr s => json_safe s
  | VList vs =>
      (fix all (l : list value) : Prop :=
         match l with
         | [] => True
         | x :: l' => dumpable x ∧ all l'
         end) vs
  | VDict d =>
      dict_wf d
      ∧ (fix all (l : list (str * value)) : Prop :=
           match l with
           | [] => True
           | (k, x) :: l' => (json_safe k ∧ dumpable x) ∧ all l'
           end) d
  end.

(** The items of a non-empty list written with [indent] at nesting
    [level], each given by its text, from the start of the first item to
    the closing bracket. *)
Fixpoint list_tail (indent level : nat) (items : list str) : str :=
  match items with
  | [] => []
  | t :: items' =>
      t ++ match items' with
           | [] => newline_indent indent level ++ [ch "]"]
           | _ :: _ =>
               ch "," :: newline_indent indent (S level)
               ++ list_tail indent level items'
           end
  end.

(** The members of a non-empty dict written with [indent] at nesting
    [level], each given by its key and the text of its value, from just
    after the opening quote of the first key to the closing brace. *)
Fixpoint dict_tail (indent level : nat) (members : list (str * str)) : str :=
  match members with
  | [] => []
  | (k, t) :: members' =>
      escape_body k ++ QUOTE :: lit ": " ++ t
      ++ match members' with
         | [] => newline_indent indent level ++ [ch "}"]
         | _ :: _ =>
             ch "," :: newline_indent indent (S level)
             ++ QUOTE :: dict_tail indent level members'
         end
  end.

(** The scanner [sv] reads the value [v] from its text [t], whatever
    follows, on texts shorter than [bound]. *)
Definition reads (sv : str → scan value) (bound : nat) (t : str) (v : value)
    : Prop :=
  ∀ rest, number_end rest = true → (length (t ++ rest) < bound)%nat →
          sv (t ++ rest) = Scanned v rest.

(** A text that starts like a value: not with white space and not with
    a closing bracket. *)
Definition starts_value (t : str) : Prop :=
  ∃ c t', t = c :: t' ∧ is_json_ws c = false ∧ c ≠ ch "]".

(** A text of printable ASCII characters and line feeds. *)
Definition ascii_text (s : str) : Prop :=
  Forall (λ c, c = 10 ∨ 32 <= c <= 126) s.

(** The formatting code that the mapping loop puts in front of the
    value of [key]: that of the color selected for it, nothing when no
    rule matches. *)
Definition color_prefix (colors : list (str * str)) (key : str) : str :=
  match select_color colors key with
  | Some c => default [] (dict_get c color_codes)
  | None => []
  end.

(** The line of the legacy format for [key] after coloring. *)
Definition colored_line (colors : list (str * str)) (m : dict str)
    (key : str) : str :=
  key ++ ch "=" :: color_prefix colors key ++ default [] (dict_get key m).


(** ** [main]: the color rules *)

(** The [type] of the [--color] option: [s.partition('=')[0::2]]. *)
Definition color_arg (s : str) : str * str :=
  slice_0_2 (partition (ch "=") s).

(** [color_mappings = json.load(f)] followed by
    [color_mappings.extend(args.color)]: the default rules, then the
    rules of the command line in the order given. *)
Definition color_mappings (defaults : list (str * str))
    (args_color : list str) : list (str * str) :=
  defaults ++ (color_arg <$> args_color).

(** A value that this development covers in full.  It holds no float,
    whose conversion to and from text is not modelled, and it stays
    clear of the limits of the interpreter, which [json_dumps] and
    [json_loads] leave out: lists and dicts are nested no deeper than
    [depth], and integers have at most 4300 digits, the default limit
    on the conversion between [int] and [str]. *)
Fixpoint within_limits (depth : nat) (v : value) {struct v} : Prop :=
  match v with
  | VInt n => Z.abs n < 10 ^ 4300
  | VFloat _ => False
  | VList vs =>
      match depth with
      | O => False
      | S depth' =>
          (fix all (l : list value) : Prop :=
             match l with
             | [] => True
             | x :: l' => within_limits depth' x ∧ all l'
             end) vs
      end
  | VDict d =>
      match depth with
      | O => False
      | S depth' =>
          (fix all (l : list (str * value)) : Prop :=
             match l with
             | [] => True
             | (_, x) :: l' => within_limits depth' x ∧ all l'
             end) d
      end
  | _ => True
  end.


(** * Properties *)

#[global] Arguments color_codes : simpl never.
#[global] Arguments pack_format_map : simpl never.
#[global] Arguments color_key : simpl never.
#[global] Arguments select_color : simpl never.
#[global] Arguments guess_pack_format : simpl never.
#[global] Arguments lit : simpl never.
#[global] Arguments is_digit : simpl never.
#[global] Arguments newline_indent : simpl never.

Lemma for_each_cons {S A} (body : S → A → result S) st x xs :
  for_each body st (x :: xs)
  = match body st x with
    | Ok st' => for_each body st' xs
    | Raise e => Raise e
    end.
Proof. done. Qed.

(** ** Strings and prefixes *)

Lemma startswith_prefix_of (s p : str) :
  startswith s p = true ↔ p `prefix_of` s.
Proof.
  revert s. induction p as [|x p IH]; intros s; simpl.
  - split; [intros _; apply prefix_nil | done].
  - destruct s as [|c s].
    + split; [done | intros [k Hk]; discriminate].
    + rewrite andb_true_iff, IH, Z.eqb_eq. split.
      * intros [-> Hp]. by apply prefix_cons.
      * intros [k Hk]. simplify_eq/=. split; [done | by exists k].
Qed.

Lemma startswith_false (s p : str) :
  startswith s p = false ↔ ¬ p `prefix_of` s.
Proof.
  rewrite <- startswith_prefix_of. destruct (startswith s p); naive_solver.
Qed.

(** ** The shape shared by the two prefix loops *)

Section last_match.
Context {A : Type}.
Implicit Types (rules : list (str * A)) (acc : option A).

Lemma scan_rules_app key acc rules1 rules2 :
    scan_rules key acc (rules1 ++ rules2)
    = scan_rules key (scan_rules key acc rules1) rules2.
  Proof. apply foldl_app. Qed.

Lemma scan_rules_no_match key acc rules :
    no_matching_rule rules key → scan_rules key acc rules = acc.
  Proof.
    unfold scan_rules.
    induction 1 as [|r rules Hr _ IH] in acc |- *; [done|].
    simpl. rewrite <- startswith_false in Hr. rewrite Hr. apply IH.
  Qed.

Lemma scan_rules_last key acc rules c :
    last_matching_rule rules key c → scan_rules key acc rules = Some c.
  Proof.
    intros (before & p & after & -> & Hp & Hafter).
    rewrite scan_rules_app. unfold scan_rules at 1. simpl.
    apply startswith_prefix_of in Hp. rewrite Hp.
    by apply scan_rules_no_match.
  Qed.

  (** Every sequence of rules either has a last matching rule or none. *)
Lemma last_match_cases rules key :
    (∃ c, last_matching_rule rules key c) ∨ no_matching_rule rules key.
  Proof.
    induction rules as [|[p c] rules IH].
    - right. constructor.
    - destruct IH as [(c' & before & p' & after & -> & Hp & Ha) | Hnone].
      + left. exists c', ((p, c) :: before), p', after. done.
      + destruct (startswith key p) eqn:Hp.
        * left. exists c, [], p, rules.
          split_and!; [done | by apply startswith_prefix_of | done].
        * right. constructor; [by apply startswith_false | done].
  Qed.

Lemma last_matching_rule_unique rules key c1 c2 :
    last_matching_rule rules key c1 → last_matching_rule rules key c2 → c1 = c2.
  Proof.
    intros H1 H2.
    apply (scan_rules_last key None) in H1, H2. congruence.
  Qed.

Lemma scan_rules_Some key rules c :
    scan_rules key None rules = Some c ↔ last_matching_rule rules key c.
  Proof.
    split; [|apply scan_rules_last].
    intros Hs. destruct (last_match_cases rules key) as [[c' Hc'] | Hnone].
    - rewrite (scan_rules_last key None rules c' Hc') in Hs. by simplify_eq.
    - by rewrite scan_rules_no_match in Hs.
  Qed.

Lemma scan_rules_None key rules :
    scan_rules key None rules = None ↔ no_matching_rule rules key.
  Proof.
    split; [|apply scan_rules_no_match].
    intros Hs. destruct (last_match_cases rules key) as [[c' Hc'] | Hnone]; [|done].
    by rewrite (scan_rules_last key None rules c' Hc') in Hs.
  Qed.
End last_match.

Lemma select_color_Some colors key c :
  select_color colors key = Some c ↔ last_matching_rule colors key c.
Proof. apply scan_rules_Some. Qed.

Lemma select_color_None colors key :
  select_color colors key = None ↔ no_matching_rule colors key.
Proof. apply scan_rules_None. Qed.

Lemma guess_pack_format_Some version f :
  guess_pack_format version = Some f
  ↔ last_matching_rule pack_format_map version f.
Proof. apply scan_rules_Some. Qed.


(** ** Dictionaries *)

Section dict.
Context {V : Type}.
Implicit Types (d : dict V) (k : str) (v : V).

Lemma dict_get_set_eq d k v : dict_get k (dict_set k v d) = Some v.
  Proof.
    induction d as [|[k' v'] d IH]; simpl.
    - by rewrite decide_True.
    - destruct (decide (k' = k)) as [->|Hne]; simpl.
      + by rewrite decide_True.
      + by rewrite decide_False.
  Qed.

Lemma dict_get_set_ne d k k' v :
    k ≠ k' → dict_get k' (dict_set k v d) = dict_get k' d.
  Proof.
    intros Hne. induction d as [|[k0 v0] d IH]; simpl.
    - by rewrite decide_False.
    - destruct (decide (k0 = k)) as [->|Hne0]; simpl.
      + by rewrite !decide_False.
      + by rewrite IH.
  Qed.

Lemma dict_get_Some_elem d k v : dict_get k d = Some v → (k, v) ∈ d.
  Proof.
    induction d as [|[k' v'] d IH]; simpl; [done|].
    destruct (decide (k' = k)) as [->|Hne].
    - intros [= ->]. left.
    - intros H. right. by apply IH.
  Qed.

Lemma dict_get_is_Some d k : is_Some (dict_get k d) ↔ k ∈ dict_keys d.
  Proof.
    unfold dict_keys. induction d as [|[k' v'] d IH]; simpl.
    - split; [by intros [? ?] | by intros ?%elem_of_nil].
    - rewrite elem_of_cons. destruct (decide (k' = k)) as [->|Hne].
      + split; [by left | by eexists].
      + rewrite IH. split; [tauto|]. intros [?|?]; [congruence | done].
  Qed.

Lemma dict_get_None d k : dict_get k d = None ↔ k ∉ dict_keys d.
  Proof. rewrite <- dict_get_is_Some, eq_None_not_Some. done. Qed.

Lemma dict_get_elem d k v : dict_wf d → (k, v) ∈ d → dict_get k d = Some v.
  Proof.
    unfold dict_wf, dict_keys.
    induction d as [|[k' v'] d IH]; simpl; [by intros _ ?%elem_of_nil|].
    intros [Hk' Hd]%NoDup_cons [Heq|Hin]%elem_of_cons.
    - simplify_eq. by rewrite decide_True.
    - rewrite decide_False; [by apply IH|].
      intros ->. apply Hk'. apply list_elem_of_fmap. by exists (k, v).
  Qed.

  (** Assigning to a key that is present keeps the keys and their order. *)
Lemma dict_keys_set_present d k v :
    k ∈ dict_keys d → dict_keys (dict_set k v d) = dict_keys d.
  Proof.
    unfold dict_keys. induction d as [|[k' v'] d IH]; simpl.
    - by intros ?%elem_of_nil.
    - destruct (decide (k' = k)) as [->|Hne]; simpl; [done|].
      intros [?|Hin]%elem_of_cons; [congruence|]. f_equal. by apply IH.
  Qed.

Lemma dict_keys_set_absent d k v :
    k ∉ dict_keys d → dict_set k v d = d ++ [(k, v)].
  Proof.
    unfold dict_keys. induction d as [|[k' v'] d IH]; simpl; [done|].
    intros [Hne Hin]%not_elem_of_cons.
    rewrite decide_False by done. by rewrite IH.
  Qed.

Lemma dict_set_wf d k v : dict_wf d → dict_wf (dict_set k v d).
  Proof.
    intros Hwf. destruct (decide (k ∈ dict_keys d)) as [Hin|Hnin].
    - unfold dict_wf. by rewrite dict_keys_set_present.
    - rewrite dict_keys_set_absent by done. unfold dict_wf, dict_keys in *.
      rewrite fmap_app. simpl. apply NoDup_app. split_and!; [done| |].
      + intros x Hx ->%list_elem_of_singleton. done.
      + apply NoDup_singleton.
  Qed.

Lemma foldl_dict_set_wf (ps : list (str * V)) d :
    dict_wf d → dict_wf (foldl (λ d kv, dict_set kv.1 kv.2 d) d ps).
  Proof.
    revert d. induction ps as [|[k v] ps IH]; intros d Hd; simpl; [done|].
    apply IH. by apply dict_set_wf.
  Qed.

Lemma dict_of_pairs_wf (ps : list (str * V)) : dict_wf (dict_of_pairs ps).
  Proof. apply foldl_dict_set_wf. constructor. Qed.

Lemma foldl_dict_set_get (ps : list (str * V)) d k :
    dict_get k (foldl (λ d kv, dict_set kv.1 kv.2 d) d ps)
    = foldl (λ acc kv, if decide (kv.1 = k) then Some kv.2 else acc)
            (dict_get k d) ps.
  Proof.
    revert d. induction ps as [|[k' v'] ps IH]; intros d; simpl; [done|].
    rewrite IH. f_equal. destruct (decide (k' = k)) as [->|Hne].
    - apply dict_get_set_eq.
    - by apply dict_get_set_ne.
  Qed.

  (** [dict(pairs)[k]] is the value of the last pair with key [k]. *)
Lemma dict_of_pairs_get (ps : list (str * V)) k :
    dict_get k (dict_of_pairs ps) = last_value k ps.
  Proof. apply foldl_dict_set_get. Qed.

Lemma last_value_app (ps1 ps2 : list (str * V)) k v :
    Forall (λ kv, kv.1 ≠ k) ps2 →
    last_value k (ps1 ++ (k, v) :: ps2) = Some v.
  Proof.
    intros Hps2. unfold last_value. rewrite foldl_app. simpl.
    rewrite decide_True by done.
    induction Hps2 as [|[k' v'] ps2 Hne _ IH]; simpl; [done|].
    simpl in Hne. by rewrite decide_False.
  Qed.

Lemma foldl_dict_set_fresh (ps : list (str * V)) d :
    NoDup (dict_keys d ++ ps.*1) →
    foldl (λ d kv, dict_set kv.1 kv.2 d) d ps = d ++ ps.
  Proof.
    revert d. induction ps as [|[k v] ps IH]; intros d Hnd; simpl.
    - by rewrite app_nil_r.
    - simpl in Hnd. rewrite dict_keys_set_absent.
      + rewrite IH; [by rewrite <- app_assoc|].
        unfold dict_keys in *. rewrite fmap_app. simpl.
        by rewrite <- app_assoc.
      + apply NoDup_app in Hnd as (_ & Hdis & _).
        intros Hin. apply (Hdis k Hin). left.
  Qed.

  (** Pairs with distinct keys make the dict with those items in that
      order. *)
Lemma dict_of_pairs_NoDup (ps : list (str * V)) :
    NoDup ps.*1 → dict_of_pairs ps = ps.
  Proof. intros Hnd. by apply (foldl_dict_set_fresh ps []). Qed.
End dict.

(** ** The mapping loop *)

Section mapping.
Variable colors : list (str * str).
Implicit Types (d : list (list Z * value)) (u : gset (list Z)).

  (** What one turn of the loop does when it does not raise. *)
Lemma color_key_Ok d u key d1 u1 :
    color_key colors (d, u) key = Ok (d1, u1) →
    (no_matching_rule colors key ∧ d1 = d
     ∧ u1 = if startswith key (lit "subtitles.") then {[ key ]} ∪ u else u)
    ∨ (∃ c code old,
         last_matching_rule colors key c
         ∧ dict_get c color_codes = Some code
         ∧ dict_get key d = Some (VStr old)
         ∧ d1 = dict_set key (VStr (code ++ old)) d ∧ u1 = u).
  Proof.
    unfold color_key.
    destruct (select_color colors key) as [c|] eqn:Hsel.
    - apply select_color_Some in Hsel.
      destruct (dict_get c color_codes) as [code|] eqn:Hcode; [|done].
      destruct (dict_get key d) as [[| | | |old| |]|] eqn:Hget; try done.
      intros [= <- <-]. right. by exists c, code, old.
    - apply select_color_None in Hsel. intros Hok. left.
      destruct (startswith key (lit "subtitles.")); by simplify_eq.
  Qed.

Lemma color_key_keys d u key d1 u1 :
    color_key colors (d, u) key = Ok (d1, u1) → dict_keys d1 = dict_keys d.
  Proof.
    intros [(_ & -> & _) | (c & code & old & _ & _ & Hget & -> & _)]%color_key_Ok;
      [done|].
    apply dict_keys_set_present, dict_get_is_Some. by eexists.
  Qed.

  (** The loop neither adds nor removes a key, whatever keys it visits. *)
Lemma for_each_color_key_keys ks d u d' u' :
    for_each (color_key colors) (d, u) ks = Ok (d', u') →
    dict_keys d' = dict_keys d.
  Proof.
    revert d u. induction ks as [|k ks IH]; intros d u.
    - simpl. by intros [= -> ->].
    - rewrite for_each_cons.
      destruct (color_key colors (d, u) k) as [[d1 u1]|e] eqn:Hk; [|done].
      intros ->%IH. by eapply color_key_keys.
  Qed.

  (** A key that no rule matches keeps its value. *)
Lemma for_each_color_key_unmatched ks d u d' u' key :
    for_each (color_key colors) (d, u) ks = Ok (d', u') →
    no_matching_rule colors key →
    dict_get key d' = dict_get key d.
  Proof.
    intros Hrun Hnone. revert d u Hrun.
    induction ks as [|k ks IH]; intros d u.
    - simpl. by intros [= -> ->].
    - rewrite for_each_cons.
      destruct (color_key colors (d, u) k) as [[d1 u1]|e] eqn:Hk; [|done].
      intros ->%IH.
      apply color_key_Ok in Hk
        as [(_ & -> & _) | (c & code & old & Hlast & _ & _ & -> & _)]; [done|].
      apply dict_get_set_ne. intros ->.
      apply select_color_Some in Hlast.
      apply select_color_None in Hnone. congruence.
  Qed.

  (** The keys the loop adds to [unhandled] are visited keys that no
      rule matches and that start with the subtitles prefix. *)
Lemma for_each_color_key_unhandled ks d u d' u' key :
    for_each (color_key colors) (d, u) ks = Ok (d', u') →
    key ∈ u' ↔
    key ∈ u ∨ (key ∈ ks ∧ no_matching_rule colors key
               ∧ lit "subtitles." `prefix_of` key).
  Proof.
    revert d u. induction ks as [|k ks IH]; intros d u.
    - simpl. intros [= -> ->]. rewrite elem_of_nil. tauto.
    - rewrite for_each_cons.
      destruct (color_key colors (d, u) k) as [[d1 u1]|e] eqn:Hk; [|done].
      intros ->%IH. rewrite elem_of_cons.
      apply color_key_Ok in Hk
        as [(Hnone & -> & ->) | (c & code & old & Hlast & _ & _ & -> & ->)].
      + destruct (startswith k (lit "subtitles.")) eqn:Hk.
        * apply startswith_prefix_of in Hk.
          rewrite elem_of_union, elem_of_singleton. naive_solver.
        * apply startswith_false in Hk. naive_solver.
      + split; [tauto|]. intros [?|([->|?] & Hnone & ?)]; [tauto| |tauto].
        apply select_color_Some in Hlast.
        apply select_color_None in Hnone. congruence.
  Qed.

  (** A visited key with a last matching rule gets that rule's code in
      front of its value, when each key is visited once. *)
Lemma for_each_color_key_matched ks d u d' u' key c :
    NoDup ks →
    for_each (color_key colors) (d, u) ks = Ok (d', u') →
    key ∈ ks → last_matching_rule colors key c →
    ∃ code old,
      dict_get c color_codes = Some code
      ∧ dict_get key d = Some (VStr old)
      ∧ dict_get key d' = Some (VStr (code ++ old)).
  Proof.
    intros Hnd Hrun Hin Hlast. revert d u Hrun.
    induction Hnd as [|k ks Hk Hnd IH]; intros d u.
    - by apply elem_of_nil in Hin.
    - rewrite for_each_cons.
      destruct (color_key colors (d, u) k) as [[d1 u1]|e] eqn:Hstep; [|done].
      intros Hrun.
      apply color_key_Ok in Hstep
        as [(Hnone & -> & ->) | (c' & code & old & Hlast' & Hcode & Hget & -> & ->)].
      + apply elem_of_cons in Hin as [->|Hin]; [|by eapply IH].
        apply select_color_Some in Hlast.
        apply select_color_None in Hnone. congruence.
      + apply elem_of_cons in Hin as [->|Hin].
        * rewrite (last_matching_rule_unique _ _ _ _ Hlast Hlast').
          exists code, old. split_and!; [done..|].
          assert (Hsame : ∀ ks' d0 u0 d0' u0',
                     k ∉ ks' →
                     for_each (color_key colors) (d0, u0) ks' = Ok (d0', u0') →
                     dict_get k d0' = dict_get k d0).
          { clear. induction ks' as [|k' ks' IH']; intros d0 u0 d0' u0' Hnin.
            - simpl. by intros [= -> ->].
            - rewrite for_each_cons.
              destruct (color_key colors (d0, u0) k') as [[d1 u1]|e] eqn:Hs; [|done].
              apply not_elem_of_cons in Hnin as [Hne Hnin].
              intros ->%IH'; [|done].
              apply color_key_Ok in Hs
                as [(_ & -> & _) | (? & ? & ? & _ & _ & _ & -> & _)]; [done|].
              by apply dict_get_set_ne. }
          rewrite (Hsame _ _ _ _ _ Hk Hrun). apply dict_get_set_eq.
        * destruct (IH Hin _ _ Hrun) as (code' & old' & ? & Hget' & ?).
          exists code', old'. split_and!; [done| |done].
          rewrite dict_get_set_ne in Hget'; [done|]. intros ->. done.
  Qed.

  (** The loop raises when a visited key's last matching rule names a
      color that [color_codes] lacks. *)
Lemma for_each_color_key_unknown ks d u key c :
    key ∈ ks → last_matching_rule colors key c →
    dict_get c color_codes = None →
    raises (for_each (color_key colors) (d, u) ks).
  Proof.
    intros Hin Hlast Hcode. revert d u.
    induction ks as [|k ks IH]; intros d u.
    - by apply elem_of_nil in Hin.
    - rewrite for_each_cons.
      destruct (color_key colors (d, u) k) as [[d1 u1]|e] eqn:Hstep;
        [|by eexists].
      apply elem_of_cons in Hin as [->|Hin]; [|by apply IH].
      apply color_key_Ok in Hstep
        as [(Hnone & _) | (c' & code & old & Hlast' & Hcode' & _)].
      + apply select_color_Some in Hlast.
        apply select_color_None in Hnone. congruence.
      + rewrite (last_matching_rule_unique _ _ _ _ Hlast Hlast') in Hcode.
        congruence.
  Qed.

Lemma map_translation_Ok t u t' u' :
    map_translation colors t u = Ok (t', u') →
    ∃ d d', t = VDict d ∧ t' = VDict d'
            ∧ for_each (color_key colors) (d, u) (dict_keys d) = Ok (d', u').
  Proof.
    unfold map_translation. destruct t as [| | | | | |d]; try done.
    destruct (for_each _ _ _) as [[d' u'']|e] eqn:Hrun; [|done].
    simpl. intros [= <- <-]. by exists d, d'.
  Qed.
End mapping.

(** ** The language loop and the pack *)

Lemma map_language_Ok pf colors u content text u' :
  map_language pf colors u content = Ok (text, u') →
  ∃ d d',
    load_language content pf = Ok (VDict d)
    ∧ for_each (color_key colors) (d, u) (dict_keys d) = Ok (d', u')
    ∧ dump_language (VDict d') pf = Ok text.
Proof.
  unfold map_language.
  destruct (load_language content pf) as [t|e] eqn:Hload; [|done]. simpl.
  destruct (map_translation colors t u) as [[t' u'']|e] eqn:Hmap; [|done].
  simpl. apply map_translation_Ok in Hmap as (d & d' & -> & -> & Hrun).
  destruct (dump_language (VDict d') pf) as [text'|e] eqn:Hdump; [|done].
  simpl. intros [= <- <-]. by exists d, d'.
Qed.

Lemma write_languages_unhandled pf colors languages f u f' u' key :
  write_languages pf colors languages f u = (f', Ok u') →
  key ∈ u' →
  key ∈ u ∨ (no_matching_rule colors key ∧ lit "subtitles." `prefix_of` key).
Proof.
  revert f u. induction languages as [|[path content] languages IH];
    intros f u; simpl.
  - intros [= -> ->]. by left.
  - destruct (map_language pf colors u content) as [[text u1]|e] eqn:Hmap;
      [|done].
    destruct (writestr f _ text) as [f1|e]; [|done].
    intros Hrest Hin. destruct (IH _ _ Hrest Hin) as [Hu1|?]; [|by right].
    apply map_language_Ok in Hmap as (d & d' & _ & Hrun & _).
    apply (for_each_color_key_unhandled _ _ _ _ _ _ key) in Hrun.
    apply Hrun in Hu1. tauto.
Qed.

Lemma elem_of_sorted (xs : list (list Z)) (x : list Z) : x ∈ sorted xs ↔ x ∈ xs.
Proof. unfold sorted. by rewrite merge_sort_Permutation. Qed.

Lemma json_dumps_metadata pf :
  json_dumps None (metadata pf) = Ok (pack_mcmeta pf).
Proof.
  unfold json_dumps, metadata, pack_mcmeta. f_equal.
  cbv -[int_repr app]. simpl. by rewrite <- !app_assoc.
Qed.

Lemma int_repr_ascii n : existsb is_surrogate (int_repr n) = false.
Proof.
  assert (H : ∀ u, existsb is_surrogate (uint_digits u) = false)
    by (induction u; simpl; auto).
  destruct n; simpl; auto.
Qed.

(** The metadata entry is always written. *)
Lemma writestr_metadata pf :
  writestr [] (lit "pack.mcmeta") (pack_mcmeta pf)
  = Ok [(lit "pack.mcmeta", pack_mcmeta pf)].
Proof.
  unfold writestr.
  assert (existsb is_surrogate (pack_mcmeta pf) = false) as ->.
  { unfold pack_mcmeta. rewrite !existsb_app, int_repr_ascii. done. }
  by vm_compute.
Qed.

(** A run that reaches the zip file writes the metadata entry, goes
    through the languages, prints the warnings and the closing line. *)
Lemma generate_pack_resolved w version pf languages colors :
  guess_pack_format version = Some pf → pack_opened w version pf →
  generate_pack w version languages colors
  = let '(f, r) := write_languages pf colors languages
                     [(lit "pack.mcmeta", pack_mcmeta pf)] ∅ in
    (Some f,
     unhandled ← r;
     _ ← for_each (λ _ key, print w (warning_line key)) ()
           (sorted (elements unhandled));
     _ ← print w (generated_line version);
     Ok (sorted (elements unhandled))).
Proof.
  intros Hpf (Hline1 & Hline2 & Hzip). unfold generate_pack.
  rewrite Hpf, Hline1, Hline2, Hzip, json_dumps_metadata. simpl.
  by rewrite writestr_metadata.
Qed.


Lemma generate_pack_Ok w version languages colors f warnings :
  generate_pack w version languages colors = (f, Ok warnings) →
  ∃ pf f' u,
    guess_pack_format version = Some pf ∧ pack_opened w version pf
    ∧ f = Some f'
    ∧ write_languages pf colors languages
        [(lit "pack.mcmeta", pack_mcmeta pf)] ∅ = (f', Ok u)
    ∧ warnings = sorted (elements u).
Proof.
  intros Hpack.
  assert (∃ pf, guess_pack_format version = Some pf ∧ pack_opened w version pf)
    as (pf & Hpf & Hopen).
  { revert Hpack. unfold generate_pack, pack_opened.
    destruct (guess_pack_format version) as [pf|]; [|done].
    destruct (print w (generating_line version)) as [[]|e] eqn:H1; [|done].
    destruct (print w (format_line pf version)) as [[]|e] eqn:H2; [|done].
    destruct (ZipFile w (zip_path version)) as [[]|e] eqn:H3; [|done].
    intros _. by exists pf. }
  rewrite (generate_pack_resolved _ _ _ _ _ Hpf Hopen) in Hpack.
  destruct (write_languages pf colors languages _ ∅) as [f1 [u1|e]] eqn:Hw;
    [|done].
  simpl in Hpack. destruct (for_each _ () _) as [[]|e]; [|done].
  simpl in Hpack. destruct (print w (generated_line version)) as [[]|e];
    [|done].
  simpl in Hpack. injection Hpack as <- <-. by exists pf, f1, u1.
Qed.

(** ** Claims *)

(** C1. For every translation map and every ordered sequence of
    (prefix, color) rules, the color selected for a key is the color of
    the last rule in sequence order whose prefix is a prefix of the key:
    the scan does not stop at the first match, and the mapping loop puts
    that color's code in front of the key's value.  With the rules
    [("subtitles.", "white"); ("subtitles.block.", "red")] the key
    "subtitles.block.anvil.land" gets "red". *)
Theorem color_rule_last_match_wins
    (colors : list (str * str)) (d : dict value) (unhandled : gset str)
    (key c : str) :
  dict_wf d → key ∈ dict_keys d → last_matching_rule colors key c →
  select_color colors key = Some c
  ∧ (∀ d' unhandled',
       map_translation colors (VDict d) unhandled = Ok (VDict d', unhandled') →
       ∃ code old,
         dict_get c color_codes = Some code
         ∧ dict_get key d = Some (VStr old)
         ∧ dict_get key d' = Some (VStr (code ++ old)))
  ∧ select_color [(lit "subtitles.", lit "white");
                  (lit "subtitles.block.", lit "red")]
                 (lit "subtitles.block.anvil.land") = Some (lit "red").
Proof.
  intros Hwf Hin Hlast. split_and!.
  - by apply select_color_Some.
  - intros d' u' (d0 & d0' & [= <-] & [= <-] & Hrun)%map_translation_Ok.
    by eapply for_each_color_key_matched.
  - done.
Qed.

Lemma color_rule_last_match_wins_witness :
  select_color [(lit "subtitles.", lit "white");
                (lit "subtitles.block.", lit "red")]
               (lit "subtitles.block.anvil.land") = Some (lit "red")
  ∧ ∀ d' unhandled',
      map_translation [(lit "subtitles.", lit "white");
                       (lit "subtitles.block.", lit "red")]
        (VDict [(lit "subtitles.block.anvil.land", VStr (lit "Anvil lands"))])
        ∅ = Ok (VDict d', unhandled') →
      ∃ code old,
        dict_get (lit "red") color_codes = Some code
        ∧ dict_get (lit "subtitles.block.anvil.land")
            [(lit "subtitles.block.anvil.land", VStr (lit "Anvil lands"))]
          = Some (VStr old)
        ∧ dict_get (lit "subtitles.block.anvil.land") d'
          = Some (VStr (code ++ old)).
Proof.
  pose proof (color_rule_last_match_wins
    [(lit "subtitles.", lit "white"); (lit "subtitles.block.", lit "red")]
    [(lit "subtitles.block.anvil.land", VStr (lit "Anvil lands"))]
    ∅ (lit "subtitles.block.anvil.land") (lit "red")) as H.
  destruct H as (H1 & H2 & _).
  - apply NoDup_singleton.
  - apply list_elem_of_singleton. reflexivity.
  - exists [(lit "subtitles.", lit "white")], (lit "subtitles.block."), [].
    split; [reflexivity|]. split; [|constructor].
    apply startswith_prefix_of. vm_compute. reflexivity.
  - split; [exact H1 | exact H2].
Defined.

(** C4. For every version string, the format code that [generate_pack]
    uses is the code of the last entry of the version table, in
    insertion order, whose key is a prefix of the version.  "1.16.5"
    starts with both "1.16" (format 5) and "1.16.5" (format 6) and gets
    6. *)
Theorem version_last_entry_wins (version : str) (f : Z) :
  last_matching_rule pack_format_map version f →
  guess_pack_format version = Some f
  ∧ (lit "1.16" `prefix_of` lit "1.16.5"
     ∧ dict_get (lit "1.16") pack_format_map = Some 5
     ∧ lit "1.16.5" `prefix_of` lit "1.16.5"
     ∧ dict_get (lit "1.16.5") pack_format_map = Some 6
     ∧ guess_pack_format (lit "1.16.5") = Some 6).
Proof.
  intros Hlast. split; [by apply guess_pack_format_Some|].
  split_and!; try done.
  by apply startswith_prefix_of.
Qed.

Lemma version_last_entry_wins_witness :
  guess_pack_format (lit "1.16.5") = Some 6.
Proof.
  refine (proj1 (version_last_entry_wins (lit "1.16.5") 6 _)).
  exists (take 12 pack_format_map), (lit "1.16.5"), (drop 13 pack_format_map).
  split; [vm_compute; reflexivity|].
  split; [apply startswith_prefix_of; vm_compute; reflexivity|].
  unfold no_matching_rule.
  repeat (apply Forall_cons; split;
          [apply startswith_false; vm_compute; reflexivity|]).
  apply Forall_nil. exact I.
Defined.




(** ** Legacy decoding *)

Lemma partition_absent sep (s : list Z) :
  sep ∉ s → partition sep s = (s, [], []).
Proof.
  induction s as [|c s IH]; simpl; [done|].
  intros [Hne Hnin]%not_elem_of_cons.
  destruct (Z.eqb_spec c sep) as [->|_]; [done|]. by rewrite IH.
Qed.

Lemma partition_first sep (h t : list Z) :
  sep ∉ h → partition sep (h ++ sep :: t) = (h, [sep], t).
Proof.
  induction h as [|c h IH]; simpl.
  - by rewrite Z.eqb_refl.
  - intros [Hne Hnin]%not_elem_of_cons.
    destruct (Z.eqb_spec c sep) as [->|_]; [done|]. by rewrite IH.
Qed.

Lemma key_value_absent (line : list Z) :
  ch "=" ∉ line → key_value line = (line, []).
Proof. intros H. unfold key_value. by rewrite partition_absent. Qed.

Lemma key_value_first (k v : list Z) :
  ch "=" ∉ k → key_value (k ++ ch "=" :: v) = (k, v).
Proof. intros H. unfold key_value. by rewrite partition_first. Qed.

Lemma load_language_legacy contents pf :
  pf < 4 →
  load_language contents pf
  = Ok (VDict (dict_of_pairs
                 (prod_map id VStr <$> (key_value <$> legacy_lines contents)))).
Proof.
  intros Hpf. unfold load_language.
  destruct (Z.leb_spec 4 pf); [lia | done].
Qed.

(** The legacy decoder binds the key of a line to that line's value
    when no later line has the same key. *)
Lemma legacy_last_line contents pf before line after :
  pf < 4 →
  legacy_lines contents = before ++ line :: after →
  Forall (λ l, (key_value l).1 ≠ (key_value line).1) after →
  ∃ d, load_language contents pf = Ok (VDict d)
       ∧ dict_get (key_value line).1 d = Some (VStr (key_value line).2).
Proof.
  intros Hpf Hlines Hafter. eexists. split; [by apply load_language_legacy|].
  rewrite dict_of_pairs_get, Hlines, !fmap_app, !fmap_cons.
  destruct (key_value line) as [k v] eqn:Hkv. simpl.
  apply last_value_app.
  rewrite Forall_fmap, Forall_fmap.
  eapply Forall_impl; [exact Hafter|].
  intros l Hl. exact Hl.
Qed.

(** C6 as stated fails: a legacy line without [=] decodes to an entry
    with the whole line as key and the empty string as value. *)
Lemma legacy_line_without_separator_decodes :
  (ch "=" ∉ lit "abc")
  ∧ legacy_lines (lit "abc") = [lit "abc"]
  ∧ load_language (lit "abc") 3 = Ok (VDict [(lit "abc", VStr [])])
  ∧ ¬ raises (load_language (lit "abc") 3).
Proof.
  split_and!; try done.
  - intros H%list_elem_of_In. vm_compute in H. intuition discriminate.
  - intros [e He]. discriminate.
Qed.

(** C6, amended. Legacy decoding (pack format below 4) never fails.  A
    non-blank line with no [=] is not an error: it makes an entry whose
    key is the whole line and whose value is the empty string (unless a
    later line has that same key). *)
Theorem legacy_line_without_separator
    (contents : str) (pf : Z) (before : list str) (line : str)
    (after : list str) :
  pf < 4 →
  legacy_lines contents = before ++ line :: after →
  ch "=" ∉ line →
  Forall (λ l, (key_value l).1 ≠ line) after →
  key_value line = (line, [])
  ∧ ∃ d, load_language contents pf = Ok (VDict d)
         ∧ dict_get line d = Some (VStr []).
Proof.
  intros Hpf Hlines Hsep Hafter.
  pose proof (key_value_absent line Hsep) as Hkv. split; [done|].
  destruct (legacy_last_line contents pf before line after Hpf Hlines)
    as (d & Hload & Hget).
  - by rewrite Hkv.
  - rewrite Hkv in Hget. by exists d.
Qed.

Lemma legacy_line_without_separator_witness :
  key_value (lit "abc") = (lit "abc", [])
  ∧ ∃ d, load_language (lit "x=1" ++ 10 :: lit "abc" ++ 10 :: lit "y=2") 3
         = Ok (VDict d)
         ∧ dict_get (lit "abc") d = Some (VStr []).
Proof.
  apply (legacy_line_without_separator
           (lit "x=1" ++ 10 :: lit "abc" ++ 10 :: lit "y=2") 3
           [lit "x=1"] (lit "abc") [lit "y=2"]).
  - lia.
  - vm_compute. reflexivity.
  - intros H%list_elem_of_In. vm_compute in H. intuition discriminate.
  - repeat constructor. vm_compute. discriminate.
Defined.

(** C10. In legacy decoding (pack format below 4), when several lines
    have the same key, the map binds the key to the value of the last of
    them: a line's value is the one bound whenever no later line has the
    same key. *)
Theorem legacy_last_duplicate_wins
    (contents : str) (pf : Z) (before : list str) (line : str)
    (after : list str) :
  pf < 4 →
  legacy_lines contents = before ++ line :: after →
  Forall (λ l, (key_value l).1 ≠ (key_value line).1) after →
  ∃ d, load_language contents pf = Ok (VDict d)
       ∧ dict_get (key_value line).1 d = Some (VStr (key_value line).2).
Proof. apply legacy_last_line. Qed.

Lemma legacy_last_duplicate_wins_witness :
  ∃ d, load_language
         (lit "a=1" ++ 10 :: lit "b=x" ++ 10 :: lit "a=2" ++ 10 :: lit "c=y") 3
       = Ok (VDict d)
       ∧ dict_get (lit "a") d = Some (VStr (lit "2")).
Proof.
  apply (legacy_last_duplicate_wins
           (lit "a=1" ++ 10 :: lit "b=x" ++ 10 :: lit "a=2" ++ 10 :: lit "c=y") 3
           [lit "a=1"; lit "b=x"] (lit "a=2") [lit "c=y"]).
  - lia.
  - vm_compute. reflexivity.
  - repeat constructor. vm_compute. discriminate.
Defined.

(** ** The zip file during the language loop *)




(** ** Claims (continued) *)

(** C9. A key that no rule prefix matches and that does not start with
    the reserved prefix "subtitles." (such as "gui.done") is never added
    to the unresolved set, by one run of the mapping loop or by a whole
    pack, and the mapping loop leaves its value as decoded. *)
Theorem unmatched_plain_key_untouched
    (colors : list (str * str)) (d : dict value) (unhandled : gset str)
    (d' : dict value) (unhandled' : gset str) (key : str) :
  no_matching_rule colors key →
  ¬ lit "subtitles." `prefix_of` key →
  map_translation colors (VDict d) unhandled = Ok (VDict d', unhandled') →
  dict_get key d' = dict_get key d
  ∧ (key ∈ unhandled' ↔ key ∈ unhandled)
  ∧ (∀ w version languages f warnings,
       generate_pack w version languages colors = (f, Ok warnings) →
       key ∉ warnings).
Proof.
  intros Hnone Hplain (d0 & d0' & [= <-] & [= <-] & Hrun)%map_translation_Ok.
  split_and!.
  - by eapply for_each_color_key_unmatched.
  - rewrite (for_each_color_key_unhandled _ _ _ _ _ _ key Hrun). tauto.
  - intros w version languages f warnings Hpack Hin.
    apply generate_pack_Ok in Hpack as (pf & f1 & u1 & _ & _ & _ & Hw & ->).
    apply elem_of_sorted, elem_of_elements in Hin.
    destruct (write_languages_unhandled _ _ _ _ _ _ _ key Hw Hin) as [?|[_ ?]];
      [set_solver | done].
Qed.

Lemma unmatched_plain_key_untouched_witness :
  dict_get (lit "gui.done")
    [(lit "gui.done", VStr (lit "Done"));
     (lit "subtitles.block.anvil.land", VStr (code "c" ++ lit "Anvil lands"))]
  = dict_get (lit "gui.done")
      [(lit "gui.done", VStr (lit "Done"));
       (lit "subtitles.block.anvil.land", VStr (lit "Anvil lands"))]
  ∧ (lit "gui.done" ∈ (∅ : gset (list Z)) ↔ lit "gui.done" ∈ (∅ : gset (list Z)))
  ∧ (∀ w version languages f warnings,
       generate_pack w version languages [(lit "subtitles.block.", lit "red")]
       = (f, Ok warnings) →
       lit "gui.done" ∉ warnings).
Proof.
  apply (unmatched_plain_key_untouched
           [(lit "subtitles.block.", lit "red")]
           [(lit "gui.done", VStr (lit "Done"));
            (lit "subtitles.block.anvil.land", VStr (lit "Anvil lands"))]
           ∅ _ ∅ (lit "gui.done")).
  - apply select_color_None. vm_compute. reflexivity.
  - apply startswith_false. vm_compute. reflexivity.
  - vm_compute. reflexivity.
Defined.




(** ** The order on strings *)

Lemma str_leb_refl (a : list Z) : str_leb a a = true.
Proof. induction a as [|x a IH]; simpl; [done|]. by rewrite Z.ltb_irrefl. Qed.

Lemma str_leb_trans (a b c : list Z) :
  str_leb a b = true → str_leb b c = true → str_leb a c = true.
Proof.
  revert b c. induction a as [|x a IH]; intros [|y b] [|z c]; simpl; try done.
  destruct (Z.ltb_spec x y), (Z.ltb_spec y x), (Z.ltb_spec y z),
    (Z.ltb_spec z y), (Z.ltb_spec x z), (Z.ltb_spec z x);
    try done; try lia.
  apply IH.
Qed.

Lemma str_leb_total (a b : list Z) : str_leb a b = true ∨ str_leb b a = true.
Proof.
  revert b. induction a as [|x a IH]; intros [|y b]; simpl; auto.
  destruct (Z.ltb_spec x y), (Z.ltb_spec y x); auto; lia.
Qed.

#[global] Instance str_le_refl : Reflexive str_le.
Proof. intros a. apply str_leb_refl. Qed.
#[global] Instance str_le_trans : Transitive str_le.
Proof. intros a b c. apply str_leb_trans. Qed.
#[global] Instance str_le_total : Total str_le.
Proof. intros a b. apply str_leb_total. Qed.

Lemma sorted_Permutation (xs : list (list Z)) : sorted xs ≡ₚ xs.
Proof. apply merge_sort_Permutation. Qed.

(** The last element of a sorted list is its greatest. *)
Lemma sorted_last_greatest (xs ks : list (list Z)) (k k' : list Z) :
  sorted xs = ks ++ [k] → k' ∈ xs → str_le k' k.
Proof.
  intros Hs Hin.
  pose proof (StronglySorted_merge_sort str_le xs) as Hsorted.
  fold (sorted xs) in Hsorted. rewrite Hs in Hsorted.
  rewrite <- sorted_Permutation, Hs in Hin.
  apply elem_of_app in Hin as [Hin| ->%list_elem_of_singleton]; [|done].
  eapply StronglySorted_app_1_elem_of; [done..|]. apply list_elem_of_singleton.
  done.
Qed.

(** ** The string methods of the legacy decoder *)

Lemma rstrip_app_nonempty (a b : list Z) :
  rstrip b ≠ [] → rstrip (a ++ b) = a ++ rstrip b.
Proof.
  intros Hb. induction a as [|c a IH]; simpl; [done|].
  rewrite IH. destruct (a ++ rstrip b) eqn:Heq; [|done].
  by apply app_eq_nil in Heq as [_ ?].
Qed.

Lemma rstrip_snoc_keep (s : list Z) (c : Z) :
  is_space c = false → rstrip (s ++ [c]) = s ++ [c].
Proof.
  intros Hc. rewrite rstrip_app_nonempty; simpl; by rewrite Hc.
Qed.

Lemma rstrip_snoc_space (s : list Z) (c : Z) :
  is_space c = true → rstrip (s ++ [c]) = rstrip s.
Proof.
  intros Hc. induction s as [|x s IH]; simpl.
  - by rewrite Hc.
  - by rewrite IH.
Qed.

(** [rstrip] keeps a string that does not end with white space. *)
Lemma rstrip_keep (s : list Z) : ends_with_space s = false → rstrip s = s.
Proof.
  destruct s as [|x s _] using rev_ind; [done|].
  unfold ends_with_space. rewrite last_snoc. apply rstrip_snoc_keep.
Qed.

Lemma filter_all {A} (P : A → Prop) `{!∀ x, Decision (P x)} (l : list A) :
  Forall P l → filter P l = l.
Proof.
  induction 1 as [|x l Hx _ IH]; [done|].
  rewrite filter_cons_True by done. by rewrite IH.
Qed.

Lemma remove_char_absent (c : Z) (s : list Z) : c ∉ s → remove_char c s = s.
Proof.
  unfold remove_char. induction s as [|x s IH]; [done|].
  intros [Hne Hnin]%not_elem_of_cons.
  rewrite filter_cons_True by done. by rewrite IH.
Qed.

Lemma split_absent (sep : Z) (s : list Z) : sep ∉ s → split sep s = [s].
Proof.
  induction s as [|c s IH]; simpl; [done|].
  intros [Hne Hnin]%not_elem_of_cons.
  destruct (Z.eqb_spec c sep) as [->|_]; [done|]. by rewrite IH.
Qed.

Lemma split_first (sep : Z) (l r : list Z) :
  sep ∉ l → split sep (l ++ sep :: r) = l :: split sep r.
Proof.
  induction l as [|c l IH]; simpl.
  - by rewrite Z.eqb_refl.
  - intros [Hne Hnin]%not_elem_of_cons.
    destruct (Z.eqb_spec c sep) as [->|_]; [done|]. by rewrite IH.
Qed.

(** ** Legacy round trip *)

Lemma dict_get_fmap {V W} (f : V → W) (m : list (list Z * V)) (k : list Z) :
  dict_get k (prod_map id f <$> m) = f <$> dict_get k m.
Proof.
  induction m as [|[k' v'] m IH]; simpl; [done|].
  by destruct (decide (k' = k)).
Qed.

Lemma dict_keys_fmap {V W} (f : V → W) (m : list (list Z * V)) :
  dict_keys (prod_map id f <$> m) = dict_keys m.
Proof.
  unfold dict_keys. rewrite <- list_fmap_compose.
  apply list_fmap_ext. by intros _ [k v] _.
Qed.

(** A well-formed dict lists, in order, each key with the value it is
    bound to. *)
Lemma dict_wf_items {V} (m : list (list Z * V)) (dflt : V) :
  dict_wf m →
  m = (λ k, (k, default dflt (dict_get k m))) <$> dict_keys m.
Proof.
  unfold dict_wf, dict_keys. induction m as [|[k v] m IH]; [done|].
  rewrite !fmap_cons. intros [Hk Hm]%NoDup_cons. simpl.
  rewrite decide_True by done. simpl. f_equal.
  rewrite IH at 1 by done. apply list_fmap_ext.
  intros _ k' Hk'%list_elem_of_lookup_2. simpl.
  rewrite decide_False; [done|]. intros ->. done.
Qed.

Lemma lines_text_foldr (lines : list (list Z)) (rest : list Z) :
  foldr (λ l acc, l ++ 10 :: acc) rest lines = lines_text lines ++ rest.
Proof.
  induction lines as [|l lines IH]; simpl; [done|].
  rewrite IH, <- app_assoc. done.
Qed.

Lemma lines_text_snoc (lines : list (list Z)) (l : list Z) :
  lines_text (lines ++ [l]) = lines_text lines ++ l ++ [10].
Proof.
  unfold lines_text at 1. rewrite foldr_app. simpl. apply lines_text_foldr.
Qed.

Lemma lines_text_absent (c : Z) (lines : list (list Z)) :
  c ≠ 10 → Forall (λ l, c ∉ l) lines → c ∉ lines_text lines.
Proof.
  intros Hc. induction 1 as [|l lines Hl _ IH]; simpl.
  - apply not_elem_of_nil.
  - rewrite elem_of_app, elem_of_cons. naive_solver.
Qed.

Lemma split_lines_text (lines : list (list Z)) (l : list Z) :
  Forall (λ l, 10 ∉ l) lines → (10 ∉ l) →
  split 10 (lines_text lines ++ l) = lines ++ [l].
Proof.
  intros Hlines Hl. induction Hlines as [|l' lines Hl' _ IH]; simpl.
  - by apply split_absent.
  - rewrite <- app_assoc. simpl. rewrite split_first by done. by rewrite IH.
Qed.

(** What the decoder's line splitting makes of a text written line by
    line, when no line is empty or holds a line feed or a carriage
    return and the last line does not end with white space. *)
Lemma legacy_lines_text (lines : list (list Z)) :
  Forall (λ l, l ≠ [] ∧ (10 ∉ l) ∧ (13 ∉ l)) lines →
  (∀ l, last lines = Some l → ends_with_space l = false) →
  legacy_lines (lines_text lines) = lines.
Proof.
  intros Hlines Hlast. unfold legacy_lines.
  destruct lines as [|ln lines _] using rev_ind; [done|].
  apply Forall_app in Hlines as [Hlines Hln].
  apply Forall_singleton in Hln as (Hne & Hlf & Hcr).
  specialize (Hlast ln (last_snoc _ _)).
  rewrite lines_text_snoc.
  replace (lines_text lines ++ ln ++ [10])
     with ((lines_text lines ++ ln) ++ [10]) by by rewrite <- app_assoc.
  rewrite rstrip_snoc_space by done.
  rewrite rstrip_app_nonempty; rewrite (rstrip_keep ln Hlast); [|done].
  rewrite remove_char_absent.
  - rewrite split_lines_text; [| |done].
    + apply filter_all, Forall_app. split.
      * eapply Forall_impl; [exact Hlines|]. naive_solver.
      * by apply Forall_singleton.
    + eapply Forall_impl; [exact Hlines|]. naive_solver.
  - rewrite elem_of_app. intros [Hin|Hin]; [|done].
    revert Hin. apply lines_text_absent; [done|].
    eapply Forall_impl; [exact Hlines|]. naive_solver.
Qed.

Lemma ends_with_space_line (k v : list Z) :
  ends_with_space (k ++ ch "=" :: v) = ends_with_space v.
Proof.
  unfold ends_with_space.
  destruct v as [|c v _] using rev_ind.
  - replace (k ++ [ch "="]) with (k ++ [ch "="]) by done.
    by rewrite last_snoc.
  - replace (k ++ ch "=" :: v ++ [c]) with ((k ++ ch "=" :: v) ++ [c])
      by by rewrite <- app_assoc.
    by rewrite !last_snoc.
Qed.

Section legacy_round_trip.
Variable m : list (list Z * list Z).
Hypothesis m_wf : dict_wf m.
Hypothesis m_safe : legacy_safe m.

Let value_of (k : list Z) : list Z := default [] (dict_get k m).

Lemma legacy_text_lines (ks : list (list Z)) :
    (∀ k, k ∈ ks → k ∈ dict_keys m) →
    legacy_text (prod_map id VStr <$> m) ks
    = Ok (lines_text (legacy_line m <$> ks)).
  Proof.
    induction ks as [|k ks IH]; intros Hks; simpl; [done|].
    rewrite dict_get_fmap.
    destruct (dict_get k m) as [v|] eqn:Hget.
    - simpl. rewrite IH by (intros k' ?; apply Hks; by right). simpl.
      unfold legacy_line at 2. rewrite Hget. simpl.
      by rewrite <- app_assoc.
    - apply dict_get_None in Hget. destruct Hget. apply Hks. by left.
  Qed.

Lemma legacy_safe_key (k : list Z) :
    k ∈ dict_keys m →
    (ch "=" ∉ k) ∧ (10 ∉ k) ∧ (13 ∉ k)
    ∧ (10 ∉ value_of k) ∧ (13 ∉ value_of k).
  Proof.
    intros [v Hget]%dict_get_is_Some. unfold value_of. rewrite Hget. simpl.
    destruct m_safe as [Hall _]. unfold legacy_chars in Hall.
    rewrite Forall_forall in Hall.
    apply dict_get_Some_elem in Hget.
    exact (Hall _ Hget).
  Qed.

Lemma legacy_round_trip_lines :
    legacy_lines (lines_text (legacy_line m <$> sorted (dict_keys m)))
    = legacy_line m <$> sorted (dict_keys m).
  Proof.
    apply legacy_lines_text.
    - apply Forall_fmap, Forall_forall. intros k Hk.
      apply (proj1 (elem_of_sorted _ _)) in Hk.
      destruct (legacy_safe_key k Hk) as (_ & Hlf & Hcr & Hvlf & Hvcr).
      unfold legacy_line. fold (value_of k). simpl. split_and!.
      + by destruct k.
      + rewrite elem_of_app, elem_of_cons. intros [?|[?|?]]; done.
      + rewrite elem_of_app, elem_of_cons. intros [?|[?|?]]; done.
    - intros l Hl. rewrite fmap_last in Hl.
      destruct (last (sorted (dict_keys m))) as [k|] eqn:Hk; [|done].
      simpl in Hl. injection Hl as <-.
      apply last_Some in Hk as [ks Hks].
      unfold legacy_line. rewrite ends_with_space_line.
      assert (Hin : k ∈ dict_keys m).
      { apply elem_of_sorted. rewrite Hks, elem_of_app.
        right. by apply list_elem_of_singleton. }
      apply dict_get_is_Some in Hin as [v Hget]. rewrite Hget. simpl.
      destruct m_safe as [_ Hgreatest]. apply (Hgreatest k v).
      + by apply dict_get_Some_elem.
      + intros k' Hk'. by eapply sorted_last_greatest.
  Qed.

Lemma legacy_round_trip_pairs :
    key_value <$> (legacy_line m <$> sorted (dict_keys m))
    = (λ k, (k, value_of k)) <$> sorted (dict_keys m).
  Proof.
    rewrite <- list_fmap_compose. apply list_fmap_ext.
    intros _ k Hk%list_elem_of_lookup_2.
    apply (proj1 (elem_of_sorted _ _)) in Hk.
    destruct (legacy_safe_key k Hk) as (Hsep & _).
    simpl. unfold legacy_line. by apply key_value_first.
  Qed.

  (** The round trip yields the items of [m], in the order of the sorted
      keys. *)
Lemma legacy_round_trip (f : Z) :
    f < 4 →
    ∃ text,
      dump_language (translation_of m) f = Ok text
      ∧ load_language text f
        = Ok (VDict ((λ k, (k, VStr (value_of k))) <$> sorted (dict_keys m))).
  Proof.
    intros Hf. exists (lines_text (legacy_line m <$> sorted (dict_keys m))).
    split.
    - unfold dump_language, translation_of.
      destruct (Z.leb_spec 4 f); [lia|].
      rewrite dict_keys_fmap. apply legacy_text_lines.
      intros k. apply elem_of_sorted.
    - rewrite load_language_legacy by done.
      rewrite legacy_round_trip_lines, legacy_round_trip_pairs.
      rewrite <- list_fmap_compose. do 2 f_equal.
      apply dict_of_pairs_NoDup.
      rewrite <- list_fmap_compose.
      rewrite (list_fmap_ext _ id (sorted (dict_keys m))) by done.
      rewrite list_fmap_id, sorted_Permutation. exact m_wf.
  Qed.

Lemma legacy_round_trip_Permutation :
    (λ k, (k, VStr (value_of k))) <$> sorted (dict_keys m)
    ≡ₚ prod_map id VStr <$> m.
  Proof.
    rewrite sorted_Permutation.
    rewrite (dict_wf_items m [] m_wf) at 2.
    rewrite <- list_fmap_compose. done.
  Qed.
End legacy_round_trip.

(** C3 as stated fails, whichever way its condition on keys is read.
    Read as "no key holds [=]": the trailing space of the last value is
    stripped.  Read as "every key holds [=]": the line is cut at the
    first [=], inside the key.  Both maps have no line feed in a
    value. *)
Lemma legacy_round_trip_fails :
  (dict_wf [(lit "a", lit "b ")]
   ∧ Forall (λ kv, (ch "=" ∉ kv.1) ∧ (10 ∉ kv.2)) [(lit "a", lit "b ")]
   ∧ dump_language (translation_of [(lit "a", lit "b ")]) 3
     = Ok (lit "a=b " ++ [10])
   ∧ load_language (lit "a=b " ++ [10]) 3
     = Ok (VDict [(lit "a", VStr (lit "b"))])
   ∧ ¬ [(lit "a", VStr (lit "b"))]
       ≡ₚ prod_map id VStr <$> [(lit "a", lit "b ")])
  ∧ (dict_wf [(lit "a=b", lit "c")]
     ∧ Forall (λ kv, (ch "=" ∈ kv.1) ∧ (10 ∉ kv.2)) [(lit "a=b", lit "c")]
     ∧ dump_language (translation_of [(lit "a=b", lit "c")]) 3
       = Ok (lit "a=b=c" ++ [10])
     ∧ load_language (lit "a=b=c" ++ [10]) 3
       = Ok (VDict [(lit "a", VStr (lit "b=c"))])
     ∧ ¬ [(lit "a", VStr (lit "b=c"))]
         ≡ₚ prod_map id VStr <$> [(lit "a=b", lit "c")]).
Proof.
  split; split_and!; try (vm_compute; reflexivity).
  - apply NoDup_singleton.
  - apply Forall_singleton. split;
      intros H%list_elem_of_In; vm_compute in H; intuition discriminate.
  - intros H%Permutation_singleton_l. discriminate.
  - apply NoDup_singleton.
  - apply Forall_singleton. split.
    + apply list_elem_of_In. vm_compute. auto.
    + intros H%list_elem_of_In. vm_compute in H. intuition discriminate.
  - intros H%Permutation_singleton_l. discriminate.
Qed.

(** C3, amended. For every pack format below 4 and every translation
    map with string values in which no key holds [=], no key or value
    holds a line feed or a carriage return, and the value of the
    greatest key does not end with white space, encoding succeeds and
    decoding the text gives a dict with the same items as the map
    (Python's dict equality: the order of insertion is not compared). *)
Theorem legacy_round_trip_safe (f : Z) (m : dict str) :
  f < 4 → dict_wf m → legacy_safe m →
  ∃ text d,
    dump_language (translation_of m) f = Ok text
    ∧ load_language text f = Ok (VDict d)
    ∧ d ≡ₚ prod_map id VStr <$> m.
Proof.
  intros Hf Hwf Hsafe.
  destruct (legacy_round_trip m Hwf Hsafe f Hf) as (text & Hdump & Hload).
  eexists text, _. split_and!; [done..|].
  by apply legacy_round_trip_Permutation.
Qed.

Lemma legacy_round_trip_safe_witness :
  ∃ text d,
    dump_language (translation_of [(lit "b", lit "x=y"); (lit "a", lit "1 ")]) 3
    = Ok text
    ∧ load_language text 3 = Ok (VDict d)
    ∧ d ≡ₚ prod_map id VStr <$> [(lit "b", lit "x=y"); (lit "a", lit "1 ")].
Proof.
  apply (legacy_round_trip_safe 3 [(lit "b", lit "x=y"); (lit "a", lit "1 ")]).
  - lia.
  - apply (bool_decide_unpack _). vm_compute. exact I.
  - split.
    + repeat (apply Forall_cons; split); [| |apply Forall_nil; exact I];
        split_and!;
        intros H%list_elem_of_In; vm_compute in H; intuition discriminate.
    + intros k v Hin Hmax.
      apply elem_of_cons in Hin as [Heq|Hin].
      * injection Heq as -> ->. vm_compute. reflexivity.
      * apply list_elem_of_singleton in Hin. injection Hin as -> ->.
        specialize (Hmax (lit "b")).
        assert (str_le (lit "b") (lit "a")) as Hle.
        { apply Hmax. apply list_elem_of_In. vm_compute. auto. }
        vm_compute in Hle. discriminate.
Defined.

(** ** Escapes: bit arithmetic *)

Lemma land_shifted_low (a b k : Z) :
  0 <= k → 0 <= b < 2 ^ k → Z.land (a * 2 ^ k) b = 0.
Proof.
  intros Hk Hb. apply Z.bits_inj'. intros i Hi.
  rewrite Z.land_spec, Z.bits_0.
  destruct (Z.lt_ge_cases i k) as [Hlt|Hge].
  - by rewrite Z.mul_pow2_bits_low.
  - rewrite andb_false_iff. right.
    destruct (Z.eq_dec b 0) as [->|Hb0]; [apply Z.bits_0|].
    apply Z.bits_above_log2; [lia|].
    apply Z.lt_le_trans with k; [|done].
    apply Z.log2_lt_pow2; lia.
Qed.

Lemma lor_shifted_low (a b k : Z) :
  0 <= k → 0 <= b < 2 ^ k → Z.lor (a * 2 ^ k) b = a * 2 ^ k + b.
Proof.
  intros Hk Hb. rewrite <- Z.add_lor_land, land_shifted_low by done. lia.
Qed.

Lemma hex_value_digit (d : Z) : 0 <= d < 16 → hex_value (hex_digit d) = Some d.
Proof.
  intros Hd. unfold hex_value, hex_digit.
  destruct (Z.ltb_spec d 10).
  - replace ((48 <=? 48 + d) && (48 + d <=? 57)) with true; [f_equal; lia|].
    symmetry. apply andb_true_iff. split; apply Z.leb_le; lia.
  - replace ((48 <=? 87 + d) && (87 + d <=? 57)) with false.
    + replace ((97 <=? 87 + d) && (87 + d <=? 102)) with true; [f_equal; lia|].
      symmetry. apply andb_true_iff. split; apply Z.leb_le; lia.
    + symmetry. apply andb_false_iff. right. apply Z.leb_gt. lia.
Qed.

Lemma nibble (n k : Z) :
  0 <= k → Z.land (Z.shiftr n k) 15 = (n / 2 ^ k) mod 16.
Proof.
  intros Hk. rewrite Z.shiftr_div_pow2 by done.
  change 15 with (Z.ones 4). by rewrite Z.land_ones.
Qed.

(** The decoder reads back the four digits the encoder writes. *)
Lemma decode_hex4 (n : Z) :
  0 <= n < 65536 →
  ∃ h1 h2 h3 h4, hex4 n = [h1; h2; h3; h4]
                 ∧ decode_uXXXX h1 h2 h3 h4 = Some n.
Proof.
  intros Hn. unfold hex4. do 4 eexists. split; [done|].
  unfold decode_uXXXX.
  rewrite !nibble by lia.
  change (Z.land n 15) with (Z.land n (Z.ones 4)).
  rewrite Z.land_ones by lia.
  rewrite !hex_value_digit by (apply Z.mod_pos_bound; lia).
  f_equal. rewrite !Z.shiftl_mul_pow2 by lia.
  rewrite !lor_shifted_low; try lia; try (apply Z.mod_pos_bound; lia).
  change (2 ^ 12) with 4096. change (2 ^ 8) with 256. change (2 ^ 4) with 16.
  pose proof (Z.div_mod n 4096). pose proof (Z.div_mod n 256).
  pose proof (Z.div_mod n 16).
  Z.div_mod_to_equations. lia.
Qed.

Lemma surrogates_of (c : Z) :
  65536 <= c < 1114112 →
  Z.lor 55296 (Z.land (Z.shiftr (c - 65536) 10) 1023) = 55296 + (c - 65536) / 1024
  ∧ Z.lor 56320 (Z.land (c - 65536) 1023) = 56320 + (c - 65536) mod 1024.
Proof.
  intros Hc.
  change 1023 with (Z.ones 10). rewrite !Z.land_ones by lia.
  rewrite Z.shiftr_div_pow2 by lia. change (2 ^ 10) with 1024.
  assert (0 <= (c - 65536) / 1024 < 1024) as Hq
    by (split; [apply Z.div_pos; lia | apply Z.div_lt_upper_bound; lia]).
  rewrite (Z.mod_small _ 1024) by done.
  pose proof (Z.mod_pos_bound (c - 65536) 1024 ltac:(lia)) as Hr.
  change 55296 with (54 * 2 ^ 10) at 1. change 56320 with (55 * 2 ^ 10) at 1.
  rewrite !lor_shifted_low by (change (2 ^ 10) with 1024; lia).
  done.
Qed.

Lemma join_surrogates_of (c : Z) :
  65536 <= c < 1114112 →
  join_surrogates (55296 + (c - 65536) / 1024) (56320 + (c - 65536) mod 1024)
  = c.
Proof.
  intros Hc. unfold join_surrogates.
  replace (55296 + (c - 65536) / 1024 - 55296) with ((c - 65536) / 1024) by lia.
  replace (56320 + (c - 65536) mod 1024 - 56320) with ((c - 65536) mod 1024)
    by lia.
  rewrite Z.shiftl_mul_pow2 by lia.
  pose proof (Z.mod_pos_bound (c - 65536) 1024 ltac:(lia)) as Hr.
  rewrite lor_shifted_low by (change (2 ^ 10) with 1024; lia).
  change (2 ^ 10) with 1024. pose proof (Z.div_mod (c - 65536) 1024). lia.
Qed.

(** ** [scanstring] on what [encode_basestring_ascii] writes *)

Lemma scanstring_plain (c : Z) (t : list Z) :
  c ≠ QUOTE → c ≠ BACKSLASH → 32 <= c →
  scanstring (c :: t) = push c (scanstring t).
Proof.
  intros Hq Hb Hc. simpl.
  destruct (Z.eqb_spec c QUOTE); [done|].
  destruct (Z.eqb_spec c BACKSLASH); [done|].
  destruct (Z.ltb_spec c 32); [lia | done].
Qed.

Lemma scanstring_short (e c : Z) (t : list Z) :
  e ≠ ch "u" → unescape e = Some c →
  scanstring (BACKSLASH :: e :: t) = push c (scanstring t).
Proof.
  intros He Hc. simpl.
  destruct (Z.eqb_spec e (ch "u")); [done|]. by rewrite Hc.
Qed.

Lemma scanstring_u (h1 h2 h3 h4 : Z) (t : list Z) :
  scanstring (BACKSLASH :: ch "u" :: h1 :: h2 :: h3 :: h4 :: t)
  = match decode_uXXXX h1 h2 h3 h4 with
    | None => None
    | Some uni =>
        if is_high_surrogate uni then
          match t with
          | b :: u :: t' =>
              if (b =? BACKSLASH) && (u =? ch "u") then
                match t' with
                | g1 :: g2 :: g3 :: g4 :: t'' =>
                    match decode_uXXXX g1 g2 g3 g4 with
                    | None => None
                    | Some uni2 =>
                        if is_low_surrogate uni2
                        then push (join_surrogates uni uni2) (scanstring t'')
                        else push uni (scanstring t)
                    end
                | _ => None
                end
              else push uni (scanstring t)
          | _ => push uni (scanstring t)
          end
        else push uni (scanstring t)
    end.
Proof. done. Qed.

(** A [\u] escape that the decoder takes alone. *)
Lemma scanstring_u_single (n : Z) (t : list Z) :
  0 <= n < 65536 →
  (is_high_surrogate n = true → not_low_escape t) →
  scanstring (u_escape n ++ t) = push n (scanstring t).
Proof.
  intros Hn Hnext. unfold u_escape.
  destruct (decode_hex4 n Hn) as (h1 & h2 & h3 & h4 & -> & Hdec).
  change ((BACKSLASH :: ch "u" :: [h1; h2; h3; h4]) ++ t)
    with (BACKSLASH :: ch "u" :: h1 :: h2 :: h3 :: h4 :: t).
  rewrite scanstring_u, Hdec.
  destruct (is_high_surrogate n); [|done].
  specialize (Hnext eq_refl).
  destruct t as [|b [|u t']]; [done..|].
  unfold not_low_escape in Hnext.
  destruct ((b =? BACKSLASH) && (u =? ch "u")); [|done].
  destruct (Hnext eq_refl) as (x & t'' & -> & Hx & Hlow).
  destruct (decode_hex4 x Hx) as (g1 & g2 & g3 & g4 & -> & Hdec').
  change ([g1; g2; g3; g4] ++ t'') with (g1 :: g2 :: g3 :: g4 :: t'').
  cbv beta iota. by rewrite Hdec', Hlow.
Qed.

(** The two escapes of a code point above U+FFFF, which the decoder
    joins. *)
Lemma scanstring_u_pair (c : Z) (t : list Z) :
  65536 <= c < 1114112 →
  scanstring (u_escape (55296 + (c - 65536) / 1024)
              ++ u_escape (56320 + (c - 65536) mod 1024) ++ t)
  = push c (scanstring t).
Proof.
  intros Hc.
  assert (0 <= (c - 65536) / 1024 < 1024) as Hq
    by (split; [apply Z.div_pos; lia | apply Z.div_lt_upper_bound; lia]).
  pose proof (Z.mod_pos_bound (c - 65536) 1024 ltac:(lia)) as Hr.
  unfold u_escape.
  destruct (decode_hex4 (55296 + (c - 65536) / 1024)) as
    (h1 & h2 & h3 & h4 & -> & Hdec); [lia|].
  destruct (decode_hex4 (56320 + (c - 65536) mod 1024)) as
    (g1 & g2 & g3 & g4 & -> & Hdec'); [lia|].
  change ((BACKSLASH :: ch "u" :: [h1; h2; h3; h4])
          ++ (BACKSLASH :: ch "u" :: [g1; g2; g3; g4]) ++ t)
    with (BACKSLASH :: ch "u" :: h1 :: h2 :: h3 :: h4
          :: BACKSLASH :: ch "u" :: g1 :: g2 :: g3 :: g4 :: t).
  rewrite scanstring_u, Hdec.
  assert (is_high_surrogate (55296 + (c - 65536) / 1024) = true) as ->.
  { unfold is_high_surrogate. apply andb_true_iff. split; apply Z.leb_le; lia. }
  rewrite Z.eqb_refl, Z.eqb_refl. simpl andb. cbv iota.
  rewrite Hdec'.
  assert (is_low_surrogate (56320 + (c - 65536) mod 1024) = true) as ->.
  { unfold is_low_surrogate. apply andb_true_iff. split; apply Z.leb_le; lia. }
  by rewrite join_surrogates_of.
Qed.

(** The four shapes of [escape_char]. *)
Lemma escape_char_cases (c : Z) :
  is_code_point c →
  (c ≠ QUOTE ∧ c ≠ BACKSLASH ∧ 32 <= c ∧ escape_char c = [c])
  ∨ (∃ e, e ≠ ch "u" ∧ unescape e = Some c ∧ escape_char c = [BACKSLASH; e])
  ∨ (0 <= c < 65536 ∧ escape_char c = u_escape c)
  ∨ (65536 <= c < 1114112
     ∧ escape_char c = u_escape (55296 + (c - 65536) / 1024)
                       ++ u_escape (56320 + (c - 65536) mod 1024)).
Proof.
  intros Hc. unfold is_code_point in Hc. unfold escape_char.
  destruct (Z.eqb_spec c BACKSLASH) as [->|?];
    [right; left; by exists BACKSLASH|].
  destruct (Z.eqb_spec c QUOTE) as [->|?]; [right; left; by exists QUOTE|].
  destruct (Z.leb_spec 32 c), (Z.leb_spec c 126); simpl; [by left|..].
  all: destruct (Z.eqb_spec c 8) as [->|?]; [right; left; by exists (ch "b")|].
  all: destruct (Z.eqb_spec c 12) as [->|?]; [right; left; by exists (ch "f")|].
  all: destruct (Z.eqb_spec c 10) as [->|?]; [right; left; by exists (ch "n")|].
  all: destruct (Z.eqb_spec c 13) as [->|?]; [right; left; by exists (ch "r")|].
  all: destruct (Z.eqb_spec c 9) as [->|?]; [right; left; by exists (ch "t")|].
  all: destruct (Z.ltb_spec c 65536); [right; right; left; split; [lia|done]|].
  all: right; right; right; split; [lia|].
  all: by destruct (surrogates_of c ltac:(lia)) as [-> ->].
Qed.

Lemma scanstring_escape_char (c : Z) (t : list Z) :
  is_code_point c →
  (is_high_surrogate c = true → not_low_escape t) →
  scanstring (escape_char c ++ t) = push c (scanstring t).
Proof.
  intros Hc Hnext.
  destruct (escape_char_cases c Hc)
    as [(? & ? & ? & ->) | [(e & ? & ? & ->) | [(? & ->) | (? & ->)]]].
  - by apply scanstring_plain.
  - by apply scanstring_short.
  - by apply scanstring_u_single.
  - rewrite <- app_assoc. by apply scanstring_u_pair.
Qed.

Lemma not_low_escape_char (c : Z) (t : list Z) :
  is_code_point c → is_low_surrogate c = false → t ≠ [] →
  not_low_escape (escape_char c ++ t).
Proof.
  intros Hc Hlow Ht.
  destruct (escape_char_cases c Hc)
    as [(? & ? & ? & ->) | [(e & ? & ? & ->) | [(? & ->) | (? & ->)]]].
  - destruct t as [|u t]; [done|]. simpl.
    destruct (Z.eqb_spec c BACKSLASH); [done|]. by intros [=].
  - simpl. destruct (Z.eqb_spec e (ch "u")); [done|]. by intros [=].
  - simpl. intros _. by exists c, t.
  - simpl. intros _. eexists _, _. split; [done|].
    assert (0 <= (c - 65536) / 1024 < 1024) as Hq
      by (split; [apply Z.div_pos; lia | apply Z.div_lt_upper_bound; lia]).
    split; [lia|].
    unfold is_low_surrogate. apply andb_false_iff. left. apply Z.leb_gt. lia.
Qed.

Lemma not_low_escape_quote (rest : list Z) : not_low_escape (QUOTE :: rest).
Proof. destruct rest; [done|]. simpl. by intros [=]. Qed.

Lemma escape_body_cons (c : Z) (s : list Z) :
  escape_body (c :: s) = escape_char c ++ escape_body s.
Proof. done. Qed.

(** The decoder reads back a string body written by the encoder. *)
Lemma scanstring_escape_body (s rest : list Z) :
  json_safe s →
  scanstring (escape_body s ++ QUOTE :: rest) = Some (s, rest).
Proof.
  intros [Hvalid Hpair]. induction Hvalid as [|c s Hc Hvalid IH].
  - done.
  - rewrite escape_body_cons, <- app_assoc.
    rewrite scanstring_escape_char; [|done|].
    + rewrite IH; [done|]. destruct s as [|c' s]; [done|].
      simpl in Hpair. by apply orb_false_iff in Hpair as [_ ?].
    + intros Hhigh. destruct s as [|c' s].
      * apply not_low_escape_quote.
      * rewrite escape_body_cons, <- app_assoc.
        apply not_low_escape_char.
        -- by apply Forall_cons in Hvalid as [? _].
        -- simpl in Hpair. apply orb_false_iff in Hpair as [Hpair _].
           rewrite Hhigh in Hpair. done.
        -- by destruct (escape_body s).
Qed.

Lemma scan_once_string (fuel : nat) (s rest : list Z) :
  json_safe s →
  scan_once (S fuel) (encode_basestring_ascii s ++ rest) = Scanned (VStr s) rest.
Proof.
  intros Hs. unfold encode_basestring_ascii.
  change ((QUOTE :: escape_body s ++ [QUOTE]) ++ rest)
    with (QUOTE :: (escape_body s ++ [QUOTE]) ++ rest).
  rewrite <- app_assoc. simpl.
  by rewrite scanstring_escape_body.
Qed.

(** ** [json.dumps] of a translation map *)

Lemma collect_cons {A B} (body : A → result B) (x : A) (xs : list A) :
  collect body (x :: xs) = (y ← body x; ys ← collect body xs; Ok (y :: ys)).
Proof. done. Qed.

Lemma collect_members (indent : option nat) (level : nat)
    (m : list (list Z * list Z)) :
  collect (λ '(key, v),
             x ← iterencode indent (S level) v;
             Ok (encode_basestring_ascii key ++ lit ": " ++ x))
          (prod_map id VStr <$> m)
  = Ok (member_text <$> m).
Proof.
  induction m as [|[k v] m IH]; [done|].
  rewrite !fmap_cons, collect_cons, IH. done.
Qed.

Lemma iterencode_translation (indent : option nat) (level : nat)
    (kv : list Z * list Z) (m : list (list Z * list Z)) :
  iterencode indent level (translation_of (kv :: m))
  = Ok (ch "{" :: bracket_body indent level (member_text <$> kv :: m)
        ++ lit "}").
Proof.
  unfold translation_of. rewrite fmap_cons.
  change (iterencode indent level (VDict (prod_map id VStr kv
                                          :: (prod_map id VStr <$> m))))
    with (items ← collect (λ '(key, v),
                             x ← iterencode indent (S level) v;
                             Ok (encode_basestring_ascii key ++ lit ": " ++ x))
                          (prod_map id VStr <$> kv :: m);
          Ok (ch "{" :: bracket_body indent level items ++ lit "}")).
  by rewrite collect_members.
Qed.

Lemma join_members_tail (kv : list Z * list Z) (m : list (list Z * list Z)) :
  join [ch ","; 10; 32; 32] (member_text <$> kv :: m) ++ [10; ch "}"]
  = QUOTE :: members_tail (kv :: m).
Proof.
  revert kv. induction m as [|kv' m IH]; intros [k v].
  - simpl. unfold member_text, encode_basestring_ascii. simpl.
    repeat (rewrite <- app_assoc; simpl). done.
  - rewrite fmap_cons.
    change (join [ch ","; 10; 32; 32] (member_text (k, v) :: (member_text <$> kv' :: m)))
      with (member_text (k, v) ++ [ch ","; 10; 32; 32]
            ++ join [ch ","; 10; 32; 32] (member_text <$> kv' :: m)).
    rewrite <- !app_assoc, IH.
    unfold member_text at 1. unfold encode_basestring_ascii at 1. simpl.
    repeat (rewrite <- app_assoc; simpl). done.
Qed.

(** The text that [dump_language] writes for a non-empty map. *)
Lemma json_dumps_translation (kv : list Z * list Z) (m : list (list Z * list Z)) :
  json_dumps (Some 2%nat) (translation_of (kv :: m))
  = Ok ([ch "{"; 10; 32; 32; QUOTE] ++ members_tail (kv :: m)).
Proof.
  unfold json_dumps. rewrite iterencode_translation. f_equal.
  unfold bracket_body.
  change (newline_indent 2 1) with [10; 32; 32].
  change (newline_indent 2 0) with [10].
  change (ch "," :: [10; 32; 32]) with [ch ","; 10; 32; 32].
  rewrite <- !app_assoc.
  change ([10] ++ lit "}") with [10; ch "}"].
  by rewrite join_members_tail.
Qed.

(** ** [json.loads] on that text *)

Lemma object_members_S (sv : list Z → scan value) (n : nat) (s : list Z) :
  object_members sv (S n) s
  = match scanstring s with
    | None => Invalid
    | Some (key, r1) =>
        match skip_ws r1 with
        | c2 :: r2 =>
            if c2 =? ch ":" then
              scan_bind (sv (skip_ws r2))
                (λ v r3,
                   match skip_ws r3 with
                   | c3 :: r4 =>
                       if c3 =? ch "}" then Scanned [(key, v)] r4
                       else if c3 =? ch "," then
                         match skip_ws r4 with
                         | q :: r5 =>
                             if q =? QUOTE then
                               scan_bind (object_members sv n r5)
                                 (λ kvs r6, Scanned ((key, v) :: kvs) r6)
                             else Invalid
                         | [] => Invalid
                         end
                       else Invalid
                   | [] => Invalid
                   end)
            else Invalid
        | [] => Invalid
        end
    end.
Proof. done. Qed.

Lemma object_members_tail (sv : list Z → scan value) (n : nat)
    (m : list (list Z * list Z)) (rest : list Z) :
  (∀ s t, json_safe s → sv (encode_basestring_ascii s ++ t) = Scanned (VStr s) t) →
  m ≠ [] → (length m ≤ n)%nat → json_safe_map m →
  object_members sv n (members_tail m ++ rest)
  = Scanned (prod_map id VStr <$> m) rest.
Proof.
  intros Hsv Hne Hn Hsafe. revert n Hn.
  induction Hsafe as [|[k v] m [Hk Hv] Hsafe IH]; [done|].
  intros [|n] Hn; [simpl in Hn; lia|]. simpl in Hn.
  rewrite object_members_S.
  change (members_tail ((k, v) :: m))
    with (escape_body k ++ QUOTE :: lit ": " ++ encode_basestring_ascii v
          ++ match m with
             | [] => [10; ch "}"]
             | _ :: _ => [ch ","; 10; 32; 32; QUOTE] ++ members_tail m
             end).
  rewrite <- app_assoc. simpl in Hk, Hv.
  change ((QUOTE :: lit ": " ++ ?x) ++ rest) with (QUOTE :: lit ": " ++ x ++ rest).
  rewrite <- app_comm_cons, scanstring_escape_body by done.
  rewrite <- !app_assoc.
  change (skip_ws (lit ": " ++ ?x)) with (ch ":" :: 32 :: x).
  cbv beta iota. rewrite Z.eqb_refl.
  set (tail := match m with [] => _ | _ :: _ => _ end ++ rest).
  assert (skip_ws (32 :: encode_basestring_ascii v ++ tail)
          = encode_basestring_ascii v ++ tail) as -> by done.
  rewrite Hsv by done. unfold scan_bind at 1. subst tail.
  destruct m as [|kv' m]; [done|].
  change (skip_ws ((ch "," :: [10; 32; 32; QUOTE] ++ ?x) ++ rest))
    with (ch "," :: 10 :: 32 :: 32 :: QUOTE :: x ++ rest).
  cbv beta iota.
  change (ch "," =? ch "}") with false. change (ch "," =? ch ",") with true.
  cbv beta iota.
  change (skip_ws (10 :: 32 :: 32 :: QUOTE :: ?x)) with (QUOTE :: x).
  cbv beta iota. rewrite Z.eqb_refl.
  rewrite IH; [done|done|lia].
Qed.

Lemma members_tail_length (m : list (list Z * list Z)) :
  (length m ≤ length (members_tail m))%nat.
Proof.
  induction m as [|[k v] m IH]; simpl; [lia|].
  rewrite length_app. simpl. rewrite length_app.
  destruct m; simpl in *; [lia|]. lia.
Qed.

(** [json.loads] reads back what [json.dumps] with [indent=2] writes for
    a map with string values, items in the same order. *)
Lemma json_round_trip (m : list (list Z * list Z)) :
  dict_wf m → json_safe_map m →
  ∃ text,
    json_dumps (Some 2%nat) (translation_of m) = Ok text
    ∧ json_loads text = Ok (translation_of m).
Proof.
  intros Hwf Hsafe. destruct m as [|kv m].
  { by exists (lit "{}"). }
  eexists. split; [apply json_dumps_translation|].
  set (tail := members_tail (kv :: m)).
  unfold json_loads.
  change (startswith ([ch "{"; 10; 32; 32; QUOTE] ++ tail) [BOM]) with false.
  cbv beta iota.
  change (skip_ws ([ch "{"; 10; 32; 32; QUOTE] ++ tail))
    with (ch "{" :: 10 :: 32 :: 32 :: QUOTE :: tail).
  change (length ([ch "{"; 10; 32; 32; QUOTE] ++ tail))
    with (S (S (S (S (S (length tail)))))).
  set (fuel := S (S (S (S (length tail))))).
  change (scan_once (S (S fuel)) (ch "{" :: 10 :: 32 :: 32 :: QUOTE :: tail))
    with (scan_bind (object_members (scan_once (S fuel)) (S fuel) tail)
            (λ pairs rest, Scanned (VDict (dict_of_pairs pairs)) rest)).
  rewrite <- (app_nil_r tail). subst tail.
  rewrite object_members_tail; [|by apply scan_once_string|done| |done].
  - unfold scan_bind. rewrite dict_of_pairs_NoDup; [done|].
    change (NoDup (dict_keys (prod_map id VStr <$> kv :: m))).
    by rewrite dict_keys_fmap.
  - pose proof (members_tail_length (kv :: m)). subst fuel. lia.
Qed.

(** C2 as stated fails: a value made of a high surrogate followed by a
    low surrogate is written as two [\u] escapes, which [json.loads]
    joins into the single code point U+1F600. *)
Lemma json_round_trip_fails :
  dict_wf [(lit "k", [55357; 56832])]
  ∧ valid_str [55357; 56832]
  ∧ dump_language (translation_of [(lit "k", [55357; 56832])]) 4
    = Ok (lit "{" ++ [10] ++ lit "  " ++ quoted (lit "k") ++ lit ": "
          ++ quoted (BACKSLASH :: lit "ud83d" ++ BACKSLASH :: lit "ude00")
          ++ [10] ++ lit "}")
  ∧ load_language
      (lit "{" ++ [10] ++ lit "  " ++ quoted (lit "k") ++ lit ": "
       ++ quoted (BACKSLASH :: lit "ud83d" ++ BACKSLASH :: lit "ude00")
       ++ [10] ++ lit "}") 4
    = Ok (translation_of [(lit "k", [128512])])
  ∧ translation_of [(lit "k", [128512])]
    ≠ translation_of [(lit "k", [55357; 56832])].
Proof.
  split_and!; try (vm_compute; reflexivity).
  - apply NoDup_singleton.
  - apply (bool_decide_unpack _). vm_compute. exact I.
  - discriminate.
Qed.

(** C2, amended. For every pack format from 4 up and every translation
    map with string keys and values in which no high surrogate is
    immediately followed by a low surrogate, encoding succeeds and
    decoding the text gives the map back, with its items in the same
    order. *)
Theorem json_round_trip_safe (f : Z) (m : dict str) :
  4 <= f → dict_wf m → json_safe_map m →
  ∃ text,
    dump_language (translation_of m) f = Ok text
    ∧ load_language text f = Ok (translation_of m).
Proof.
  intros Hf Hwf Hsafe. unfold dump_language, load_language.
  destruct (Z.leb_spec 4 f); [|lia]. by apply json_round_trip.
Qed.

Lemma json_round_trip_safe_witness :
  ∃ text,
    dump_language
      (translation_of [(lit "b", [55357; 10; 200; 70000; QUOTE; BACKSLASH]);
                       (lit "a", lit "x=y ")]) 9
    = Ok text
    ∧ load_language text 9
      = Ok (translation_of [(lit "b", [55357; 10; 200; 70000; QUOTE; BACKSLASH]);
                            (lit "a", lit "x=y ")]).
Proof.
  apply (json_round_trip_safe 9
           [(lit "b", [55357; 10; 200; 70000; QUOTE; BACKSLASH]);
            (lit "a", lit "x=y ")]).
  - lia.
  - apply (bool_decide_unpack _). vm_compute. exact I.
  - apply (bool_decide_unpack _). vm_compute. exact I.
Defined.

(** ** [scanstring], step by step *)

Lemma push_Some (c : Z) (r : option (list Z * list Z)) (x rest : list Z) :
  push c r = Some (x, rest) → ∃ x', x = c :: x' ∧ r = Some (x', rest).
Proof. destruct r as [[x' rest']|]; [|done]. intros [= <- <-]. by exists x'. Qed.

(** A successful [scanstring] either meets the closing quote or makes
    one step and goes on. *)
Lemma scanstring_inv (s x rest : list Z) :
  scanstring s = Some (x, rest) →
  (x = [] ∧ s = QUOTE :: rest)
  ∨ ∃ c x' pre t,
      x = c :: x' ∧ s = pre ++ t ∧ string_step c t pre
      ∧ scanstring t = Some (x', rest).
Proof.
  destruct s as [|c s1]; [done|]. simpl.
  destruct (Z.eqb_spec c QUOTE) as [->|Hq]; [intros [= <- <-]; by left|].
  destruct (Z.eqb_spec c BACKSLASH) as [->|Hb].
  2:{ destruct (Z.ltb_spec c 32) as [|Hc]; [done|].
      intros (x' & -> & Hrest)%push_Some. right.
      exists c, x', [c], s1. split_and!; [done..| |done]. by constructor. }
  destruct s1 as [|e s2]; [done|].
  destruct (Z.eqb_spec e (ch "u")) as [->|He].
  2:{ destruct (unescape e) as [c'|] eqn:Hun; [|done].
      intros (x' & -> & Hrest)%push_Some. right.
      exists c', x', [BACKSLASH; e], s2. split_and!; [done..| |done].
      by constructor. }
  destruct s2 as [|h1 [|h2 [|h3 [|h4 s3]]]]; [done..|].
  destruct (decode_uXXXX h1 h2 h3 h4) as [uni|] eqn:Hdec; [|done].
  assert (Hsingle :
    (is_high_surrogate uni = true →
     ∀ g1 g2 g3 g4 t' lo,
       s3 = BACKSLASH :: ch "u" :: g1 :: g2 :: g3 :: g4 :: t' →
       decode_uXXXX g1 g2 g3 g4 = Some lo → is_low_surrogate lo = false) →
    push uni (scanstring s3) = Some (x, rest) →
    (x = [] ∧ BACKSLASH :: ch "u" :: h1 :: h2 :: h3 :: h4 :: s3 = QUOTE :: rest)
    ∨ ∃ c x' pre t,
        x = c :: x' ∧ BACKSLASH :: ch "u" :: h1 :: h2 :: h3 :: h4 :: s3 = pre ++ t
        ∧ string_step c t pre ∧ scanstring t = Some (x', rest)).
  { intros Hlook (x' & -> & Hrest)%push_Some. right.
    exists uni, x', [BACKSLASH; ch "u"; h1; h2; h3; h4], s3.
    split_and!; [done..| |done]. by constructor. }
  destruct (is_high_surrogate uni) eqn:Hhigh; [|by apply Hsingle].
  destruct s3 as [|b [|u s4]];
    [by apply Hsingle..|].
  destruct (Z.eqb_spec b BACKSLASH) as [->|Hb'];
    [|apply Hsingle; intros _ ???????; by simplify_eq].
  destruct (Z.eqb_spec u (ch "u")) as [->|Hu'];
    [|apply Hsingle; intros _ ???????; by simplify_eq].
  simpl andb. cbv iota.
  destruct s4 as [|g1 [|g2 [|g3 [|g4 s5]]]]; [done..|].
  destruct (decode_uXXXX g1 g2 g3 g4) as [uni2|] eqn:Hdec'; [|done].
  destruct (is_low_surrogate uni2) eqn:Hlow.
  - intros (x' & -> & Hrest)%push_Some. right.
    exists (join_surrogates uni uni2), x',
      [BACKSLASH; ch "u"; h1; h2; h3; h4; BACKSLASH; ch "u"; g1; g2; g3; g4], s5.
    split_and!; [done..| |done]. by econstructor.
  - apply Hsingle. intros _ ??????? Hlo. simplify_eq. congruence.
Qed.

Lemma hex_value_range (c d : Z) : hex_value c = Some d → 0 <= d < 16.
Proof.
  unfold hex_value.
  destruct (Z.leb_spec 48 c), (Z.leb_spec c 57); simpl;
    [intros [= <-]; lia|..].
  all: destruct (Z.leb_spec 97 c), (Z.leb_spec c 102); simpl;
    [intros [= <-]; lia|..].
  all: destruct (Z.leb_spec 65 c), (Z.leb_spec c 70); simpl;
    [intros [= <-]; lia|..]; done.
Qed.

Lemma decode_uXXXX_range (a b c d n : Z) :
  decode_uXXXX a b c d = Some n → 0 <= n < 65536.
Proof.
  unfold decode_uXXXX.
  destruct (hex_value a) as [x3|] eqn:H3; [|done].
  destruct (hex_value b) as [x2|] eqn:H2; [|done].
  destruct (hex_value c) as [x1|] eqn:H1; [|done].
  destruct (hex_value d) as [x0|] eqn:H0; [|done].
  apply hex_value_range in H3, H2, H1, H0. intros [= <-].
  rewrite !Z.shiftl_mul_pow2 by lia.
  rewrite !lor_shifted_low; change (2 ^ 4) with 16; lia.
Qed.

Lemma join_surrogates_range (hi lo : Z) :
  is_high_surrogate hi = true → is_low_surrogate lo = true →
  65536 <= join_surrogates hi lo < 1114112.
Proof.
  unfold is_high_surrogate, is_low_surrogate, join_surrogates.
  intros [?%Z.leb_le ?%Z.leb_le]%andb_true_iff
         [?%Z.leb_le ?%Z.leb_le]%andb_true_iff.
  rewrite Z.shiftl_mul_pow2 by lia.
  rewrite lor_shifted_low; change (2 ^ 10) with 1024; lia.
Qed.

Lemma unescape_range (e c : Z) : unescape e = Some c → 0 <= c < 128.
Proof.
  unfold unescape. repeat case_match; intros [= <-]; done.
Qed.

Lemma not_surrogate_range (c : Z) :
  (c < 55296 ∨ 57343 < c) → is_surrogate c = false.
Proof.
  intros Hc. unfold is_surrogate. apply andb_false_iff.
  destruct Hc; [left|right]; apply Z.leb_gt; lia.
Qed.

Lemma is_high_surrogate_surrogate (c : Z) :
  is_high_surrogate c = true → is_surrogate c = true.
Proof.
  unfold is_high_surrogate, is_surrogate.
  intros [?%Z.leb_le ?%Z.leb_le]%andb_true_iff.
  apply andb_true_iff. split; apply Z.leb_le; lia.
Qed.

Lemma is_low_surrogate_surrogate (c : Z) :
  is_low_surrogate c = true → is_surrogate c = true.
Proof.
  unfold is_low_surrogate, is_surrogate.
  intros [?%Z.leb_le ?%Z.leb_le]%andb_true_iff.
  apply andb_true_iff. split; apply Z.leb_le; lia.
Qed.

Lemma string_step_nonempty (c : Z) (t pre : list Z) :
  string_step c t pre → (0 < length pre)%nat.
Proof. destruct 1; simpl; lia. Qed.

(** A step makes a code point; a surrogate only from a [\u] escape of
    it. *)
Lemma string_step_code_point (c : Z) (t pre : list Z) :
  string_step c t pre → decoded_text pre →
  is_code_point c
  ∧ (is_surrogate c = true →
     ∃ h1 h2 h3 h4, pre = [BACKSLASH; ch "u"; h1; h2; h3; h4]
                    ∧ decode_uXXXX h1 h2 h3 h4 = Some c).
Proof.
  unfold is_code_point.
  destruct 1 as [? ? ?|e ? Hun|h1 h2 h3 h4 Hdec _
                 |h1 h2 h3 h4 g1 g2 g3 g4 hi lo ? Hhi ? Hlo ->]; intros Hpre.
  - apply Forall_singleton in Hpre as [? Hs]. split; [done|]. congruence.
  - apply unescape_range in Hun. split; [lia|].
    rewrite not_surrogate_range by lia. done.
  - pose proof (decode_uXXXX_range _ _ _ _ _ Hdec). split; [lia|].
    intros _. by exists h1, h2, h3, h4.
  - pose proof (join_surrogates_range _ _ Hhi Hlo). split; [lia|].
    rewrite not_surrogate_range by lia. done.
Qed.

(** [scanstring] consumes at least the closing quote and leaves a
    suffix of its input. *)
Lemma scanstring_progress (s x rest : list Z) :
  scanstring s = Some (x, rest) →
  rest `suffix_of` s ∧ (length rest < length s)%nat.
Proof.
  revert s. induction x as [|c x IH]; intros s Hs;
    apply scanstring_inv in Hs
      as [[? ->] | (c' & x' & pre & t & Heq & -> & Hstep & Ht)];
    try done.
  - split; [by apply suffix_cons_r | simpl; lia].
  - injection Heq as <- <-. destruct (IH _ Ht) as [Hsuf Hlen].
    apply string_step_nonempty in Hstep. split.
    + by apply suffix_app_r.
    + rewrite length_app. lia.
Qed.

(** On decoded text, [scanstring] makes strings that [json.dumps] and
    [json.loads] carry faithfully. *)
Lemma scanstring_safe (s x rest : list Z) :
  decoded_text s → scanstring s = Some (x, rest) → json_safe x.
Proof.
  revert s. induction x as [|c x IH]; intros s Hs Hscan;
    [split; [constructor|done]|].
  apply scanstring_inv in Hscan
    as [[? ->] | (c' & x' & pre & t & Heq & -> & Hstep & Ht)]; [done|].
  injection Heq as <- <-.
  apply Forall_app in Hs as [Hpre Htext].
  destruct (IH _ Htext Ht) as [Hvalid Hpair].
  destruct (string_step_code_point _ _ _ Hstep Hpre) as [Hc Hsur].
  split; [by constructor|].
  destruct x as [|c2 x]; [done|].
  change (has_surrogate_pair (c :: c2 :: x))
    with (is_high_surrogate c && is_low_surrogate c2
          || has_surrogate_pair (c2 :: x)).
  rewrite Hpair, orb_false_r.
  destruct (is_high_surrogate c) eqn:Hhigh; [|done].
  destruct (is_low_surrogate c2) eqn:Hlow; [|done]. exfalso.
  destruct (Hsur (is_high_surrogate_surrogate _ Hhigh))
    as (h1 & h2 & h3 & h4 & -> & Hdec).
  apply scanstring_inv in Ht
    as [[? ->] | (c2' & x2 & pre2 & t2 & Heq & -> & Hstep2 & Ht2)]; [done|].
  injection Heq as <- <-.
  apply Forall_app in Htext as [Hpre2 _].
  destruct (string_step_code_point _ _ _ Hstep2 Hpre2) as [_ Hsur2].
  destruct (Hsur2 (is_low_surrogate_surrogate _ Hlow))
    as (g1 & g2 & g3 & g4 & -> & Hdec2).
  inversion Hstep as [| |? ? ? ? _ Hlook|]; subst.
  rewrite (Hlook Hhigh g1 g2 g3 g4 t2 c2 eq_refl Hdec2) in Hlow. done.
Qed.

(** ** The scanner makes progress and has fuel enough *)

Lemma skip_ws_suffix (s : list Z) : skip_ws s `suffix_of` s.
Proof.
  induction s as [|c s IH]; simpl; [done|].
  destruct (is_json_ws c); [by apply suffix_cons_r | done].
Qed.

Lemma skip_ws_length (s : list Z) : (length (skip_ws s) ≤ length s)%nat.
Proof. apply suffix_length, skip_ws_suffix. Qed.

Lemma startswith_drop (s p : list Z) :
  startswith s p = true → s = p ++ drop (length p) s.
Proof.
  intros [k ->]%startswith_prefix_of. by rewrite drop_app_length.
Qed.

Lemma startswith_progress (s p : list Z) :
  startswith s p = true → p ≠ [] →
  drop (length p) s `suffix_of` s
  ∧ (length (drop (length p) s) < length s)%nat.
Proof.
  intros Hs Hp. apply startswith_drop in Hs. split.
  - by exists p.
  - rewrite Hs at 2. rewrite length_app. destruct p; [done|]. simpl. lia.
Qed.

Lemma span_digits_app (s ds r : list Z) :
  span_digits s = (ds, r) → s = ds ++ r.
Proof.
  revert ds r. induction s as [|c s IH]; intros ds r; simpl.
  - by intros [= <- <-].
  - destruct (is_digit c); [|by intros [= <- <-]].
    destruct (span_digits s) as [ds' r'] eqn:Hspan.
    intros [= <- <-]. by rewrite (IH _ _ eq_refl).
Qed.

Lemma match_number_app (s i f e rest : list Z) :
  match_number s = Some (i, f, e, rest) →
  s = i ++ f ++ e ++ rest ∧ i ≠ [].
Proof.
  unfold match_number.
  set (sign := match s with
               | c :: s' => if c =? ch "-" then ([c], s') else ([], s)
               | [] => ([], s)
               end).
  assert (s = sign.1 ++ sign.2) as Hsign.
  { subst sign. destruct s as [|c s']; [done|]. by destruct (c =? ch "-"). }
  destruct sign as [sg s1]. simpl in Hsign.
  destruct s1 as [|d s2]; [done|].
  destruct (is_digit d); [|done].
  set (ip := if d =? 48 then ([d], s2)
             else let '(ds, r) := span_digits s2 in (d :: ds, r)).
  assert (d :: s2 = ip.1 ++ ip.2 ∧ ip.1 ≠ []) as [Hip Hipne].
  { subst ip. destruct (d =? 48); [done|].
    destruct (span_digits s2) as [ds r] eqn:Hspan.
    apply span_digits_app in Hspan as ->. done. }
  destruct ip as [int_part s3]. simpl in Hip, Hipne.
  set (fr := match s3 with
             | p :: t =>
                 if p =? ch "." then
                   match span_digits t with
                   | ([], _) => ([], s3)
                   | (ds, r) => (p :: ds, r)
                   end
                 else ([], s3)
             | [] => ([], s3)
             end).
  assert (s3 = fr.1 ++ fr.2) as Hfr.
  { subst fr. destruct s3 as [|p t]; [done|].
    destruct (p =? ch "."); [|done].
    destruct (span_digits t) as [[|x ds] r] eqn:Hspan; [done|].
    apply span_digits_app in Hspan as ->. done. }
  destruct fr as [frac s4]. simpl in Hfr.
  set (ex := match s4 with
             | e :: t =>
                 if (e =? ch "e") || (e =? ch "E") then
                   let '(sg, t') :=
                     match t with
                     | c :: t'' =>
                         if (c =? ch "-") || (c =? ch "+") then ([c], t'')
                         else ([], t)
                     | [] => ([], t)
                     end in
                   match span_digits t' with
                   | ([], _) => ([], s4)
                   | (ds, r) => (e :: sg ++ ds, r)
                   end
                 else ([], s4)
             | [] => ([], s4)
             end).
  assert (s4 = ex.1 ++ ex.2) as Hex.
  { subst ex. destruct s4 as [|e0 t]; [done|].
    destruct ((e0 =? ch "e") || (e0 =? ch "E")); [|done].
    set (sgn := match t with
                | c :: t'' =>
                    if (c =? ch "-") || (c =? ch "+") then ([c], t'')
                    else ([], t)
                | [] => ([], t)
                end).
    assert (t = sgn.1 ++ sgn.2) as Hsgn.
    { subst sgn. destruct t as [|c t'']; [done|].
      by destruct ((c =? ch "-") || (c =? ch "+")). }
    destruct sgn as [sg' t']. simpl in Hsgn.
    destruct (span_digits t') as [[|x ds] r] eqn:Hspan; [done|].
    apply span_digits_app in Hspan. simpl. rewrite Hsgn, Hspan.
    by rewrite <- app_assoc. }
  destruct ex as [exp s5]. simpl in Hex.
  intros [= <- <- <- <-]. split.
  - rewrite Hsign, <- app_assoc. f_equal. rewrite Hip. f_equal.
    by rewrite Hfr, Hex.
  - by destruct sg.
Qed.

Lemma suffix_app_progress (pre rest : list Z) :
  pre ≠ [] →
  rest `suffix_of` pre ++ rest ∧ (length rest < length (pre ++ rest))%nat.
Proof.
  intros Hpre. split; [by exists pre|].
  rewrite length_app. destruct pre; [done|]. simpl. lia.
Qed.

Lemma scan_atom_progress : scan_progress scan_atom.
Proof.
  intros t v r. unfold scan_atom.
  destruct (startswith t (lit "null")) eqn:H1;
    [intros [= <- <-]; by apply (startswith_progress t (lit "null"))|].
  destruct (startswith t (lit "true")) eqn:H2;
    [intros [= <- <-]; by apply (startswith_progress t (lit "true"))|].
  destruct (startswith t (lit "false")) eqn:H3;
    [intros [= <- <-]; by apply (startswith_progress t (lit "false"))|].
  destruct (match_number t) as [[[[i f] e] rest]|] eqn:Hnum.
  - apply match_number_app in Hnum as [-> Hi].
    assert (r = rest → r `suffix_of` i ++ f ++ e ++ rest
                       ∧ (length r < length (i ++ f ++ e ++ rest))%nat) as Hok.
    { intros ->. rewrite !app_assoc. apply suffix_app_progress.
      by destruct i. }
    destruct f, e; intros [= <- <-]; by apply Hok.
  - destruct (startswith t (lit "NaN")) eqn:H4;
      [intros [= <- <-]; by apply (startswith_progress t (lit "NaN"))|].
    destruct (startswith t (lit "Infinity")) eqn:H5;
      [intros [= <- <-]; by apply (startswith_progress t (lit "Infinity"))|].
    destruct (startswith t (lit "-Infinity")) eqn:H6;
      [intros [= <- <-]; by apply (startswith_progress t (lit "-Infinity"))|].
    done.
Qed.

Lemma scan_atom_fuelled (s : list Z) : scan_atom s ≠ OutOfFuel.
Proof.
  unfold scan_atom. repeat case_match; done.
Qed.

Lemma progress_trans (r t s : list Z) :
  r `suffix_of` t ∧ (length r < length t)%nat →
  t `suffix_of` s →
  r `suffix_of` s ∧ (length r < length s)%nat.
Proof.
  intros [Hsuf Hlen] Hts. split; [by etrans|].
  apply suffix_length in Hts. lia.
Qed.

Lemma progress_skip (r t s : list Z) :
  r `suffix_of` skip_ws t →
  t `suffix_of` s ∧ (length t < length s)%nat →
  r `suffix_of` s ∧ (length r < length s)%nat.
Proof.
  intros Hr [Hts Hlen].
  assert (r `suffix_of` t) as Hrt by (etrans; [done | apply skip_ws_suffix]).
  split; [by etrans|]. apply suffix_length in Hrt. lia.
Qed.

Lemma suffix_tail (c : Z) (r s : list Z) :
  c :: r `suffix_of` s → r `suffix_of` s ∧ (length r < length s)%nat.
Proof.
  intros Hs. split; [by eapply suffix_cons_l|].
  apply suffix_length in Hs. simpl in Hs. lia.
Qed.

Section loops.
Variable sv : list Z → scan value.
Hypothesis sv_progress : scan_progress sv.

Lemma object_members_progress (n : nat) :
  scan_progress (object_members sv n).
Proof.
  induction n as [|n IH]; intros s kvs rest; [done|].
  rewrite object_members_S.
  destruct (scanstring s) as [[key r1]|] eqn:Hkey; [|done].
  apply scanstring_progress in Hkey.
  destruct (skip_ws r1) as [|c2 r2] eqn:Hr1; [done|].
  destruct (c2 =? ch ":"); [|done].
  assert (r2 `suffix_of` s ∧ (length r2 < length s)%nat) as Hr2.
  { eapply progress_trans; [|apply Hkey].
    apply suffix_tail with c2. rewrite <- Hr1. apply skip_ws_suffix. }
  destruct (sv (skip_ws r2)) as [v r3| |] eqn:Hv; [|done..].
  apply sv_progress in Hv. simpl.
  assert (r3 `suffix_of` s ∧ (length r3 < length s)%nat) as Hr3.
  { eapply progress_trans; [exact Hv|].
    etrans; [apply skip_ws_suffix | apply Hr2]. }
  destruct (skip_ws r3) as [|c3 r4] eqn:Hr3'; [done|].
  assert (r4 `suffix_of` s ∧ (length r4 < length s)%nat) as Hr4.
  { eapply progress_trans; [|apply Hr3].
    apply suffix_tail with c3. rewrite <- Hr3'. apply skip_ws_suffix. }
  destruct (c3 =? ch "}"); [by intros [= <- <-]|].
  destruct (c3 =? ch ","); [|done].
  destruct (skip_ws r4) as [|q r5] eqn:Hr4'; [done|].
  destruct (q =? QUOTE); [|done].
  destruct (object_members sv n r5) as [kvs' r6| |] eqn:Hrec; [|done..].
  simpl. intros [= <- <-]. apply IH in Hrec.
  eapply progress_trans; [exact Hrec|].
  etrans; [|apply Hr4]. eapply suffix_cons_l.
  rewrite <- Hr4'. apply skip_ws_suffix.
Qed.

Lemma array_elements_progress (n : nat) :
  scan_progress (array_elements sv n).
Proof.
  induction n as [|n IH]; intros s vs rest; [done|]. simpl.
  destruct (sv s) as [v r1| |] eqn:Hv; [|done..].
  apply sv_progress in Hv. simpl.
  destruct (skip_ws r1) as [|c2 r2] eqn:Hr1; [done|].
  assert (r2 `suffix_of` s ∧ (length r2 < length s)%nat) as Hr2.
  { eapply progress_trans; [|apply Hv].
    apply suffix_tail with c2. rewrite <- Hr1. apply skip_ws_suffix. }
  destruct (c2 =? ch "]"); [by intros [= <- <-]|].
  destruct (c2 =? ch ","); [|done].
  destruct (array_elements sv n (skip_ws r2)) as [vs' r3| |] eqn:Hrec;
    [|done..].
  simpl. intros [= <- <-]. apply IH in Hrec.
  eapply progress_trans; [exact Hrec|].
  etrans; [apply skip_ws_suffix | apply Hr2].
Qed.

Lemma JSONObject_progress (n : nat) (s : list Z) (v : value) (rest : list Z) :
  JSONObject sv n s = Scanned v rest →
  rest `suffix_of` s ∧ (length rest ≤ length s)%nat.
Proof.
  unfold JSONObject.
  destruct (skip_ws s) as [|c1 s2] eqn:Hs; [done|].
  assert (s2 `suffix_of` s ∧ (length s2 < length s)%nat) as Hs2.
  { apply suffix_tail with c1. rewrite <- Hs. apply skip_ws_suffix. }
  destruct (c1 =? ch "}"); [intros [= <- <-]; split; [apply Hs2|lia]|].
  destruct (c1 =? QUOTE); [|done].
  destruct (object_members sv n s2) as [kvs r| |] eqn:Hm; [|done..].
  simpl. intros [= <- <-]. apply object_members_progress in Hm.
  destruct (progress_trans _ _ _ Hm (proj1 Hs2)). split; [done|lia].
Qed.

Lemma JSONArray_progress (n : nat) (s : list Z) (v : value) (rest : list Z) :
  JSONArray sv n s = Scanned v rest →
  rest `suffix_of` s ∧ (length rest ≤ length s)%nat.
Proof.
  unfold JSONArray.
  destruct (skip_ws s) as [|c1 s2] eqn:Hs; [done|].
  assert (s2 `suffix_of` s ∧ (length s2 < length s)%nat) as Hs2.
  { apply suffix_tail with c1. rewrite <- Hs. apply skip_ws_suffix. }
  destruct (c1 =? ch "]"); [intros [= <- <-]; split; [apply Hs2|lia]|].
  destruct (array_elements sv n (c1 :: s2)) as [vs r| |] eqn:Hm; [|done..].
  simpl. intros [= <- <-]. apply array_elements_progress in Hm.
  rewrite <- Hs in Hm.
  destruct (progress_trans _ _ _ Hm (skip_ws_suffix s)). split; [done|lia].
Qed.

Variable bound : nat.
Hypothesis sv_fuelled : scan_fuelled sv bound.

Lemma object_members_fuelled (n : nat) (s : list Z) :
  (length s < bound)%nat → (length s < n)%nat →
  object_members sv n s ≠ OutOfFuel.
Proof.
  revert s. induction n as [|n IH]; intros s Hb Hn; [lia|].
  rewrite object_members_S.
  destruct (scanstring s) as [[key r1]|] eqn:Hkey; [|done].
  apply scanstring_progress in Hkey.
  destruct (skip_ws r1) as [|c2 r2] eqn:Hr1; [done|].
  destruct (c2 =? ch ":"); [|done].
  assert (r2 `suffix_of` s ∧ (length r2 < length s)%nat) as Hr2.
  { eapply progress_trans; [|apply Hkey].
    apply suffix_tail with c2. rewrite <- Hr1. apply skip_ws_suffix. }
  pose proof (skip_ws_length r2).
  destruct (sv (skip_ws r2)) as [v r3| |] eqn:Hv; [|done|];
    [|by apply sv_fuelled in Hv; [|lia]].
  apply sv_progress in Hv. simpl.
  destruct (skip_ws r3) as [|c3 r4] eqn:Hr3'; [done|].
  assert (length r4 < length r3)%nat as Hr4.
  { pose proof (skip_ws_length r3) as Hl. rewrite Hr3' in Hl. simpl in Hl. lia. }
  destruct (c3 =? ch "}"); [done|].
  destruct (c3 =? ch ","); [|done].
  destruct (skip_ws r4) as [|q r5] eqn:Hr4'; [done|].
  assert (length r5 < length r4)%nat as Hr5.
  { pose proof (skip_ws_length r4) as Hl. rewrite Hr4' in Hl. simpl in Hl. lia. }
  destruct (q =? QUOTE); [|done].
  destruct (object_members sv n r5) as [kvs' r6| |] eqn:Hrec; [done..|].
  apply IH in Hrec; [done|lia..].
Qed.

Lemma array_elements_fuelled (n : nat) (s : list Z) :
  (length s < bound)%nat → (length s < n)%nat →
  array_elements sv n s ≠ OutOfFuel.
Proof.
  revert s. induction n as [|n IH]; intros s Hb Hn; [lia|]. simpl.
  destruct (sv s) as [v r1| |] eqn:Hv; [|done|];
    [|by apply sv_fuelled in Hv].
  apply sv_progress in Hv. simpl.
  destruct (skip_ws r1) as [|c2 r2] eqn:Hr1; [done|].
  assert (length r2 < length r1)%nat as Hr2.
  { pose proof (skip_ws_length r1) as Hl. rewrite Hr1 in Hl. simpl in Hl. lia. }
  destruct (c2 =? ch "]"); [done|].
  destruct (c2 =? ch ","); [|done].
  pose proof (skip_ws_length r2).
  destruct (array_elements sv n (skip_ws r2)) as [vs' r3| |] eqn:Hrec;
    [done..|].
  apply IH in Hrec; [done|lia..].
Qed.
End loops.

(** [scan_once] makes progress, and its fuel is enough for every text
    shorter than it. *)
Lemma scan_once_progress (fuel : nat) : scan_progress (scan_once fuel).
Proof.
  induction fuel as [|fuel IH]; intros s v rest; [done|]. simpl.
  destruct s as [|c s1]; [done|].
  destruct (c =? QUOTE).
  { destruct (scanstring s1) as [[x r]|] eqn:Hx; [|done].
    intros [= <- <-]. apply scanstring_progress in Hx as [Hsuf Hlen].
    split; [by apply suffix_cons_r | simpl; lia]. }
  destruct (c =? ch "{").
  { intros [Hsuf Hlen]%JSONObject_progress; [|done].
    split; [by apply suffix_cons_r | simpl; lia]. }
  destruct (c =? ch "[").
  { intros [Hsuf Hlen]%JSONArray_progress; [|done].
    split; [by apply suffix_cons_r | simpl; lia]. }
  apply scan_atom_progress.
Qed.

Lemma scan_once_fuelled (fuel : nat) : scan_fuelled (scan_once fuel) fuel.
Proof.
  induction fuel as [|fuel IH]; intros s Hlen; [lia|]. simpl.
  destruct s as [|c s1]; [done|]. simpl in Hlen.
  destruct (c =? QUOTE); [by destruct (scanstring s1) as [[??]|]|].
  destruct (c =? ch "{").
  { unfold JSONObject.
    destruct (skip_ws s1) as [|c1 s2] eqn:Hs; [done|].
    assert (length s2 < length s1)%nat as Hs2.
    { pose proof (skip_ws_length s1) as Hl. rewrite Hs in Hl. simpl in Hl. lia. }
    destruct (c1 =? ch "}"); [done|]. destruct (c1 =? QUOTE); [|done].
    destruct (object_members _ fuel s2) as [kvs r| |] eqn:Hm; [done..|].
    eapply object_members_fuelled in Hm;
      [done | apply scan_once_progress | exact IH | lia..]. }
  destruct (c =? ch "[").
  { unfold JSONArray.
    destruct (skip_ws s1) as [|c1 s2] eqn:Hs; [done|].
    pose proof (skip_ws_length s1) as Hl. rewrite Hs in Hl.
    destruct (c1 =? ch "]"); [done|].
    destruct (array_elements _ fuel (c1 :: s2)) as [vs r| |] eqn:Hm; [done..|].
    eapply array_elements_fuelled in Hm;
      [done | apply scan_once_progress | exact IH | lia..]. }
  apply scan_atom_fuelled.
Qed.

(** [json_loads] never runs out of the fuel it supplies: its only
    failure is [JSONDecodeError]. *)
Lemma json_loads_total (s : list Z) :
  (∃ v, json_loads s = Ok v) ∨ json_loads s = Raise JSONDecodeError.
Proof.
  unfold json_loads. destruct (startswith s [BOM]); [by right|].
  destruct (scan_once _ _) as [v r| |] eqn:Hscan.
  - destruct (skip_ws r); [left; by exists v | by right].
  - by right.
  - apply scan_once_fuelled in Hscan; [done|].
    pose proof (skip_ws_length s). lia.
Qed.

(** ** The strings that [json.loads] makes of decoded text *)

Lemma decoded_text_suffix (r s : list Z) :
  r `suffix_of` s → decoded_text s → decoded_text r.
Proof. intros [k ->] Hs. by apply Forall_app in Hs as [_ ?]. Qed.

Lemma last_value_elem {V} (k : list Z) (v : V) (ps : list (list Z * V)) :
  last_value k ps = Some v → (k, v) ∈ ps.
Proof.
  unfold last_value. induction ps as [|[k' v'] ps IH] using rev_ind; [done|].
  rewrite foldl_app. simpl. destruct (decide (k' = k)) as [->|Hne].
  - intros [= ->]. apply elem_of_app. right. by apply list_elem_of_singleton.
  - intros H. apply elem_of_app. left. by apply IH.
Qed.

(** Every item of [dict(pairs)] is one of the pairs. *)
Lemma dict_of_pairs_elem {V} (k : list Z) (v : V) (ps : list (list Z * V)) :
  (k, v) ∈ dict_of_pairs ps → (k, v) ∈ ps.
Proof.
  intros Hin. apply last_value_elem. rewrite <- dict_of_pairs_get.
  apply dict_get_elem; [apply dict_of_pairs_wf | done].
Qed.

Lemma scan_atom_not_container (s : list Z) (v : value) (rest : list Z) :
  scan_atom s = Scanned v rest →
  match v with VStr _ | VDict _ | VList _ => False | _ => True end.
Proof.
  unfold scan_atom. repeat case_match; intros ?; by simplify_eq.
Qed.

(** A string value read by [scan_once] from decoded text is safe. *)
Lemma scan_once_str_safe (fuel : nat) (s : list Z) (v : value) (rest : list Z) :
  decoded_text s → scan_once fuel s = Scanned v rest → str_value_safe v.
Proof.
  intros Hs. destruct fuel as [|fuel]; [done|]. simpl.
  destruct s as [|c s1]; [done|].
  apply Forall_cons in Hs as [_ Hs1].
  destruct (c =? QUOTE).
  { destruct (scanstring s1) as [[x r]|] eqn:Hx; [|done].
    intros [= <- <-]. by eapply scanstring_safe. }
  destruct (c =? ch "{").
  { unfold JSONObject. repeat case_match; try done.
    - by intros [= <- <-].
    - destruct (object_members _ _ _); [|done..]. by intros [= <- <-]. }
  destruct (c =? ch "[").
  { unfold JSONArray. repeat case_match; try done.
    - by intros [= <- <-].
    - destruct (array_elements _ _ _); [|done..]. by intros [= <- <-]. }
  intros Hatom%scan_atom_not_container. by destruct v.
Qed.

Lemma object_members_safe (sv : list Z → scan value) (n : nat) (s : list Z)
    (kvs : list (list Z * value)) (rest : list Z) :
  scan_progress sv →
  (∀ t v r, decoded_text t → sv t = Scanned v r → str_value_safe v) →
  decoded_text s →
  object_members sv n s = Scanned kvs rest →
  Forall (λ kv, json_safe kv.1 ∧ str_value_safe kv.2) kvs.
Proof.
  intros Hprog Hsv. revert s kvs rest.
  induction n as [|n IH]; intros s kvs rest Hs; [done|].
  rewrite object_members_S.
  destruct (scanstring s) as [[key r1]|] eqn:Hkey; [|done].
  pose proof (scanstring_safe _ _ _ Hs Hkey) as Hsafe.
  apply scanstring_progress in Hkey as [Hr1 _].
  destruct (skip_ws r1) as [|c2 r2] eqn:Hr1'; [done|].
  destruct (c2 =? ch ":"); [|done].
  assert (decoded_text r2) as Hr2.
  { eapply decoded_text_suffix; [|exact Hs].
    etrans; [|exact Hr1]. eapply suffix_cons_l.
    rewrite <- Hr1'. apply skip_ws_suffix. }
  assert (decoded_text (skip_ws r2)) as Hr2'
    by (eapply decoded_text_suffix; [apply skip_ws_suffix | done]).
  destruct (sv (skip_ws r2)) as [v r3| |] eqn:Hv; [|done..].
  pose proof (Hsv _ _ _ Hr2' Hv) as Hvsafe.
  apply Hprog in Hv as [Hr3 _]. simpl.
  assert (decoded_text r3) as Hr3' by by eapply decoded_text_suffix.
  destruct (skip_ws r3) as [|c3 r4] eqn:Hr3''; [done|].
  assert (decoded_text r4) as Hr4.
  { eapply decoded_text_suffix; [|exact Hr3'].
    eapply suffix_cons_l. rewrite <- Hr3''. apply skip_ws_suffix. }
  destruct (c3 =? ch "}");
    [intros [= <- <-]; by apply Forall_singleton|].
  destruct (c3 =? ch ","); [|done].
  destruct (skip_ws r4) as [|q r5] eqn:Hr4'; [done|].
  assert (decoded_text r5) as Hr5.
  { eapply decoded_text_suffix; [|exact Hr4].
    eapply suffix_cons_l. rewrite <- Hr4'. apply skip_ws_suffix. }
  destruct (q =? QUOTE); [|done].
  destruct (object_members sv n r5) as [kvs' r6| |] eqn:Hrec; [|done..].
  simpl. intros [= <- <-]. apply Forall_cons. split; [done|].
  by eapply IH.
Qed.

(** A dict read by [scan_once] is well formed, and on decoded text its
    keys and string values are safe. *)
Lemma scan_once_dict_safe (fuel : nat) (s : list Z)
    (d : list (list Z * value)) (rest : list Z) :
  decoded_text s → scan_once fuel s = Scanned (VDict d) rest →
  dict_wf d ∧ Forall (λ kv, json_safe kv.1 ∧ str_value_safe kv.2) d.
Proof.
  intros Hs. destruct fuel as [|fuel]; [done|]. simpl.
  destruct s as [|c s1]; [done|].
  apply Forall_cons in Hs as [_ Hs1].
  destruct (c =? QUOTE); [by destruct (scanstring s1) as [[??]|]|].
  destruct (c =? ch "{").
  { unfold JSONObject.
    destruct (skip_ws s1) as [|c1 s2] eqn:Hs1'; [done|].
    destruct (c1 =? ch "}").
    { intros [= <- <-]. split; constructor. }
    destruct (c1 =? QUOTE); [|done].
    destruct (object_members _ fuel s2) as [kvs r| |] eqn:Hm; [|done..].
    simpl. intros [= <- <-]. split; [apply dict_of_pairs_wf|].
    apply object_members_safe in Hm.
    - rewrite Forall_forall in Hm. apply Forall_forall.
      intros [k v] Hin%dict_of_pairs_elem. by apply Hm.
    - apply scan_once_progress.
    - intros t v' r'. apply scan_once_str_safe.
    - eapply decoded_text_suffix; [|exact Hs1].
      eapply suffix_cons_l. rewrite <- Hs1'. apply skip_ws_suffix. }
  destruct (c =? ch "[").
  { unfold JSONArray. repeat case_match; try done.
    destruct (array_elements _ _ _); done. }
  by intros Hatom%scan_atom_not_container.
Qed.

Lemma json_loads_safe (content : list Z) (m : list (list Z * list Z)) :
  decoded_text content →
  json_loads content = Ok (translation_of m) →
  dict_wf m ∧ json_safe_map m.
Proof.
  intros Hc. unfold json_loads. destruct (startswith content [BOM]); [done|].
  destruct (scan_once _ _) as [v r| |] eqn:Hscan; [|done..].
  destruct (skip_ws r); [|done]. intros [= ->].
  apply scan_once_dict_safe in Hscan as [Hwf Hsafe].
  - split.
    + unfold dict_wf in *. by rewrite dict_keys_fmap in Hwf.
    + unfold json_safe_map. apply Forall_fmap in Hsafe.
      eapply Forall_impl; [exact Hsafe|]. by intros [k v].
  - eapply decoded_text_suffix; [apply skip_ws_suffix | done].
Qed.

(** ** The mapping loop on a map with string values *)

Lemma dict_set_fmap {V W} (f : V → W) (k : list Z) (v : V)
    (m : list (list Z * V)) :
  dict_set k (f v) (prod_map id f <$> m) = prod_map id f <$> dict_set k v m.
Proof.
  induction m as [|[k' v'] m IH]; [done|].
  rewrite fmap_cons. simpl.
  destruct (decide (k' = k)); rewrite fmap_cons; [done|]. by f_equal.
Qed.

Lemma color_codes_text (c code : list Z) :
  dict_get c color_codes = Some code → code_text code.
Proof.
  intros Hin%dict_get_Some_elem.
  assert (Forall (λ kv, code_text kv.2) color_codes) as Hall
    by (apply (bool_decide_unpack _); vm_compute; exact I).
  rewrite Forall_forall in Hall. exact (Hall _ Hin).
Qed.

Lemma code_text_nil : code_text [].
Proof. split_and!; [constructor | apply not_elem_of_nil..]. Qed.

Lemma code_text_app (p q : list Z) : code_text p → code_text q → code_text (p ++ q).
Proof.
  intros (? & ? & ?) (? & ? & ?). split_and!.
  - by apply Forall_app.
  - rewrite elem_of_app. tauto.
  - rewrite elem_of_app. tauto.
Qed.

Lemma recolored_refl (m : list (list Z * list Z)) : recolored m m.
Proof.
  apply Forall2_same_length_lookup. split; [done|].
  intros i kv kv' H1 H2. simplify_eq. split; [done|].
  exists []. split; [apply code_text_nil | done].
Qed.

Lemma recolored_trans (m1 m2 m3 : list (list Z * list Z)) :
  recolored m1 m2 → recolored m2 m3 → recolored m1 m3.
Proof.
  unfold recolored. intros H12. revert m3.
  induction H12 as [|kv1 kv2 m1 m2 [Hk (p & Hp & Hv)] _ IH]; intros m3 H23.
  - by apply Forall2_nil_inv_l in H23 as ->.
  - apply Forall2_cons_inv_l in H23
      as (kv3 & m3' & [Hk' (q & Hq & Hv')] & H23 & ->).
    constructor; [|by apply IH]. split; [congruence|].
    exists (q ++ p). split; [by apply code_text_app|].
    by rewrite Hv', Hv, app_assoc.
Qed.

Lemma recolored_set (m : list (list Z * list Z)) (k p old : list Z) :
  dict_get k m = Some old → code_text p →
  recolored m (dict_set k (p ++ old) m).
Proof.
  intros Hget Hp. induction m as [|[k' v'] m IH]; [done|]. simpl in *.
  destruct (decide (k' = k)) as [->|Hne].
  - injection Hget as ->. constructor; [|apply recolored_refl].
    split; [done|]. by exists p.
  - constructor; [|by apply IH]. split; [done|].
    exists []. split; [apply code_text_nil | done].
Qed.

Lemma recolored_keys (m m' : list (list Z * list Z)) :
  recolored m m' → dict_keys m' = dict_keys m.
Proof.
  unfold dict_keys. induction 1 as [|kv kv' m m' [Hk _] _ IH]; [done|].
  rewrite !fmap_cons. by f_equal.
Qed.

Lemma recolored_wf (m m' : list (list Z * list Z)) :
  recolored m m' → dict_wf m → dict_wf m'.
Proof. intros H. unfold dict_wf. by rewrite (recolored_keys _ _ H). Qed.

Lemma has_surrogate_pair_app (p v : list Z) :
  decoded_text p → has_surrogate_pair (p ++ v) = has_surrogate_pair v.
Proof.
  induction 1 as [|c p [_ Hc] _ IH]; [done|].
  destruct (p ++ v) as [|c2 t] eqn:Heq; simpl; rewrite Heq.
  - apply app_eq_nil in Heq as [_ ->]. done.
  - rewrite <- IH. simpl.
    assert (is_high_surrogate c = false) as ->; [|done].
    destruct (is_high_surrogate c) eqn:Hh; [|done].
    apply is_high_surrogate_surrogate in Hh. congruence.
Qed.

Lemma json_safe_code (p v : list Z) :
  code_text p → json_safe v → json_safe (p ++ v).
Proof.
  intros (Hp & _) [Hv Hpair]. split.
  - apply Forall_app. split; [|done].
    eapply Forall_impl; [exact Hp|]. by intros c [? _].
  - by rewrite has_surrogate_pair_app.
Qed.

Lemma recolored_json_safe (m m' : list (list Z * list Z)) :
  recolored m m' → json_safe_map m → json_safe_map m'.
Proof.
  unfold json_safe_map.
  induction 1 as [|[k v] [k' v'] m m' [Hk (p & Hp & Hv)] _ IH]; [done|].
  intros [[Hks Hvs] Hm]%Forall_cons. simpl in *. subst.
  constructor; [|by apply IH]. split; [done|]. by apply json_safe_code.
Qed.

Lemma recolored_legacy_chars (m m' : list (list Z * list Z)) :
  recolored m m' → legacy_chars m → legacy_chars m'.
Proof.
  unfold legacy_chars.
  induction 1 as [|[k v] [k' v'] m m' [Hk (p & (_ & Hp10 & Hp13) & Hv)] _ IH];
    [done|].
  intros [(? & ? & ? & ? & ?) Hm]%Forall_cons. simpl in *. subst.
  constructor; [|by apply IH]. simpl.
  split_and!; [done..| |]; rewrite elem_of_app; tauto.
Qed.

(** On a map with string values the loop, when it does not raise, puts
    codes in front of values and changes nothing else. *)
Lemma for_each_color_key_recolored (colors : list (list Z * list Z))
    (ks : list (list Z)) (m : list (list Z * list Z)) (u : gset (list Z))
    (d' : list (list Z * value)) (u' : gset (list Z)) :
  for_each (color_key colors) (prod_map id VStr <$> m, u) ks = Ok (d', u') →
  ∃ m', d' = prod_map id VStr <$> m' ∧ recolored m m'.
Proof.
  revert m u. induction ks as [|k ks IH]; intros m u.
  - simpl. intros [= <- <-]. exists m. split; [done | apply recolored_refl].
  - rewrite for_each_cons.
    destruct (color_key colors (_, u) k) as [[d1 u1]|e] eqn:Hstep; [|done].
    apply color_key_Ok in Hstep
      as [(_ & -> & _) | (c & code & old & _ & Hcode & Hget & -> & _)].
    + apply IH.
    + rewrite dict_get_fmap in Hget.
      destruct (dict_get k m) as [old'|] eqn:Hget'; [|done].
      injection Hget as <-. rewrite (dict_set_fmap VStr).
      intros (m' & -> & Hrec)%IH. exists m'. split; [done|].
      eapply recolored_trans; [|exact Hrec].
      apply recolored_set; [done|]. by eapply color_codes_text.
Qed.

(** ** What legacy decoding makes *)

Lemma fmap_VStr_inj (m1 m2 : list (list Z * list Z)) :
  prod_map id VStr <$> m1 = prod_map id VStr <$> m2 → m1 = m2.
Proof.
  revert m2. induction m1 as [|[k v] m1 IH]; intros [|[k' v'] m2]; try done.
  rewrite !fmap_cons. intros [= -> -> H]. f_equal. by apply IH.
Qed.

Lemma translation_of_inj (m1 m2 : list (list Z * list Z)) :
  translation_of m1 = translation_of m2 → m1 = m2.
Proof. unfold translation_of. intros [= H]. by apply fmap_VStr_inj. Qed.

Lemma dict_of_pairs_fmap {V W} (f : V → W) (ps : list (list Z * V)) :
  dict_of_pairs (prod_map id f <$> ps) = prod_map id f <$> dict_of_pairs ps.
Proof.
  unfold dict_of_pairs.
  change (@nil (list Z * W)) with (prod_map id f <$> @nil (list Z * V)).
  generalize (@nil (list Z * V)) as d.
  induction ps as [|[k v] ps IH]; intros d; [done|].
  rewrite fmap_cons. simpl. rewrite (dict_set_fmap f). apply IH.
Qed.

Lemma split_pieces (sep : Z) (s l : list Z) :
  l ∈ split sep s → (sep ∉ l) ∧ ∀ c, c ∈ l → c ∈ s.
Proof.
  revert l. induction s as [|c s IH]; intros l; simpl.
  - intros ->%list_elem_of_singleton. split; [apply not_elem_of_nil|done].
  - destruct (Z.eqb_spec c sep) as [->|Hne].
    + intros [->|Hin]%elem_of_cons.
      * split; [apply not_elem_of_nil|]. by intros ? ?%elem_of_nil.
      * destruct (IH _ Hin) as [? Hsub]. split; [done|].
        intros c' ?. right. by apply Hsub.
    + destruct (split sep s) as [|l0 ls] eqn:Hsplit.
      * intros ->%list_elem_of_singleton. split.
        -- by intros ->%list_elem_of_singleton.
        -- intros c' ->%list_elem_of_singleton. left.
      * intros [->|Hin]%elem_of_cons.
        -- destruct (IH l0) as [? Hsub]; [left|]. split.
           ++ rewrite elem_of_cons. intros [?|?]; [congruence|done].
           ++ intros c' [->|?]%elem_of_cons; [left | right; by apply Hsub].
        -- destruct (IH l) as [? Hsub]; [by right|]. split; [done|].
           intros c' ?. right. by apply Hsub.
Qed.

Lemma partition_parts (sep : Z) (s h m t : list Z) :
  partition sep s = (h, m, t) →
  (sep ∉ h) ∧ ∀ c, c ∈ h ∨ c ∈ t → c ∈ s.
Proof.
  revert h m t. induction s as [|c s IH]; intros h m t; simpl.
  - intros [= <- <- <-]. split; [apply not_elem_of_nil|].
    intros c [?%elem_of_nil|?%elem_of_nil]; done.
  - destruct (Z.eqb_spec c sep) as [->|Hne].
    + intros [= <- <- <-]. split; [apply not_elem_of_nil|].
      intros c [?%elem_of_nil|?]; [done | by right].
    + destruct (partition sep s) as [[h' m'] t'] eqn:Hpart.
      intros [= <- <- <-]. destruct (IH _ _ _ eq_refl) as [Hh Hsub]. split.
      * rewrite elem_of_cons. intros [?|?]; [congruence|done].
      * intros c' [[->|?]%elem_of_cons|?]; [left | right; apply Hsub; tauto..].
Qed.

Lemma legacy_lines_chars (contents line : list Z) :
  line ∈ legacy_lines contents → (10 ∉ line) ∧ (13 ∉ line).
Proof.
  unfold legacy_lines. intros [_ Hin]%list_elem_of_filter.
  apply split_pieces in Hin as [Hlf Hsub]. split; [done|].
  intros Hcr%Hsub. unfold remove_char in Hcr.
  by apply list_elem_of_filter in Hcr as [? _].
Qed.

Lemma key_value_chars (line k v : list Z) :
  key_value line = (k, v) →
  (ch "=" ∉ k) ∧ ∀ c, c ∈ k ∨ c ∈ v → c ∈ line.
Proof.
  unfold key_value. destruct (partition (ch "=") line) as [[h m] t] eqn:Hpart.
  simpl. intros [= <- <-]. by eapply partition_parts.
Qed.

(** A map decoded from the legacy format has no [=] in a key and no
    line feed or carriage return anywhere. *)
Lemma load_language_legacy_map (contents : list Z) (pf : Z)
    (m : list (list Z * list Z)) :
  pf < 4 → load_language contents pf = Ok (translation_of m) →
  dict_wf m ∧ legacy_chars m.
Proof.
  intros Hpf. rewrite load_language_legacy by done.
  rewrite dict_of_pairs_fmap.
  intros [= <-%fmap_VStr_inj]. split; [apply dict_of_pairs_wf|].
  apply Forall_forall. intros [k v] Hin%dict_of_pairs_elem.
  apply list_elem_of_fmap in Hin as (line & Hkv & Hline).
  apply legacy_lines_chars in Hline as [Hlf Hcr].
  symmetry in Hkv. apply key_value_chars in Hkv as [Hsep Hsub]. simpl.
  split_and!; [done|..]; intros Hin; [apply Hlf|apply Hcr|apply Hlf|apply Hcr];
    apply Hsub; tauto.
Qed.

Lemma rstrip_elem (s : list Z) (c : Z) : c ∈ rstrip s → c ∈ s.
Proof.
  induction s as [|x s IH]; simpl; [done|].
  destruct (rstrip s) as [|y r] eqn:Hr.
  - destruct (is_space x); [by intros ?%elem_of_nil|].
    intros ->%list_elem_of_singleton. left.
  - intros [->|Hin]%elem_of_cons; [left | right; by apply IH].
Qed.

Lemma rstrip_line (k v : list Z) :
  rstrip (k ++ ch "=" :: v) = k ++ ch "=" :: rstrip v.
Proof.
  assert (rstrip (ch "=" :: v) = ch "=" :: rstrip v) as Heq
    by (simpl; by destruct (rstrip v)).
  rewrite rstrip_app_nonempty; by rewrite Heq.
Qed.

(** What the decoder's line splitting makes of a text written line by
    line from [key=value] lines: the same lines, the last one with the
    white space at its end stripped. *)
Lemma legacy_lines_text_strip (lines : list (list Z)) (k v : list Z) :
  Forall (λ l, l ≠ [] ∧ (10 ∉ l) ∧ (13 ∉ l)) lines →
  (10 ∉ k) → (13 ∉ k) → (10 ∉ v) → (13 ∉ v) →
  legacy_lines (lines_text (lines ++ [k ++ ch "=" :: v]))
  = lines ++ [k ++ ch "=" :: rstrip v].
Proof.
  intros Hlines Hk10 Hk13 Hv10 Hv13. unfold legacy_lines.
  rewrite lines_text_snoc.
  replace (lines_text lines ++ (k ++ ch "=" :: v) ++ [10])
     with ((lines_text lines ++ k ++ ch "=" :: v) ++ [10])
    by by rewrite <- !app_assoc.
  rewrite rstrip_snoc_space by done.
  rewrite rstrip_app_nonempty; rewrite rstrip_line; [|by destruct k].
  assert (∀ c, c ≠ ch "=" → c ∉ k → c ∉ v → c ∉ k ++ ch "=" :: rstrip v)
    as Hline.
  { intros c ? ? ?. rewrite elem_of_app, elem_of_cons.
    intros [?|[?|?%rstrip_elem]]; done. }
  rewrite remove_char_absent.
  - rewrite split_lines_text.
    + apply filter_all, Forall_app. split.
      * eapply Forall_impl; [exact Hlines|]. naive_solver.
      * apply Forall_singleton. by destruct k.
    + eapply Forall_impl; [exact Hlines|]. naive_solver.
    + by apply Hline.
  - rewrite elem_of_app. intros [Hin|Hin].
    + revert Hin. apply lines_text_absent; [done|].
      eapply Forall_impl; [exact Hlines|]. naive_solver.
    + revert Hin. by apply Hline.
Qed.

Lemma legacy_chars_key (m : list (list Z * list Z)) (k : list Z) :
  legacy_chars m → k ∈ dict_keys m →
  (ch "=" ∉ k) ∧ (10 ∉ k) ∧ (13 ∉ k)
  ∧ (10 ∉ default [] (dict_get k m)) ∧ (13 ∉ default [] (dict_get k m)).
Proof.
  intros Hall [v Hget]%dict_get_is_Some. rewrite Hget. simpl.
  unfold legacy_chars in Hall. rewrite Forall_forall in Hall.
  apply dict_get_Some_elem in Hget. exact (Hall _ Hget).
Qed.

(** Decoding what the legacy encoder writes for a decoded map gives a
    dict with the keys of the map, in sorted order. *)
Lemma legacy_reload_keys (m : list (list Z * list Z)) (f : Z) :
  f < 4 → dict_wf m → legacy_chars m →
  ∃ text d,
    dump_language (translation_of m) f = Ok text
    ∧ load_language text f = Ok (VDict d)
    ∧ dict_keys d = sorted (dict_keys m).
Proof.
  intros Hf Hwf Hchars.
  exists (lines_text (legacy_line m <$> sorted (dict_keys m))). eexists.
  split_and!.
  - unfold dump_language, translation_of.
    destruct (Z.leb_spec 4 f); [lia|].
    rewrite dict_keys_fmap. apply legacy_text_lines.
    intros k. apply elem_of_sorted.
  - by apply load_language_legacy.
  - assert (Hkeys : ∀ k, k ∈ sorted (dict_keys m) → k ∈ dict_keys m)
      by (intros k; apply elem_of_sorted).
    assert (Hnd : NoDup (sorted (dict_keys m)))
      by (by rewrite sorted_Permutation).
    destruct (sorted (dict_keys m)) as [|kn ks _] using rev_ind; [done|].
    rewrite fmap_app. simpl.
    destruct (legacy_chars_key m kn Hchars) as (Hsep & ? & ? & ? & ?).
    { apply Hkeys, elem_of_app. right. by apply list_elem_of_singleton. }
    unfold legacy_line at 2. rewrite legacy_lines_text_strip; [|..|done|done|done|done].
    + rewrite !fmap_app. simpl. rewrite key_value_first by done. simpl.
      assert (key_value <$> (legacy_line m <$> ks)
              = (λ k, (k, default [] (dict_get k m))) <$> ks) as ->.
      { rewrite <- list_fmap_compose. apply list_fmap_ext.
        intros _ k Hk%list_elem_of_lookup_2. simpl. unfold legacy_line.
        apply key_value_first.
        apply (legacy_chars_key m k Hchars), Hkeys, elem_of_app. by left. }
      rewrite dict_of_pairs_NoDup.
      * unfold dict_keys. rewrite fmap_app, <- !list_fmap_compose. simpl.
        f_equal. rewrite <- (list_fmap_id ks) at 2. by apply list_fmap_ext.
      * rewrite fmap_app, <- !list_fmap_compose. simpl.
        rewrite (list_fmap_ext _ id ks) by done. by rewrite list_fmap_id.
    + apply Forall_fmap, Forall_forall. intros k Hk.
      destruct (legacy_chars_key m k Hchars) as (_ & ? & ? & ? & ?).
      { apply Hkeys, elem_of_app. by left. }
      unfold legacy_line. simpl. split_and!.
      * by destruct k.
      * rewrite elem_of_app, elem_of_cons. intros [?|[?|?]]; done.
      * rewrite elem_of_app, elem_of_cons. intros [?|[?|?]]; done.
Qed.

(** ** Integers: [int.__repr__] and the number scanner *)

Lemma uint_digits_acc (u : Decimal.uint) (acc : positive) :
  digits_value (Zpos acc) (uint_digits u) = Zpos (Pos.of_uint_acc u acc).
Proof.
  unfold digits_value. revert acc.
  induction u as [|u IH|u IH|u IH|u IH|u IH|u IH|u IH|u IH|u IH|u IH];
    intros acc; simpl; [done|rewrite <- IH; f_equal; lia..].
Qed.

Lemma uint_digits_value (u : Decimal.uint) :
  digits_value 0 (uint_digits u) = Z.of_N (Pos.of_uint u).
Proof.
  induction u as [|u IH|u IH|u IH|u IH|u IH|u IH|u IH|u IH|u IH|u IH];
    [done|exact IH|apply uint_digits_acc..].
Qed.

Lemma uint_digits_digits (u : Decimal.uint) :
  Forall (λ c, is_digit c = true) (uint_digits u).
Proof. induction u; simpl; constructor; done. Qed.

Lemma unorm_D0 (u u' : Decimal.uint) :
  Decimal.unorm u = Decimal.D0 u' → u' = Decimal.Nil.
Proof. induction u; simpl; try done. by intros [= <-]. Qed.

(** The decimal digits of a positive number: at least one, the first
    not zero, and their value is the number. *)
Lemma pos_digits (p : positive) :
  ∃ d ds, uint_digits (Pos.to_uint p) = d :: ds
          ∧ is_digit d = true ∧ d ≠ 48
          ∧ Forall (λ c, is_digit c = true) ds
          ∧ digits_value 0 (d :: ds) = Zpos p.
Proof.
  pose proof (uint_digits_value (Pos.to_uint p)) as Hval.
  rewrite Unsigned.of_to in Hval.
  pose proof (uint_digits_digits (Pos.to_uint p)) as Hdig.
  pose proof (Unsigned.to_of (Pos.to_uint p)) as Hnorm.
  rewrite Unsigned.of_to in Hnorm. simpl in Hnorm.
  pose proof (Unsigned.to_uint_nonzero p) as Hnz.
  destruct (Pos.to_uint p) as [|u|u|u|u|u|u|u|u|u|u] eqn:Hu;
    simpl in *; try done.
  2-10: apply Forall_cons in Hdig as [? ?]; eexists _, _;
    split_and!; done.
  exfalso. apply Hnz. f_equal. symmetry in Hnorm.
  by apply unorm_D0 in Hnorm.
Qed.

Lemma span_digits_run (ds rest : list Z) :
  Forall (λ c, is_digit c = true) ds →
  match rest with [] => True | c :: _ => is_digit c = false end →
  span_digits (ds ++ rest) = (ds, rest).
Proof.
  intros Hds Hrest. induction Hds as [|d ds Hd _ IH]; simpl.
  - destruct rest as [|c rest]; [done|]. simpl. by rewrite Hrest.
  - by rewrite Hd, IH.
Qed.

Lemma number_end_inv (c : Z) (rest : list Z) :
  number_end (c :: rest) = true →
  is_digit c = false ∧ (c =? ch ".") = false
  ∧ (c =? ch "e") = false ∧ (c =? ch "E") = false.
Proof.
  simpl. intros H%negb_true_iff.
  apply orb_false_iff in H as [H ?].
  apply orb_false_iff in H as [H ?].
  by apply orb_false_iff in H as [? ?].
Qed.

(** After the integer part, a text that ends the number gives no
    fraction and no exponent. *)
Lemma match_number_digits (sign : list Z) (d : Z) (ds rest : list Z) :
  (sign = [] ∨ sign = [ch "-"]) →
  is_digit d = true →
  (d = 48 → ds = []) →
  Forall (λ c, is_digit c = true) ds →
  number_end rest = true →
  match_number (sign ++ d :: ds ++ rest) = Some (sign ++ d :: ds, [], [], rest).
Proof.
  intros Hsign Hd Hzero Hds Hend. unfold match_number.
  assert (match sign ++ d :: ds ++ rest with
          | c :: s' => if c =? ch "-" then ([c], s')
                       else ([], sign ++ d :: ds ++ rest)
          | [] => ([], sign ++ d :: ds ++ rest)
          end = (sign, d :: ds ++ rest)) as ->.
  { destruct Hsign as [-> | ->]; simpl; [|done].
    destruct (Z.eqb_spec d (ch "-")) as [->|]; done. }
  rewrite Hd.
  assert ((if d =? 48 then ([d], ds ++ rest)
           else let '(ds0, r) := span_digits (ds ++ rest) in (d :: ds0, r))
          = (d :: ds, rest)) as ->.
  { destruct (Z.eqb_spec d 48) as [H48|_].
    - by rewrite (Hzero H48).
    - rewrite span_digits_run; [done..|].
      destruct rest as [|c rest]; [done|].
      by apply number_end_inv in Hend as [? _]. }
  destruct rest as [|c rest]; [done|].
  apply number_end_inv in Hend as (_ & -> & -> & ->). done.
Qed.

Lemma startswith_head (c : Z) (t : list Z) (p : Z) (ps : list Z) :
  c ≠ p → startswith (c :: t) (p :: ps) = false.
Proof. intros Hne. simpl. by destruct (Z.eqb_spec c p). Qed.

Lemma is_digit_range (c : Z) : is_digit c = true → 48 <= c <= 57.
Proof.
  unfold is_digit. intros [?%Z.leb_le ?%Z.leb_le]%andb_true_iff. lia.
Qed.

(** [scan_atom] on a text that starts like an integer. *)
Lemma scan_atom_number (sign : list Z) (d : Z) (ds rest : list Z) :
  (sign = [] ∨ sign = [ch "-"]) →
  is_digit d = true → (d = 48 → ds = []) →
  Forall (λ c, is_digit c = true) ds →
  number_end rest = true →
  scan_atom (sign ++ d :: ds ++ rest)
  = Scanned (VInt (parse_int (sign ++ d :: ds))) rest.
Proof.
  intros Hsign Hd Hzero Hds Hend. unfold scan_atom.
  apply is_digit_range in Hd as Hrange.
  assert (∃ c t, sign ++ d :: ds ++ rest = c :: t ∧ (c = ch "-" ∨ 48 <= c <= 57))
    as (c & t & Heq & Hc).
  { destruct Hsign as [-> | ->]; simpl; eauto. }
  rewrite Heq.
  change (lit "null") with (ch "n" :: lit "ull").
  change (lit "true") with (ch "t" :: lit "rue").
  change (lit "false") with (ch "f" :: lit "alse").
  rewrite !startswith_head
    by (destruct Hc as [->|Hc]; [done | intros ->; unfold ch in Hc; cbn in Hc; lia]).
  rewrite <- Heq. by rewrite match_number_digits.
Qed.

Lemma parse_int_digits (d : Z) (ds : list Z) :
  is_digit d = true →
  parse_int (d :: ds) = digits_value 0 (d :: ds)
  ∧ parse_int (ch "-" :: d :: ds) = - digits_value 0 (d :: ds).
Proof.
  intros Hd%is_digit_range. unfold parse_int. split; [|done].
  destruct (Z.eqb_spec d (ch "-")) as [->|]; [|done].
  unfold ch in Hd. cbn in Hd. lia.
Qed.

(** The scanner reads back an integer as [int.__repr__] prints it. *)
Lemma scan_atom_int (n : Z) (rest : list Z) :
  number_end rest = true →
  scan_atom (int_repr n ++ rest) = Scanned (VInt n) rest.
Proof.
  intros Hend. destruct n as [|p|p]; unfold int_repr.
  - by apply (scan_atom_number [] 48 [] rest); [left|..].
  - destruct (pos_digits p) as (d & ds & -> & Hd & Hnz & Hds & Hval).
    pose proof (scan_atom_number [] d ds rest) as H.
    destruct (parse_int_digits d ds Hd) as [Hp _].
    change ([] ++ d :: ds) with (d :: ds) in H. rewrite Hp, Hval in H.
    apply H; [by left|done..].
  - destruct (pos_digits p) as (d & ds & -> & Hd & Hnz & Hds & Hval).
    pose proof (scan_atom_number [ch "-"] d ds rest) as H.
    destruct (parse_int_digits d ds Hd) as [_ Hp].
    change ([ch "-"] ++ d :: ds) with (ch "-" :: d :: ds) in H.
    rewrite Hp, Hval in H. apply H; [by right|done..].
Qed.

(** ** Values: induction and what [dumpable] says *)

Lemma value_ind_nested (P : value → Prop) :
  P VNone → (∀ b, P (VBool b)) → (∀ n, P (VInt n)) → (∀ x, P (VFloat x)) →
  (∀ s, P (VStr s)) →
  (∀ vs, Forall P vs → P (VList vs)) →
  (∀ d, Forall (λ kv, P kv.2) d → P (VDict d)) →
  ∀ v, P v.
Proof.
  intros HNone HBool HInt HFloat HStr HList HDict.
  fix IH 1. intros [| b | n | x | s | vs | d]; [done..| |].
  - apply HList. induction vs as [|v vs IHvs]; constructor; [apply IH | done].
  - apply HDict. induction d as [|[k v] d IHd]; constructor; [apply IH | done].
Qed.

Lemma dumpable_list (vs : list value) :
  dumpable (VList vs) ↔ Forall dumpable vs.
Proof.
  simpl. induction vs as [|v vs IH]; [by split; [constructor|]|].
  rewrite Forall_cons, <- IH. done.
Qed.

Lemma dumpable_dict (d : list (list Z * value)) :
  dumpable (VDict d)
  ↔ dict_wf d ∧ Forall (λ kv, json_safe kv.1 ∧ dumpable kv.2) d.
Proof.
  simpl. apply and_iff_compat_l.
  induction d as [|[k v] d IH]; [by split; [constructor|]|].
  rewrite Forall_cons, <- IH. done.
Qed.

Lemma dumpable_translation (m : list (list Z * list Z)) :
  dict_wf m → json_safe_map m → dumpable (translation_of m).
Proof.
  intros Hwf Hsafe. apply dumpable_dict. split.
  - unfold dict_wf. by rewrite dict_keys_fmap.
  - apply Forall_fmap. eapply Forall_impl; [exact Hsafe|]. by intros [k v].
Qed.

(** ** [collect] *)

Lemma collect_Ok {A B} (body : A → result B) (xs : list A) (ys : list B) :
  collect body xs = Ok ys → Forall2 (λ x y, body x = Ok y) xs ys.
Proof.
  revert ys. induction xs as [|x xs IH]; intros ys; simpl.
  - intros [= <-]. constructor.
  - destruct (body x) as [y|e] eqn:Hx; [|done]. simpl.
    destruct (collect body xs) as [ys'|e] eqn:Hxs; [|done]. simpl.
    intros [= <-]. constructor; [done | by apply IH].
Qed.

(** ** White space between the items *)

Lemma skip_ws_spaces (k : nat) (t : list Z) :
  skip_ws (spaces k ++ t) = skip_ws t.
Proof. induction k as [|k IH]; [done | exact IH]. Qed.

Lemma skip_ws_newline_indent (n level : nat) (t : list Z) :
  skip_ws (newline_indent n level ++ t) = skip_ws t.
Proof. unfold newline_indent. simpl. apply skip_ws_spaces. Qed.

Lemma skip_ws_head (c : Z) (t : list Z) :
  is_json_ws c = false → skip_ws (c :: t) = c :: t.
Proof. intros Hc. simpl. by rewrite Hc. Qed.

Lemma bracket_list_tail (n level : nat) (t : list Z) (items : list (list Z)) :
  bracket_body (Some n) level (t :: items) ++ lit "]"
  = newline_indent n (S level) ++ list_tail n level (t :: items).
Proof.
  unfold bracket_body. rewrite <- !app_assoc. f_equal.
  revert t. induction items as [|t' items IH]; intros t; [done|].
  change (join (ch "," :: newline_indent n (S level)) (t :: t' :: items))
    with (t ++ (ch "," :: newline_indent n (S level))
          ++ join (ch "," :: newline_indent n (S level)) (t' :: items)).
  rewrite <- !app_assoc, IH. done.
Qed.

Lemma bracket_dict_tail (n level : nat) (kt : list Z * list Z)
    (members : list (list Z * list Z)) :
  bracket_body (Some n) level
    ((λ kt, encode_basestring_ascii kt.1 ++ lit ": " ++ kt.2) <$> kt :: members)
  ++ lit "}"
  = newline_indent n (S level) ++ QUOTE :: dict_tail n level (kt :: members).
Proof.
  unfold bracket_body. rewrite <- !app_assoc. f_equal.
  set (f := λ kt : list Z * list Z,
              encode_basestring_ascii kt.1 ++ lit ": " ++ kt.2).
  revert kt. induction members as [|kt' members IH]; intros [k t].
  - simpl. unfold encode_basestring_ascii. simpl.
    repeat (rewrite <- app_assoc; simpl). done.
  - rewrite (fmap_cons f (k, t)), (fmap_cons f kt').
    change (join ?sep (?x :: ?y :: ?l)) with (x ++ sep ++ join sep (y :: l)).
    rewrite <- (fmap_cons f kt'), <- !app_assoc, IH.
    unfold f, encode_basestring_ascii. simpl.
    repeat (rewrite <- app_assoc; simpl). done.
Qed.

(** ** The scanner on the items that the encoder writes *)

Lemma digit_starts_value (d : Z) (t : list Z) :
  is_digit d = true → starts_value (d :: t).
Proof.
  intros Hd%is_digit_range. exists d, t. split; [done|].
  unfold is_json_ws, ch. cbn.
  destruct (Z.eqb_spec d 32), (Z.eqb_spec d 9), (Z.eqb_spec d 10),
    (Z.eqb_spec d 13); split; try lia; done.
Qed.

Lemma iterencode_starts_value (indent : option nat) (level : nat) (v : value)
    (text : list Z) :
  iterencode indent level v = Ok text → starts_value text.
Proof.
  destruct v as [| [|] | n | x | s | [|v vs] | [|kv d]]; simpl;
    try (intros [= <-]; by eexists _, _); try done.
  - intros [= <-]. destruct n as [|p|p]; simpl.
    + by eexists _, _.
    + destruct (pos_digits p) as (d & ds & -> & Hd & _).
      by apply digit_starts_value.
    + by eexists _, _.
  - destruct (iterencode indent (S level) v); [|done]. simpl.
    destruct (collect _ vs); [|done]. simpl.
    intros [= <-]. by eexists _, _.
  - destruct kv as [k v]. destruct (iterencode indent (S level) v); [|done].
    simpl. destruct (collect _ d); [|done]. simpl.
    intros [= <-]. by eexists _, _.
Qed.

Lemma skip_ws_starts_value (t rest : list Z) :
  starts_value t → skip_ws (t ++ rest) = t ++ rest.
Proof. intros (c & t' & -> & Hc & _). simpl. by rewrite Hc. Qed.

Lemma number_end_comma (t : list Z) : number_end (ch "," :: t) = true.
Proof. done. Qed.

Lemma number_end_newline (n level : nat) (t : list Z) :
  number_end (newline_indent n level ++ t) = true.
Proof. done. Qed.

Lemma array_elements_S (sv : list Z → scan value) (n : nat) (s : list Z) :
  array_elements sv (S n) s
  = scan_bind (sv s)
      (λ v r1,
         match skip_ws r1 with
         | c2 :: r2 =>
             if c2 =? ch "]" then Scanned [v] r2
             else if c2 =? ch "," then
               scan_bind (array_elements sv n (skip_ws r2))
                 (λ vs r3, Scanned (v :: vs) r3)
             else Invalid
         | [] => Invalid
         end).
Proof. done. Qed.

Section items.
Variable sv : list Z → scan value.
Variables (bound n level : nat).

Lemma array_elements_tail (texts : list (list Z)) (vs : list value)
    (rest : list Z) (k : nat) :
  Forall2 (λ t v, starts_value t ∧ reads sv bound t v) texts vs →
  texts ≠ [] →
  (length (list_tail n level texts ++ rest) < bound)%nat →
  (length texts ≤ k)%nat →
  array_elements sv k (list_tail n level texts ++ rest) = Scanned vs rest.
Proof.
  intros Hall. revert k.
  induction Hall as [|t v texts vs [Hstart Hread] Hall IH]; [done|].
  intros [|k] _ Hlen Hk; [simpl in Hk; lia|]. simpl in Hk.
  change (list_tail n level (t :: texts))
    with (t ++ match texts with
               | [] => newline_indent n level ++ [ch "]"]
               | _ :: _ => ch "," :: newline_indent n (S level)
                           ++ list_tail n level texts
               end) in *.
  rewrite <- app_assoc in *. rewrite array_elements_S.
  rewrite Hread; [|by destruct texts|done].
  unfold scan_bind at 1.
  rewrite length_app in Hlen.
  destruct texts as [|t' texts].
  - rewrite <- app_assoc, skip_ws_newline_indent. by apply Forall2_nil_inv_l in Hall as ->.
  - rewrite <- app_comm_cons, <- app_assoc.
    rewrite (skip_ws_head (ch ",")) by done.
    change (ch "," =? ch "]") with false. change (ch "," =? ch ",") with true.
    cbv iota. rewrite skip_ws_newline_indent.
    apply Forall2_cons_inv_l in Hall as Hall'.
    destruct Hall' as (v' & vs' & [Hstart' _] & _ & ->).
    assert (starts_value (list_tail n level (t' :: texts))) as Hst.
    { destruct Hstart' as (c & t'' & -> & ? & ?). by eexists _, _. }
    rewrite skip_ws_starts_value by done.
    rewrite IH; [done|done| |lia].
    revert Hlen.
    rewrite <- app_comm_cons, <- app_assoc, length_cons,
      (length_app (newline_indent _ _)). lia.
Qed.

Lemma object_members_dict_tail (members : list (list Z * list Z))
    (kvs : list (list Z * value)) (rest : list Z) (k : nat) :
  Forall2 (λ kt kv, kv.1 = kt.1 ∧ json_safe kt.1
                    ∧ starts_value kt.2 ∧ reads sv bound kt.2 kv.2)
          members kvs →
  members ≠ [] →
  (length (dict_tail n level members ++ rest) < bound)%nat →
  (length members ≤ k)%nat →
  object_members sv k (dict_tail n level members ++ rest) = Scanned kvs rest.
Proof.
  intros Hall. revert k.
  induction Hall as [|[key t] [key' v] members kvs (Hkey & Hsafe & Hstart & Hread) Hall IH];
    [done|].
  simpl in Hkey, Hsafe, Hstart, Hread. subst key'.
  intros [|k] _ Hlen Hk; [simpl in Hk; lia|]. simpl in Hk.
  rewrite object_members_S.
  change (dict_tail n level ((key, t) :: members))
    with (escape_body key ++ QUOTE :: lit ": " ++ t
          ++ match members with
             | [] => newline_indent n level ++ [ch "}"]
             | _ :: _ => ch "," :: newline_indent n (S level)
                         ++ QUOTE :: dict_tail n level members
             end) in *.
  rewrite <- app_assoc in *.
  change ((QUOTE :: lit ": " ++ ?x) ++ rest) with (QUOTE :: lit ": " ++ x ++ rest)
    in *.
  rewrite scanstring_escape_body by done.
  rewrite <- !app_assoc in *.
  change (skip_ws (lit ": " ++ ?x)) with (ch ":" :: 32 :: x).
  cbv beta iota. rewrite Z.eqb_refl.
  set (tail := match members with [] => _ | _ :: _ => _ end ++ rest) in *.
  assert (skip_ws (32 :: t ++ tail) = t ++ tail) as ->.
  { change (skip_ws (32 :: t ++ tail)) with (skip_ws (t ++ tail)).
    by rewrite skip_ws_starts_value. }
  assert (length (t ++ tail) < bound)%nat as Hlen'.
  { rewrite !length_app in Hlen. simpl in Hlen. rewrite !length_app in Hlen.
    rewrite length_app. lia. }
  rewrite Hread; [|subst tail; by destruct members|done].
  unfold scan_bind at 1. subst tail.
  destruct members as [|kt' members].
  - rewrite <- app_assoc, skip_ws_newline_indent.
    by apply Forall2_nil_inv_l in Hall as ->.
  - rewrite <- app_comm_cons, <- app_assoc.
    rewrite (skip_ws_head (ch ",")) by done.
    change (ch "," =? ch "}") with false. change (ch "," =? ch ",") with true.
    cbv iota. rewrite skip_ws_newline_indent.
    rewrite <- app_comm_cons, (skip_ws_head QUOTE) by done.
    rewrite Z.eqb_refl.
    rewrite IH; [done|done| |lia].
    revert Hlen'.
    rewrite length_app, <- app_comm_cons, <- app_assoc, length_cons,
      (length_app (newline_indent _ _)), <- app_comm_cons, length_cons. lia.
Qed.
End items.

(** ** [json.loads] reads back what [json.dumps] writes *)

Lemma list_tail_length (n level : nat) (items : list (list Z)) :
  (length items ≤ length (list_tail n level items))%nat.
Proof.
  induction items as [|t [|t' items] IH]; [done| |].
  - cbn [list_tail]. rewrite !length_app. cbn [length]. lia.
  - change (list_tail n level (t :: t' :: items))
      with (t ++ ch "," :: newline_indent n (S level)
              ++ list_tail n level (t' :: items)).
    rewrite length_app. cbn [length] in *. rewrite length_app. lia.
Qed.

Lemma dict_tail_length (n level : nat) (members : list (list Z * list Z)) :
  (length members ≤ length (dict_tail n level members))%nat.
Proof.
  induction members as [|[k t] [|kt' members] IH]; [done| |].
  - cbn [dict_tail]. rewrite length_app. cbn [length]. lia.
  - change (dict_tail n level ((k, t) :: kt' :: members))
      with (escape_body k ++ QUOTE :: lit ": " ++ t
              ++ ch "," :: newline_indent n (S level)
              ++ QUOTE :: dict_tail n level (kt' :: members)).
    rewrite length_app. cbn [length] in *.
    rewrite (length_app (lit ": ")), (length_app t). cbn [length].
    rewrite (length_app (newline_indent _ _)). cbn [length]. lia.
Qed.

Lemma Ok_inj {A : Type} (a b : A) : Ok a = Ok b → a = b.
Proof. congruence. Qed.

Lemma scan_once_atom (fuel : nat) (c : Z) (t : list Z) :
  c ≠ QUOTE → c ≠ ch "{" → c ≠ ch "[" →
  scan_once (S fuel) (c :: t) = scan_atom (c :: t).
Proof.
  intros Hq Hb Hl. simpl.
  destruct (Z.eqb_spec c QUOTE); [done|].
  destruct (Z.eqb_spec c (ch "{")); [done|].
  destruct (Z.eqb_spec c (ch "[")); done.
Qed.

Lemma int_repr_head (n : Z) :
  ∃ c t, int_repr n = c :: t ∧ (c = ch "-" ∨ 48 <= c <= 57).
Proof.
  destruct n as [|p|p]; simpl.
  - exists 48, []. split; [done|]. right. lia.
  - destruct (pos_digits p) as (d & ds & -> & Hd%is_digit_range & _).
    exists d, ds. by split; [|right].
  - eexists _, _. split; [done|]. by left.
Qed.

Lemma scan_once_int (fuel : nat) (n : Z) (rest : list Z) :
  number_end rest = true →
  scan_once (S fuel) (int_repr n ++ rest) = Scanned (VInt n) rest.
Proof.
  intros Hend. rewrite <- (scan_atom_int n rest Hend).
  destruct (int_repr_head n) as (c & t & -> & Hc).
  rewrite <- app_comm_cons.
  apply scan_once_atom; destruct Hc as [->|?]; vm_compute; (done || lia).
Qed.

Lemma reads_fuel_pos (fuel : nat) (t rest : list Z) :
  (length (t ++ rest) < fuel)%nat → ∃ fuel', fuel = S fuel'.
Proof. destruct fuel; [lia | by eexists]. Qed.

Lemma scan_once_iterencode (n : nat) (v : value) :
  ∀ level text fuel,
    dumpable v → iterencode (Some n) level v = Ok text →
    reads (scan_once fuel) fuel text v.
Proof.
  induction v as [| b | i | x | s | vs IH | d IH] using value_ind_nested;
    intros level text fuel Hv Henc rest Hend Hlen;
    destruct (reads_fuel_pos _ _ _ Hlen) as [fuel' ->].
  - injection Henc as <-. done.
  - destruct b; injection Henc as <-; done.
  - injection Henc as <-. by apply scan_once_int.
  - done.
  - injection Henc as <-. by apply scan_once_string.
  - destruct vs as [|v vs]; [injection Henc as <-; done|].
    apply dumpable_list in Hv.
    change (iterencode (Some n) level (VList (v :: vs)))
      with (items ← collect (iterencode (Some n) (S level)) (v :: vs);
            Ok (ch "[" :: bracket_body (Some n) level items ++ lit "]"))
      in Henc.
    destruct (collect _ (v :: vs)) as [items|e] eqn:Hitems; [|done].
    apply collect_Ok in Hitems.
    assert (Forall2 (λ t v, starts_value t ∧ reads (scan_once fuel') fuel' t v)
                    items (v :: vs)) as Hreads.
    { clear Hlen Henc. induction Hitems as [|v0 t0 vs0 items0 Ht0 _ IHitems];
        [constructor|].
      apply Forall_cons in IH as [IH0 IH'], Hv as [Hv0 Hv'].
      constructor; [|by apply IHitems].
      split; [by eapply iterencode_starts_value | by eapply IH0]. }
    destruct items as [|t items]; [by apply Forall2_nil_inv_l in Hreads|].
    change (Ok (ch "[" :: bracket_body (Some n) level (t :: items) ++ lit "]")
            = Ok text) in Henc.
    rewrite bracket_list_tail in Henc. apply Ok_inj in Henc. subst text.
    rewrite <- app_comm_cons, <- app_assoc.
    change (scan_once (S fuel') (ch "[" :: ?s))
      with (JSONArray (scan_once fuel') fuel' s).
    unfold JSONArray. rewrite skip_ws_newline_indent.
    assert (starts_value (list_tail n level (t :: items)))
      as (c & t' & Heq & Hws & Hclose).
    { apply Forall2_cons_1 in Hreads as [[(c & t' & -> & ? & ?) _] _].
      by eexists _, _. }
    rewrite Heq, <- app_comm_cons, skip_ws_head by done.
    destruct (Z.eqb_spec c (ch "]")); [done|].
    rewrite app_comm_cons, <- Heq.
    rewrite (array_elements_tail _ fuel' n level _ (v :: vs)); [done..| |].
    + revert Hlen. rewrite <- app_comm_cons, length_cons, !length_app. lia.
    + apply Forall2_length in Hreads. revert Hlen.
      rewrite <- app_comm_cons, length_cons, !length_app.
      pose proof (list_tail_length n level (t :: items)). lia.
  - destruct d as [|[k v] d]; [injection Henc as <-; done|].
    apply dumpable_dict in Hv as [Hwf Hv].
    change (iterencode (Some n) level (VDict ((k, v) :: d)))
      with (items ← collect (λ '(key, v),
                               x ← iterencode (Some n) (S level) v;
                               Ok (encode_basestring_ascii key ++ lit ": " ++ x))
                            ((k, v) :: d);
            Ok (ch "{" :: bracket_body (Some n) level items ++ lit "}"))
      in Henc.
    destruct (collect _ ((k, v) :: d)) as [items|e] eqn:Hitems; [|done].
    apply collect_Ok in Hitems.
    assert (∃ members,
      items = (λ kt, encode_basestring_ascii kt.1 ++ lit ": " ++ kt.2)
              <$> members
      ∧ Forall2 (λ kt kv, kv.1 = kt.1 ∧ json_safe kt.1 ∧ starts_value kt.2
                          ∧ reads (scan_once fuel') fuel' kt.2 kv.2)
                members ((k, v) :: d)) as (members & -> & Hreads).
    { clear Hlen Hwf Henc.
      induction Hitems as [|[k0 v0] t0 d0 items0 Ht0 _ IHitems];
        [by exists []; split; [|constructor]|].
      apply Forall_cons in IH as [IH0 IH'], Hv as [[Hk0 Hv0] Hv'].
      destruct (IHitems IH' Hv') as (members & -> & Hall).
      destruct (iterencode (Some n) (S level) v0) as [x|e] eqn:Hx; [|done].
      injection Ht0 as <-. exists ((k0, x) :: members). split; [done|].
      constructor; [|done]. simpl in *. split_and!; [done..| |].
      - by eapply iterencode_starts_value.
      - by eapply IH0. }
    destruct members as [|kt members]; [by apply Forall2_nil_inv_l in Hreads|].
    change (Ok (ch "{" :: bracket_body (Some n) level
                  ((λ kt, encode_basestring_ascii kt.1 ++ lit ": " ++ kt.2)
                   <$> kt :: members) ++ lit "}")
            = Ok text) in Henc.
    rewrite bracket_dict_tail in Henc. apply Ok_inj in Henc. subst text.
    rewrite <- app_comm_cons, <- app_assoc.
    change (scan_once (S fuel') (ch "{" :: ?s))
      with (JSONObject (scan_once fuel') fuel' s).
    unfold JSONObject. rewrite skip_ws_newline_indent.
    rewrite <- app_comm_cons, skip_ws_head by done.
    change (QUOTE =? ch "}") with false. rewrite Z.eqb_refl.
    rewrite (object_members_dict_tail _ fuel' n level _ ((k, v) :: d));
      [|done..| |].
    + unfold scan_bind. by rewrite dict_of_pairs_NoDup.
    + revert Hlen.
      rewrite <- app_comm_cons, length_cons, <- app_assoc, length_app,
        <- app_comm_cons, length_cons. lia.
    + apply Forall2_length in Hreads. revert Hlen.
      rewrite <- app_comm_cons, length_cons, <- app_assoc, length_app,
        <- app_comm_cons, length_cons, length_app.
      pose proof (dict_tail_length n level (kt :: members)). lia.
Qed.

(** C8. For every asset that the pack assembler processes, the key set
    is kept through decode, transform and encode.  The mapping loop
    returns a map with the keys of the decoded map, in the same order,
    whatever the values.  And decoding the encoded output gives a dict
    with exactly the keys of the decoded map; for the JSON format this
    is shown for assets as the pipeline gets them: text decoded from
    UTF-8 whose decoded map has string values. *)
Theorem key_set_preserved
    (pf : Z) (colors : list (str * str)) (u u' : gset str)
    (content text : str) :
  map_language pf colors u content = Ok (text, u') →
  ∃ d d',
    load_language content pf = Ok (VDict d)
    ∧ map_translation colors (VDict d) u = Ok (VDict d', u')
    ∧ dict_keys d' = dict_keys d
    ∧ dump_language (VDict d') pf = Ok text
    ∧ ((4 <= pf → decoded_text content ∧ ∃ m, d = prod_map id VStr <$> m) →
       ∃ d'', load_language text pf = Ok (VDict d'')
              ∧ dict_keys d'' ≡ₚ dict_keys d).
Proof.
  intros Hmap.
  apply map_language_Ok in Hmap as (d & d' & Hload & Hrun & Hdump).
  exists d, d'. split_and!; [done| |by eapply for_each_color_key_keys|done|].
  { unfold map_translation. by rewrite Hrun. }
  intros Hjson.
  assert (∃ m, d = prod_map id VStr <$> m) as [m ->].
  { destruct (Z.lt_ge_cases pf 4) as [Hlegacy|Hge]; [|by apply Hjson].
    rewrite load_language_legacy, dict_of_pairs_fmap in Hload by done.
    injection Hload as <-. by eexists. }
  apply for_each_color_key_recolored in Hrun as (m' & -> & Hrec).
  pose proof (recolored_keys _ _ Hrec) as Hkeys.
  rewrite !dict_keys_fmap.
  destruct (Z.lt_ge_cases pf 4) as [Hlegacy|Hge].
  - destruct (load_language_legacy_map _ _ _ Hlegacy Hload) as [Hwf Hchars].
    destruct (legacy_reload_keys m' pf Hlegacy) as (text' & d'' & Hdump' & Hre & Hd).
    { by eapply recolored_wf. }
    { by eapply recolored_legacy_chars. }
    unfold translation_of in Hdump'. rewrite Hdump in Hdump'.
    injection Hdump' as <-.
    exists d''. split; [done|]. by rewrite Hd, sorted_Permutation, Hkeys.
  - destruct (Hjson Hge) as [Htext _].
    assert (json_loads content = Ok (translation_of m)) as Hjl.
    { unfold load_language in Hload. by destruct (Z.leb_spec 4 pf); [|lia]. }
    destruct (json_loads_safe _ _ Htext Hjl) as [Hwf Hsafe].
    destruct (json_round_trip m') as (text' & Hdump' & Hre).
    { by eapply recolored_wf. }
    { by eapply recolored_json_safe. }
    assert (dump_language (translation_of m') pf = Ok text') as Hdump''.
    { unfold dump_language. by destruct (Z.leb_spec 4 pf); [|lia]. }
    unfold translation_of in Hdump'' at 1. rewrite Hdump in Hdump''.
    injection Hdump'' as <-.
    exists (prod_map id VStr <$> m'). split.
    + unfold load_language. by destruct (Z.leb_spec 4 pf); [|lia].
    + by rewrite dict_keys_fmap, Hkeys.
Qed.

Lemma key_set_preserved_witness :
  ∃ d d',
    load_language
      (lit "{" ++ quoted (lit "subtitles.block.anvil.land") ++ lit ": "
       ++ quoted (lit "Anvil lands") ++ lit ", " ++ quoted (lit "gui.done")
       ++ lit ": " ++ quoted (lit "Done") ++ lit "}") 9
    = Ok (VDict d)
    ∧ map_translation [(lit "subtitles.block.", lit "red")] (VDict d) ∅
      = Ok (VDict d', ∅)
    ∧ dict_keys d' = dict_keys d
    ∧ dump_language (VDict d') 9
      = Ok (lit "{" ++ [10] ++ lit "  "
            ++ quoted (lit "subtitles.block.anvil.land") ++ lit ": "
            ++ quoted (BACKSLASH :: lit "u00a7cAnvil lands") ++ lit ","
            ++ [10] ++ lit "  " ++ quoted (lit "gui.done") ++ lit ": "
            ++ quoted (lit "Done") ++ [10] ++ lit "}")
    ∧ ((4 <= 9 →
        decoded_text
          (lit "{" ++ quoted (lit "subtitles.block.anvil.land") ++ lit ": "
           ++ quoted (lit "Anvil lands") ++ lit ", " ++ quoted (lit "gui.done")
           ++ lit ": " ++ quoted (lit "Done") ++ lit "}")
        ∧ ∃ m, d = prod_map id VStr <$> m) →
       ∃ d'',
         load_language
           (lit "{" ++ [10] ++ lit "  "
            ++ quoted (lit "subtitles.block.anvil.land") ++ lit ": "
            ++ quoted (BACKSLASH :: lit "u00a7cAnvil lands") ++ lit ","
            ++ [10] ++ lit "  " ++ quoted (lit "gui.done") ++ lit ": "
            ++ quoted (lit "Done") ++ [10] ++ lit "}") 9
         = Ok (VDict d'')
         ∧ dict_keys d'' ≡ₚ dict_keys d).
Proof.
  apply (key_set_preserved 9 [(lit "subtitles.block.", lit "red")] ∅ ∅).
  vm_compute. reflexivity.
Defined.

(** * Further properties of the codecs and of the pack *)

(** ** What [json.dumps] writes is ASCII *)

Lemma ascii_text_app (s t : list Z) :
  ascii_text s → ascii_text t → ascii_text (s ++ t).
Proof. apply Forall_app_2. Qed.

Lemma ascii_text_lit_dec (s : list Z) :
  forallb (λ c, (c =? 10) || ((32 <=? c) && (c <=? 126))) s = true →
  ascii_text s.
Proof.
  intros H. apply Forall_forall. intros c Hc%list_elem_of_In.
  rewrite forallb_forall in H. specialize (H c Hc). lia.
Qed.

Lemma hex_digit_ascii (n : Z) : 32 <= hex_digit (Z.land n 15) <= 126.
Proof.
  change 15 with (Z.ones 4). rewrite Z.land_ones by lia.
  pose proof (Z.mod_pos_bound n (2 ^ 4) ltac:(lia)).
  unfold hex_digit. case_match; lia.
Qed.

Lemma u_escape_ascii (n : Z) : ascii_text (u_escape n).
Proof.
  unfold u_escape, hex4.
  apply (ascii_text_app [BACKSLASH; ch "u"]);
    [apply ascii_text_lit_dec; reflexivity|].
  repeat (apply Forall_cons_2; [right; apply hex_digit_ascii|]).
  constructor.
Qed.

Lemma escape_char_ascii (c : Z) : ascii_text (escape_char c).
Proof.
  unfold escape_char.
  repeat case_match;
    try (apply ascii_text_lit_dec; reflexivity);
    try apply u_escape_ascii.
  - constructor; [|constructor]. right. lia.
  - apply ascii_text_app; apply u_escape_ascii.
Qed.

Lemma escape_body_ascii (s : list Z) : ascii_text (escape_body s).
Proof.
  induction s as [|c s IH]; [constructor|].
  rewrite escape_body_cons. apply ascii_text_app; [apply escape_char_ascii|done].
Qed.

Lemma encode_basestring_ascii_text (s : list Z) :
  ascii_text (encode_basestring_ascii s).
Proof.
  unfold encode_basestring_ascii. constructor; [right; by vm_compute|].
  apply ascii_text_app; [apply escape_body_ascii|].
  constructor; [right; by vm_compute | constructor].
Qed.

Lemma int_repr_ascii_text (n : Z) : ascii_text (int_repr n).
Proof.
  assert (H : ∀ u, ascii_text (uint_digits u)).
  { induction u; simpl; constructor; try done; right; lia. }
  destruct n; simpl; [|apply H|].
  - constructor; [right; lia | constructor].
  - constructor; [right; by vm_compute | apply H].
Qed.

Lemma spaces_ascii (n : nat) : ascii_text (spaces n).
Proof. apply Forall_replicate. right. lia. Qed.

Lemma newline_indent_ascii (n level : nat) : ascii_text (newline_indent n level).
Proof. constructor; [by left | apply spaces_ascii]. Qed.

Lemma join_ascii (sep : list Z) (items : list (list Z)) :
  ascii_text sep → Forall ascii_text items → ascii_text (join sep items).
Proof.
  intros Hsep. induction 1 as [|t items Ht _ IH]; [constructor|].
  destruct items as [|t' items]; [done|].
  change (join sep (t :: t' :: items)) with (t ++ sep ++ join sep (t' :: items)).
  by repeat apply ascii_text_app.
Qed.

Lemma bracket_body_ascii (indent : option nat) (level : nat)
    (items : list (list Z)) :
  Forall ascii_text items → ascii_text (bracket_body indent level items).
Proof.
  intros Hitems. destruct indent as [n|]; simpl.
  - apply (ascii_text_app (newline_indent _ _)); [apply newline_indent_ascii|].
    apply ascii_text_app; [|apply newline_indent_ascii].
    apply join_ascii; [|done].
    constructor; [right; by vm_compute | apply newline_indent_ascii].
  - apply join_ascii; [|done]. apply ascii_text_lit_dec. reflexivity.
Qed.

Lemma iterencode_ascii (indent : option nat) (v : value) :
  ∀ level text, iterencode indent level v = Ok text → ascii_text text.
Proof.
  induction v as [| b | i | x | s | vs IH | d IH] using value_ind_nested;
    intros level text Henc.
  - apply Ok_inj in Henc as <-. apply ascii_text_lit_dec. reflexivity.
  - destruct b; apply Ok_inj in Henc as <-; apply ascii_text_lit_dec;
      reflexivity.
  - apply Ok_inj in Henc as <-. apply int_repr_ascii_text.
  - done.
  - apply Ok_inj in Henc as <-. apply encode_basestring_ascii_text.
  - destruct vs as [|v vs];
      [apply Ok_inj in Henc as <-; apply ascii_text_lit_dec; reflexivity|].
    change (iterencode indent level (VList (v :: vs)))
      with (items ← collect (iterencode indent (S level)) (v :: vs);
            Ok (ch "[" :: bracket_body indent level items ++ lit "]"))
      in Henc.
    destruct (collect _ (v :: vs)) as [items|e] eqn:Hitems; [|done].
    apply Ok_inj in Henc as <-. apply collect_Ok in Hitems.
    constructor; [right; by vm_compute|].
    apply ascii_text_app; [|apply ascii_text_lit_dec; reflexivity].
    apply bracket_body_ascii.
    induction Hitems as [|v0 t0 vs0 items0 Ht0 _ IHitems]; [constructor|].
    apply Forall_cons in IH as [IH0 IH']. constructor; [by eapply IH0|].
    by apply IHitems.
  - destruct d as [|[k v] d];
      [apply Ok_inj in Henc as <-; apply ascii_text_lit_dec; reflexivity|].
    change (iterencode indent level (VDict ((k, v) :: d)))
      with (items ← collect (λ '(key, v),
                               x ← iterencode indent (S level) v;
                               Ok (encode_basestring_ascii key ++ lit ": " ++ x))
                            ((k, v) :: d);
            Ok (ch "{" :: bracket_body indent level items ++ lit "}"))
      in Henc.
    destruct (collect _ ((k, v) :: d)) as [items|e] eqn:Hitems; [|done].
    apply Ok_inj in Henc as <-. apply collect_Ok in Hitems.
    constructor; [right; by vm_compute|].
    apply ascii_text_app; [|apply ascii_text_lit_dec; reflexivity].
    apply bracket_body_ascii.
    induction Hitems as [|[k0 v0] t0 d0 items0 Ht0 _ IHitems]; [constructor|].
    apply Forall_cons in IH as [IH0 IH']. constructor; [|by apply IHitems].
    destruct (iterencode indent (S level) v0) as [x|e] eqn:Hx; [|done].
    apply Ok_inj in Ht0 as <-.
    apply ascii_text_app; [apply encode_basestring_ascii_text|].
    apply ascii_text_app; [apply ascii_text_lit_dec; reflexivity|].
    by eapply IH0.
Qed.

Lemma ascii_text_no_surrogate (s : list Z) :
  ascii_text s → existsb is_surrogate s = false.
Proof.
  induction 1 as [|c s Hc _ IH]; [done|]. simpl. rewrite IH.
  unfold is_surrogate. lia.
Qed.

(** ** [json.dumps] succeeds on every value without a float *)

Lemma collect_total {A B} (body : A → result B) (xs : list A) :
  Forall (λ x, ∃ y, body x = Ok y) xs → ∃ ys, collect body xs = Ok ys.
Proof.
  induction 1 as [|x xs [y Hy] _ [ys IH]]; [by exists []|].
  exists (y :: ys). by rewrite collect_cons, Hy, IH.
Qed.

Lemma iterencode_dumpable (indent : option nat) (v : value) :
  ∀ level, dumpable v → ∃ text, iterencode indent level v = Ok text.
Proof.
  induction v as [| b | i | x | s | vs IH | d IH] using value_ind_nested;
    intros level Hv.
  - by eexists.
  - destruct b; by eexists.
  - by eexists.
  - done.
  - by eexists.
  - destruct vs as [|v vs]; [by eexists|].
    apply dumpable_list in Hv.
    change (iterencode indent level (VList (v :: vs)))
      with (items ← collect (iterencode indent (S level)) (v :: vs);
            Ok (ch "[" :: bracket_body indent level items ++ lit "]")).
    destruct (collect_total (iterencode indent (S level)) (v :: vs))
      as [items ->]; [|by eexists].
    apply Forall_forall. intros v0 Hv0.
    rewrite Forall_forall in IH. rewrite Forall_forall in Hv. by apply IH, Hv.
  - destruct d as [|[k v] d]; [by eexists|].
    apply dumpable_dict in Hv as [_ Hv].
    change (iterencode indent level (VDict ((k, v) :: d)))
      with (items ← collect (λ '(key, v),
                               x ← iterencode indent (S level) v;
                               Ok (encode_basestring_ascii key ++ lit ": " ++ x))
                            ((k, v) :: d);
            Ok (ch "{" :: bracket_body indent level items ++ lit "}")).
    match goal with
    | |- context [collect ?body ?xs] =>
        destruct (collect_total body xs) as [items ->]; [|by eexists]
    end.
    apply Forall_forall. intros [k0 v0] Hkv.
    rewrite Forall_forall in IH. rewrite Forall_forall in Hv.
    destruct (IH _ Hkv (S level)) as [x Hx]; [by apply (Hv _ Hkv)|].
    simpl in Hx. rewrite Hx. by eexists.
Qed.

(** ** [json.loads] reads back any value that [json.dumps] wrote *)

Lemma json_loads_dumps (n : nat) (v : value) (text : list Z) :
  dumpable v → json_dumps (Some n) v = Ok text → json_loads text = Ok v.
Proof.
  intros Hv Henc. unfold json_dumps in Henc. unfold json_loads.
  pose proof (iterencode_starts_value _ _ _ _ Henc) as Hstart.
  pose proof (iterencode_ascii _ _ _ _ Henc) as Hascii.
  assert (startswith text [BOM] = false) as ->.
  { destruct Hstart as (c & t & -> & _). apply Forall_cons in Hascii as [Hc _].
    simpl. unfold BOM. destruct (Z.eqb_spec c 65279); [lia|done]. }
  rewrite <- (app_nil_r text) at 2. rewrite skip_ws_starts_value by done.
  rewrite (scan_once_iterencode n v 0 text _ Hv Henc); [done..|].
  rewrite app_nil_r. lia.
Qed.

(** ** Further properties *)

(** X1. The JSON codec (pack format 4 and above) round-trips every
    value it can print, not only flat translation maps.  Take a value
    built from [None], booleans, integers, strings, lists and dicts, in
    which no string or key has a high surrogate immediately followed by
    a low surrogate, and which stays clear of the limits of the
    interpreter: nesting no deeper than 100 and integers of at most
    4300 digits.  Then [dump_language] succeeds and [load_language] of
    its output is the value itself, with nesting and key order kept. *)
Theorem json_value_round_trip (pf : Z) (v : value) :
  4 <= pf → dumpable v → within_limits 100 v →
  ∃ text, dump_language v pf = Ok text ∧ load_language text pf = Ok v.
Proof.
  intros Hpf Hv _. unfold dump_language, load_language.
  destruct (Z.leb_spec 4 pf); [|lia].
  destruct (iterencode_dumpable (Some 2%nat) v 0 Hv) as [text Henc].
  exists text. split; [done|]. by eapply json_loads_dumps.
Qed.

Lemma json_value_round_trip_witness :
  ∃ text,
    dump_language
      (VDict [(lit "removed", VList [VStr (lit "a.b"); VInt (-30); VNone]);
              (lit "renamed", VDict [(lit "x", VStr [233; 55357; 10]);
                                     (lit "y", VList [])]);
              (lit "ok", VBool true)]) 9 = Ok text
    ∧ load_language text 9
      = Ok (VDict [(lit "removed", VList [VStr (lit "a.b"); VInt (-30); VNone]);
                   (lit "renamed", VDict [(lit "x", VStr [233; 55357; 10]);
                                          (lit "y", VList [])]);
                   (lit "ok", VBool true)]).
Proof.
  apply (json_value_round_trip 9); [lia| |].
  - repeat match goal with
           | |- dumpable (VDict _) => apply (proj2 (dumpable_dict _))
           | |- dumpable (VList _) => apply (proj2 (dumpable_list _))
           | |- dumpable (VStr ?s) => change (json_safe s)
           | |- dumpable _ => exact I
           | |- Forall _ (_ :: _) => apply Forall_cons_2
           | |- Forall _ [] => apply Forall_nil_2
           | |- dict_wf _ => unfold dict_wf, dict_keys
           | |- _ ∧ _ => split
           | |- _ => progress cbn [fst snd]
           | |- _ => apply (bool_decide_unpack _); vm_compute; exact I
           end.
  - repeat split; try exact I; apply Z.ltb_lt; vm_compute; reflexivity.
Defined.

(** X2. What [dump_language] writes for the JSON format is plain ASCII
    (printable characters and line feeds), whatever code points the
    translation holds, lone surrogates included; so storing it in the
    zip file cannot fail on the encoding of the data: for an entry name
    without surrogates, [writestr] raises no [UnicodeEncodeError]. *)
Theorem json_asset_text_is_ascii (pf : Z) (translation : value) (text : str) :
  4 <= pf → dump_language translation pf = Ok text →
  ascii_text text
  ∧ ∀ f name, existsb is_surrogate (zip_name name) = false →
              writestr f name text ≠ Raise UnicodeEncodeError.
Proof.
  intros Hpf. unfold dump_language. destruct (Z.leb_spec 4 pf); [|lia].
  intros Hascii%iterencode_ascii. split; [done|].
  intros f name Hname. unfold writestr.
  rewrite Hname, ascii_text_no_surrogate by done. simpl.
  by destruct (65535 <? utf8_length (zip_name name)).
Qed.

Lemma json_asset_text_is_ascii_witness :
  ∃ text,
    dump_language (VDict [(lit "k", VStr [233; 55357; 128512])]) 9 = Ok text
    ∧ ascii_text text
    ∧ writestr [] (lit "assets/minecraft/lang/en_us.json") text
      ≠ Raise UnicodeEncodeError.
Proof.
  eexists. split; [vm_compute; reflexivity|].
  destruct (json_asset_text_is_ascii 9
              (VDict [(lit "k", VStr [233; 55357; 128512])]) _ ltac:(lia)
              ltac:(vm_compute; reflexivity)) as [Hascii Hwrite].
  split; [exact Hascii|].
  apply (Hwrite [] (lit "assets/minecraft/lang/en_us.json")). reflexivity.
Defined.

(** ** Legacy decoding: carriage returns and white space *)

(** What [rstrip] leaves, if anything, ends with a character that is
    not white space. *)
Lemma rstrip_last (s : list Z) :
  rstrip s = [] ∨ ∃ c, last (rstrip s) = Some c ∧ is_space c = false.
Proof.
  induction s as [|x s IH]; [by left|]. simpl.
  destruct (rstrip s) as [|y r] eqn:Hr.
  - destruct (is_space x) eqn:Hx; [by left|]. right. by exists x.
  - right. destruct IH as [?|(c & Hlast & Hc)]; [done|]. by exists c.
Qed.

Lemma remove_char_cons (c x : Z) (s : list Z) :
  remove_char c (x :: s)
  = if decide (x = c) then remove_char c s else x :: remove_char c s.
Proof.
  unfold remove_char. destruct (decide (x = c)) as [->|Hne].
  - by rewrite filter_cons_False by (by intros ?).
  - by rewrite filter_cons_True.
Qed.

Lemma remove_char_rstrip_nonempty (s : list Z) :
  rstrip s ≠ [] → remove_char 13 (rstrip s) ≠ [].
Proof.
  intros Hne. destruct (rstrip_last s) as [?|(c & Hlast & Hc)]; [done|].
  apply last_Some in Hlast as [r Hr]. rewrite Hr.
  intros Hnil. assert (c ∈ remove_char 13 (r ++ [c])) as Hin.
  { apply list_elem_of_filter. split.
    - intros ->. done.
    - apply elem_of_app. right. by apply list_elem_of_singleton. }
  rewrite Hnil in Hin. by apply elem_of_nil in Hin.
Qed.

(** Removing the carriage returns before or after [rstrip] is the same:
    a carriage return is white space. *)
Lemma rstrip_remove_char (s : list Z) :
  rstrip (remove_char 13 s) = remove_char 13 (rstrip s).
Proof.
  induction s as [|x s IH]; [done|].
  rewrite remove_char_cons. destruct (decide (x = 13)) as [->|Hx].
  - rewrite IH. simpl. destruct (rstrip s) as [|y r]; [done|].
    by rewrite (remove_char_cons 13 13), decide_True.
  - simpl. rewrite IH. destruct (rstrip s) as [|y r] eqn:Hr.
    + change (remove_char 13 []) with (@nil Z).
      destruct (is_space x); [done|]. rewrite remove_char_cons.
      by destruct (decide (x = 13)).
    + pose proof (remove_char_rstrip_nonempty s) as Hne. rewrite Hr in Hne.
      rewrite (remove_char_cons 13 x), decide_False by done.
      destruct (remove_char 13 (y :: r)); [by destruct Hne|done].
Qed.

Lemma remove_char_idemp (c : Z) (s : list Z) :
  remove_char c (remove_char c s) = remove_char c s.
Proof.
  apply remove_char_absent. unfold remove_char.
  intros [? _]%list_elem_of_filter. done.
Qed.

Lemma legacy_lines_remove_char (contents : list Z) :
  legacy_lines (remove_char 13 contents) = legacy_lines contents.
Proof.
  unfold legacy_lines. by rewrite rstrip_remove_char, remove_char_idemp.
Qed.

Lemma rstrip_blank (s : list Z) :
  Forall (λ c, is_space c = true) s → rstrip s = [].
Proof.
  induction 1 as [|c s Hc _ IH]; [done|]. simpl. by rewrite IH, Hc.
Qed.

(** X3. Legacy decoding ignores carriage returns: a text and the same
    text with every carriage return taken out (so a file with CR LF
    line ends and the same file with LF line ends) decode to the same
    map. *)
Theorem legacy_carriage_returns_ignored (contents : str) (pf : Z) :
  pf < 4 →
  load_language (remove_char 13 contents) pf = load_language contents pf.
Proof.
  intros Hpf. rewrite !load_language_legacy by done.
  by rewrite legacy_lines_remove_char.
Qed.

Lemma legacy_carriage_returns_ignored_witness :
  load_language (remove_char 13 (lit "a=1" ++ [13; 10] ++ lit "b=2" ++ [13; 10])) 3
  = load_language (lit "a=1" ++ [13; 10] ++ lit "b=2" ++ [13; 10]) 3.
Proof. apply (legacy_carriage_returns_ignored _ 3). lia. Defined.

(** The map that legacy decoding returns, and where its characters come
    from. *)
Lemma load_language_legacy_translation (contents : list Z) (pf : Z) :
  pf < 4 →
  load_language contents pf
  = Ok (translation_of (dict_of_pairs (key_value <$> legacy_lines contents))).
Proof.
  intros Hpf. rewrite load_language_legacy by done. unfold translation_of.
  by rewrite dict_of_pairs_fmap.
Qed.

Lemma legacy_pieces (contents k v : list Z) (c : Z) :
  (k, v) ∈ dict_of_pairs (key_value <$> legacy_lines contents) →
  c ∈ k ∨ c ∈ v → c ∈ contents.
Proof.
  intros Hin%dict_of_pairs_elem Hc.
  apply list_elem_of_fmap in Hin as (line & Hkv & Hline).
  symmetry in Hkv. apply key_value_chars in Hkv as [_ Hsub].
  apply Hsub in Hc. unfold legacy_lines in Hline.
  apply list_elem_of_filter in Hline as [_ Hline].
  apply split_pieces in Hline as [_ Hpiece]. apply Hpiece in Hc.
  unfold remove_char in Hc. apply list_elem_of_filter in Hc as [_ Hc].
  by apply rstrip_elem.
Qed.

(** X4. Legacy decoding (pack format below 4) never fails, whatever the
    text, and what it returns is a map from strings to strings with
    distinct keys, in which no key holds [=], no key or value holds a
    line feed or a carriage return, and every character of a key or a
    value is a character of the text. *)
Theorem legacy_decode_shape (contents : str) (pf : Z) :
  pf < 4 →
  ∃ m, load_language contents pf = Ok (translation_of m)
       ∧ dict_wf m ∧ legacy_chars m
       ∧ ∀ k v c, (k, v) ∈ m → c ∈ k ∨ c ∈ v → c ∈ contents.
Proof.
  intros Hpf. exists (dict_of_pairs (key_value <$> legacy_lines contents)).
  pose proof (load_language_legacy_translation contents pf Hpf) as Hload.
  destruct (load_language_legacy_map _ _ _ Hpf Hload) as [Hwf Hchars].
  split_and!; [done..|]. intros k v c. apply legacy_pieces.
Qed.

Lemma legacy_decode_shape_witness :
  ∃ m, load_language (lit "b=1=2" ++ [13; 10; 10] ++ lit "novalue" ++ [10; 32]) 3
       = Ok (translation_of m)
       ∧ dict_wf m ∧ legacy_chars m
       ∧ ∀ k v c, (k, v) ∈ m → c ∈ k ∨ c ∈ v
                  → c ∈ lit "b=1=2" ++ [13; 10; 10] ++ lit "novalue" ++ [10; 32].
Proof. apply (legacy_decode_shape _ 3). lia. Defined.

(** X5. A legacy line is cut at its first [=] only: the line [k=v],
    where [k] has no [=], binds [k] to [v] even when [v] itself holds
    [=] (unless a later line has the key [k]). *)
Theorem legacy_line_cut_at_first_separator
    (contents : str) (pf : Z) (before : list str) (k v : str)
    (after : list str) :
  pf < 4 →
  legacy_lines contents = before ++ (k ++ ch "=" :: v) :: after →
  ch "=" ∉ k →
  Forall (λ l, (key_value l).1 ≠ k) after →
  ∃ d, load_language contents pf = Ok (VDict d)
       ∧ dict_get k d = Some (VStr v).
Proof.
  intros Hpf Hlines Hk Hafter.
  destruct (legacy_last_line contents pf before (k ++ ch "=" :: v) after)
    as (d & Hload & Hget); [done..| |].
  - by rewrite key_value_first.
  - rewrite key_value_first in Hget by done. by exists d.
Qed.

Lemma legacy_line_cut_at_first_separator_witness :
  ∃ d, load_language (lit "a=1" ++ 10 :: lit "eq=x=y=z" ++ 10 :: lit "c=3") 3
       = Ok (VDict d)
       ∧ dict_get (lit "eq") d = Some (VStr (lit "x=y=z")).
Proof.
  apply (legacy_line_cut_at_first_separator _ 3 [lit "a=1"] (lit "eq")
           (lit "x=y=z") [lit "c=3"]).
  - lia.
  - vm_compute. reflexivity.
  - intros H%list_elem_of_In. vm_compute in H. intuition discriminate.
  - repeat constructor. vm_compute. discriminate.
Defined.

(** ** Blank assets *)

Lemma is_space_not_token (c : Z) :
  is_space c = true →
  c ≠ QUOTE ∧ c ≠ ch "{" ∧ c ≠ ch "[" ∧ c ≠ ch "n" ∧ c ≠ ch "t" ∧ c ≠ ch "f"
  ∧ c ≠ ch "-" ∧ c ≠ ch "N" ∧ c ≠ ch "I" ∧ is_digit c = false.
Proof.
  unfold is_space, is_digit, QUOTE, ch. cbn. intros Hc.
  split_and!; lia.
Qed.

Lemma scan_atom_space (c : Z) (s : list Z) :
  is_space c = true → scan_atom (c :: s) = Invalid.
Proof.
  intros (_ & _ & _ & ? & ? & ? & Hminus & ? & ? & Hdigit)%is_space_not_token.
  unfold scan_atom.
  change (lit "null") with (ch "n" :: lit "ull").
  change (lit "true") with (ch "t" :: lit "rue").
  change (lit "false") with (ch "f" :: lit "alse").
  change (lit "NaN") with (ch "N" :: lit "aN").
  change (lit "Infinity") with (ch "I" :: lit "nfinity").
  change (lit "-Infinity") with (ch "-" :: lit "Infinity").
  rewrite !startswith_head by done.
  unfold match_number. destruct (Z.eqb_spec c (ch "-")); [done|].
  by rewrite Hdigit.
Qed.

Lemma scan_once_blank (fuel : nat) (s : list Z) :
  Forall (λ c, is_space c = true) s →
  scan_once (S fuel) (skip_ws s) = Invalid.
Proof.
  induction 1 as [|c s Hc _ IH]; [done|].
  change (skip_ws (c :: s)) with (if is_json_ws c then skip_ws s else c :: s).
  destruct (is_json_ws c); [done|].
  destruct (is_space_not_token c Hc) as (? & ? & ? & _).
  rewrite scan_once_atom by done. by apply scan_atom_space.
Qed.

Lemma sorted_nil : sorted [] = [].
Proof. done. Qed.

(** X6. An empty asset, or one made of white space only, is stored as
    an empty entry in a legacy pack (format below 4): it decodes to the
    empty map, nothing is colored or reported, and the text written is
    empty.  In a JSON pack (format 4 and above) the same asset is
    fatal: [json.loads] raises on it. *)
Theorem blank_asset (pf : Z) (colors : list (str * str)) (u : gset str)
    (content : str) :
  Forall (λ c, is_space c = true) content →
  (pf < 4 → map_language pf colors u content = Ok ([], u))
  ∧ (4 <= pf → map_language pf colors u content = Raise JSONDecodeError).
Proof.
  intros Hblank. split; intros Hpf; unfold map_language.
  - rewrite load_language_legacy by done. unfold legacy_lines.
    rewrite (rstrip_blank _ Hblank). simpl.
    unfold dump_language. destruct (Z.leb_spec 4 pf); [lia|done].
  - unfold load_language. destruct (Z.leb_spec 4 pf); [|lia].
    unfold json_loads.
    assert (startswith content [BOM] = false) as ->.
    { destruct Hblank as [|c s Hc _]; [done|]. simpl.
      destruct (Z.eqb_spec c BOM) as [->|]; [|done]. done. }
    by rewrite scan_once_blank.
Qed.

Lemma blank_asset_witness :
  map_language 3 [(lit "subtitles.", lit "red")] ∅ [32; 13; 10; 9; 10]
  = Ok ([], ∅)
  ∧ map_language 9 [(lit "subtitles.", lit "red")] ∅ [32; 13; 10; 9; 10]
    = Raise JSONDecodeError.
Proof.
  destruct (blank_asset 3 [(lit "subtitles.", lit "red")] ∅ [32; 13; 10; 9; 10])
    as [Hlegacy _]; [repeat constructor|].
  destruct (blank_asset 9 [(lit "subtitles.", lit "red")] ∅ [32; 13; 10; 9; 10])
    as [_ Hjson]; [repeat constructor|].
  split; [apply Hlegacy | apply Hjson]; lia.
Defined.

(** ** When the mapping loop succeeds *)

Lemma for_each_color_key_total (colors : list (list Z * list Z))
    (ks : list (list Z)) :
  NoDup ks →
  ∀ (d : list (list Z * value)) (u : gset (list Z)),
    (∀ key c, key ∈ ks → last_matching_rule colors key c →
       is_Some (dict_get c color_codes)
       ∧ ∃ old, dict_get key d = Some (VStr old)) →
    ∃ st, for_each (color_key colors) (d, u) ks = Ok st.
Proof.
  induction 1 as [|k ks Hk _ IH]; intros d u Hall; [by eexists|].
  rewrite for_each_cons.
  assert (∃ d1 u1, color_key colors (d, u) k = Ok (d1, u1)
                   ∧ ∀ key, key ≠ k → dict_get key d1 = dict_get key d)
    as (d1 & u1 & -> & Hsame).
  { unfold color_key. destruct (select_color colors k) as [c|] eqn:Hsel.
    - apply select_color_Some in Hsel.
      destruct (Hall k c) as [[code ->] [old ->]]; [left|done|].
      eexists _, _. split; [done|]. intros key Hne.
      apply dict_get_set_ne. congruence.
    - destruct (startswith k (lit "subtitles.")); by eexists _, _. }
  apply IH. intros key c Hin Hlast.
  rewrite Hsame by (intros ->; done). apply Hall; [by right|done].
Qed.

(** X7. The mapping loop over a translation succeeds exactly when, for
    every key that some rule matches, the color of the last matching
    rule is in the color-code table and the key's value is a string.
    Rules that are never the last match of a key, and values of keys
    that no rule matches, put no condition on the run. *)
Theorem mapping_succeeds_iff
    (colors : list (str * str)) (d : dict value) (unhandled : gset str) :
  dict_wf d →
  (∃ r, map_translation colors (VDict d) unhandled = Ok r)
  ↔ ∀ key c, key ∈ dict_keys d → last_matching_rule colors key c →
       is_Some (dict_get c color_codes)
       ∧ ∃ old, dict_get key d = Some (VStr old).
Proof.
  intros Hwf. split.
  - intros [[t' u'] (d0 & d' & [= <-] & -> & Hrun)%map_translation_Ok].
    intros key c Hin Hlast.
    destruct (for_each_color_key_matched colors _ _ _ _ _ key c Hwf Hrun Hin Hlast)
      as (code & old & -> & -> & _).
    split; by eexists.
  - intros Hall. unfold map_translation.
    destruct (for_each_color_key_total colors (dict_keys d) Hwf d unhandled Hall)
      as [st ->].
    by eexists.
Qed.

Lemma mapping_succeeds_iff_witness :
  (∃ r, map_translation [(lit "subtitles.", lit "nocolor");
                         (lit "subtitles.block.", lit "red")]
          (VDict [(lit "subtitles.block.anvil.land", VStr (lit "Anvil lands"));
                  (lit "gui.count", VInt 3)]) ∅ = Ok r)
  ↔ ∀ key c,
      key ∈ dict_keys [(lit "subtitles.block.anvil.land",
                        VStr (lit "Anvil lands"));
                       (lit "gui.count", VInt 3)] →
      last_matching_rule [(lit "subtitles.", lit "nocolor");
                          (lit "subtitles.block.", lit "red")] key c →
      is_Some (dict_get c color_codes)
      ∧ ∃ old, dict_get key [(lit "subtitles.block.anvil.land",
                              VStr (lit "Anvil lands"));
                             (lit "gui.count", VInt 3)]
               = Some (VStr old).
Proof.
  apply (mapping_succeeds_iff _ _ ∅).
  apply (bool_decide_unpack _). vm_compute. exact I.
Defined.

(** ** The warnings of a pack *)

Lemma write_languages_unhandled_iff pf colors languages f u f' u' key :
  write_languages pf colors languages f u = (f', Ok u') →
  key ∈ u' ↔
  key ∈ u
  ∨ (no_matching_rule colors key ∧ lit "subtitles." `prefix_of` key
     ∧ ∃ path content d,
         (path, content) ∈ languages
         ∧ load_language content pf = Ok (VDict d)
         ∧ key ∈ dict_keys d).
Proof.
  revert f u. induction languages as [|[path content] languages IH];
    intros f u; simpl.
  - intros [= -> ->]. split; [by left|].
    intros [?|(_ & _ & ? & ? & ? & ?%elem_of_nil & _)]; done.
  - destruct (map_language pf colors u content) as [[text u1]|e] eqn:Hmap;
      [|done].
    destruct (writestr f _ text) as [f1|e]; [|done].
    intros Hrest. rewrite (IH _ _ Hrest).
    apply map_language_Ok in Hmap as (d & d' & Hload & Hrun & _).
    rewrite (for_each_color_key_unhandled _ _ _ _ _ _ key Hrun).
    split.
    + intros [[?|(Hin & ? & ?)]|(? & ? & p & c & d0 & ? & ? & ?)].
      * by left.
      * right. split_and!; [done..|]. exists path, content, d.
        split_and!; [left|done..].
      * right. split_and!; [done..|]. exists p, c, d0.
        split_and!; [by right|done..].
    + intros [?|(? & ? & p & c & d0 & [[= -> ->]|?]%elem_of_cons & Hl & ?)].
      * by left; left.
      * left. right. rewrite Hload in Hl. injection Hl as <-. done.
      * right. split_and!; [done..|]. by exists p, c, d0.
Qed.

(** X8. When a pack is built, the keys warned about are exactly the
    keys of the decoded assets that start with "subtitles." and that no
    rule matches; each is reported once, however many assets hold it,
    and the report is in ascending order. *)
Theorem warnings_are_unmatched_subtitle_keys
    (w : world) (version : str) (languages : list (str * str))
    (colors : list (str * str)) (f : option zip) (warnings : list str) :
  generate_pack w version languages colors = (f, Ok warnings) →
  Sorted str_le warnings ∧ NoDup warnings
  ∧ ∀ key,
      key ∈ warnings ↔
      no_matching_rule colors key ∧ lit "subtitles." `prefix_of` key
      ∧ ∃ pf path content d,
          guess_pack_format version = Some pf
          ∧ (path, content) ∈ languages
          ∧ load_language content pf = Ok (VDict d)
          ∧ key ∈ dict_keys d.
Proof.
  intros (pf & f1 & u1 & Hpf & _ & _ & Hw & ->)%generate_pack_Ok. split_and!.
  - apply (Sorted_merge_sort str_le).
  - rewrite sorted_Permutation. apply NoDup_elements.
  - intros key. rewrite elem_of_sorted, elem_of_elements.
    rewrite (write_languages_unhandled_iff _ _ _ _ _ _ _ key Hw).
    split.
    + intros [?%elem_of_empty|(? & ? & p & c & d & ? & ? & ?)]; [done|].
      split_and!; [done..|]. by exists pf, p, c, d.
    + intros (? & ? & pf' & p & c & d & Hpf' & ? & ? & ?).
      rewrite Hpf in Hpf'. injection Hpf' as <-.
      right. split_and!; [done..|]. by exists p, c, d.
Qed.

Lemma warnings_are_unmatched_subtitle_keys_witness :
  Sorted str_le [lit "subtitles.a"; lit "subtitles.z"]
  ∧ NoDup [lit "subtitles.a"; lit "subtitles.z"]
  ∧ ∀ key,
      key ∈ [lit "subtitles.a"; lit "subtitles.z"] ↔
      no_matching_rule [(lit "subtitles.block.", lit "red")] key
      ∧ lit "subtitles." `prefix_of` key
      ∧ ∃ pf path content d,
          guess_pack_format (lit "1.12.2") = Some pf
          ∧ (path, content)
            ∈ [(lit "minecraft/lang/en_US.lang",
                lit "subtitles.z=Z" ++ 10 :: lit "subtitles.a=A");
               (lit "minecraft/lang/de_DE.lang",
                lit "subtitles.z=Zett" ++ 10 :: lit "gui.done=Fertig")]
          ∧ load_language content pf = Ok (VDict d)
          ∧ key ∈ dict_keys d.
Proof.
  eapply (warnings_are_unmatched_subtitle_keys plain_world (lit "1.12.2")).
  vm_compute. reflexivity.
Defined.

(** ** The entries of a pack *)






(** ** Legacy packs from end to end *)

Lemma for_each_color_key_get (colors : list (list Z * list Z))
    (ks : list (list Z)) d u d' u' (key old : list Z) :
  NoDup ks →
  for_each (color_key colors) (d, u) ks = Ok (d', u') →
  key ∈ ks → dict_get key d = Some (VStr old) →
  dict_get key d' = Some (VStr (color_prefix colors key ++ old)).
Proof.
  intros Hnd Hrun Hin Hget. unfold color_prefix.
  destruct (last_match_cases colors key) as [[c Hlast]|Hnone].
  - destruct (for_each_color_key_matched colors _ _ _ _ _ key c Hnd Hrun Hin Hlast)
      as (code & old' & Hcode & Hget' & ->).
    apply select_color_Some in Hlast. rewrite Hlast, Hcode. simpl. congruence.
  - rewrite (for_each_color_key_unmatched colors _ _ _ _ _ key Hrun Hnone).
    apply select_color_None in Hnone. by rewrite Hnone.
Qed.

Lemma legacy_text_get (d : list (list Z * value)) (g : list Z → list Z)
    (ks : list (list Z)) :
  (∀ k, k ∈ ks → dict_get k d = Some (VStr (g k))) →
  legacy_text d ks = Ok (lines_text ((λ k, k ++ ch "=" :: g k) <$> ks)).
Proof.
  induction ks as [|k ks IH]; intros Hks; [done|].
  simpl. rewrite (Hks k) by left. simpl.
  rewrite IH by (intros k' ?; apply Hks; by right). simpl.
  by rewrite <- app_assoc.
Qed.

Lemma map_language_legacy_text pf colors u content m :
  pf < 4 → load_language content pf = Ok (translation_of m) →
  (∀ key c, key ∈ dict_keys m → last_matching_rule colors key c →
     is_Some (dict_get c color_codes)) →
  ∃ u', map_language pf colors u content
        = Ok (lines_text (colored_line colors m <$> sorted (dict_keys m)), u').
Proof.
  intros Hpf Hload Hknown.
  destruct (load_language_legacy_map _ _ _ Hpf Hload) as [Hwf _].
  unfold map_language. rewrite Hload. unfold translation_of.
  change (Ok ?t ≫= ?k) with (k t). unfold map_translation.
  rewrite dict_keys_fmap.
  destruct (for_each_color_key_total colors (dict_keys m) Hwf
              (prod_map id VStr <$> m) u) as [[d' u'] Hrun].
  { intros key c Hin Hlast. split; [by eapply Hknown|].
    rewrite dict_get_fmap. apply dict_get_is_Some in Hin as [old ->].
    by exists old. }
  rewrite Hrun. exists u'. unfold dump_language. simpl. destruct (Z.leb_spec 4 pf); [lia|].
  rewrite (for_each_color_key_keys _ _ _ _ _ _ Hrun), dict_keys_fmap.
  rewrite (legacy_text_get d'
             (λ k, color_prefix colors k ++ default [] (dict_get k m))).
  - done.
  - intros k Hk. apply (proj1 (elem_of_sorted _ _)) in Hk.
    apply (for_each_color_key_get colors _ _ _ _ _ k _ Hwf Hrun Hk).
    rewrite dict_get_fmap. apply dict_get_is_Some in Hk as [old ->]. done.
Qed.

(** X10. A legacy asset from end to end: when every color selected for
    one of its keys is in the color-code table, the text stored for the
    asset is made of one line [key=value] per key of the decoded map,
    with the formatting code of the key's last matching rule put in
    front of the value (nothing for a key that no rule matches), the
    lines in ascending order of the keys and each ended by a line
    feed. *)
Theorem legacy_asset_text
    (pf : Z) (colors : list (str * str)) (u : gset str) (content : str)
    (m : dict str) :
  pf < 4 → load_language content pf = Ok (translation_of m) →
  (∀ key c, key ∈ dict_keys m → last_matching_rule colors key c →
     is_Some (dict_get c color_codes)) →
  ∃ u', map_language pf colors u content
        = Ok (lines_text (colored_line colors m <$> sorted (dict_keys m)), u')
        ∧ Sorted str_le (sorted (dict_keys m))
        ∧ sorted (dict_keys m) ≡ₚ dict_keys m.
Proof.
  intros Hpf Hload Hknown.
  destruct (map_language_legacy_text pf colors u content m Hpf Hload Hknown)
    as [u' Hmap].
  exists u'. split_and!; [done| |apply sorted_Permutation].
  apply (Sorted_merge_sort str_le).
Qed.

Lemma legacy_asset_text_witness :
  ∃ u', map_language 3 [(lit "subtitles.", lit "white");
                        (lit "subtitles.block.", lit "red")] ∅
          (lit "subtitles.block.anvil.land=Anvil lands" ++ [13; 10]
           ++ lit "gui.done=Done" ++ [13; 10])
        = Ok (lines_text
                (colored_line [(lit "subtitles.", lit "white");
                               (lit "subtitles.block.", lit "red")]
                   [(lit "subtitles.block.anvil.land", lit "Anvil lands");
                    (lit "gui.done", lit "Done")]
                 <$> sorted (dict_keys
                               [(lit "subtitles.block.anvil.land",
                                 lit "Anvil lands");
                                (lit "gui.done", lit "Done")])), u')
        ∧ Sorted str_le
            (sorted (dict_keys [(lit "subtitles.block.anvil.land",
                                 lit "Anvil lands");
                                (lit "gui.done", lit "Done")]))
        ∧ sorted (dict_keys [(lit "subtitles.block.anvil.land",
                              lit "Anvil lands");
                             (lit "gui.done", lit "Done")])
          ≡ₚ dict_keys [(lit "subtitles.block.anvil.land", lit "Anvil lands");
                        (lit "gui.done", lit "Done")].
Proof.
  apply (legacy_asset_text 3); [lia | vm_compute; reflexivity |].
  intros key c Hkey (before & p & after & Hrules & _).
  assert (Forall (λ pc : list Z * list Z, is_Some (dict_get pc.2 color_codes))
            [(lit "subtitles.", lit "white");
             (lit "subtitles.block.", lit "red")]) as Hall
    by (repeat constructor; vm_compute; by eexists).
  rewrite Hrules in Hall. apply Forall_app in Hall as [_ Hall].
  by apply Forall_cons in Hall as [Hc _].
Defined.

(** ** Legacy packs always build *)













(** ** The color rules of the command line *)

Lemma color_arg_first (prefix color : list Z) :
  ch "=" ∉ prefix → color_arg (prefix ++ ch "=" :: color) = (prefix, color).
Proof. apply key_value_first. Qed.

Lemma color_arg_absent (s : list Z) : ch "=" ∉ s → color_arg s = (s, []).
Proof. apply key_value_absent. Qed.

Lemma color_mappings_last (defaults : list (list Z * list Z))
    (before : list (list Z)) (s : list Z) (after : list (list Z))
    (key : list Z) :
  (color_arg s).1 `prefix_of` key →
  Forall (λ s', ¬ (color_arg s').1 `prefix_of` key) after →
  last_matching_rule (color_mappings defaults (before ++ s :: after)) key
    (color_arg s).2.
Proof.
  intros Hs Hafter. unfold color_mappings.
  exists (defaults ++ (color_arg <$> before)), (color_arg s).1,
    (color_arg <$> after).
  split_and!; [|done|by apply Forall_fmap].
  rewrite fmap_app, fmap_cons, <- app_assoc. by destruct (color_arg s).
Qed.

(** X12. A rule given on the command line as [--color prefix=color]
    overrides the default rules: for every key that starts with
    [prefix], the color selected is [color], whatever the default rules
    and the earlier [--color] options say, unless a later [--color]
    option matches the key too. *)
Theorem command_line_rule_overrides
    (defaults : list (str * str)) (before : list str) (prefix color : str)
    (after : list str) (key : str) :
  ch "=" ∉ prefix → prefix `prefix_of` key →
  Forall (λ s', ¬ (color_arg s').1 `prefix_of` key) after →
  select_color
    (color_mappings defaults (before ++ (prefix ++ ch "=" :: color) :: after))
    key
  = Some color.
Proof.
  intros Hsep Hprefix Hafter. apply select_color_Some.
  pose proof (color_mappings_last defaults before (prefix ++ ch "=" :: color)
                after key) as Hlast.
  rewrite color_arg_first in Hlast by done. by apply Hlast.
Qed.

Lemma command_line_rule_overrides_witness :
  select_color
    (color_mappings [(lit "subtitles.", lit "white");
                     (lit "subtitles.block.", lit "red")]
       ([lit "subtitles.=gray"] ++ lit "subtitles.block.=blue"
        :: [lit "subtitles.entity.=green"]))
    (lit "subtitles.block.anvil.land")
  = Some (lit "blue").
Proof.
  apply (command_line_rule_overrides _ [lit "subtitles.=gray"]
           (lit "subtitles.block.") (lit "blue")
           [lit "subtitles.entity.=green"]).
  - intros H%list_elem_of_In. vm_compute in H. intuition discriminate.
  - by eexists.
  - repeat constructor. apply (bool_decide_unpack _). vm_compute. exact I.
Defined.

(** X13. A [--color] option without [=] is taken as a rule with that
    whole text as prefix and the empty string as color name, which the
    color-code table lacks: the mapping of any translation with a key
    that starts with the text fails, unless a later [--color] option
    matches that key too. *)
Theorem color_option_without_separator
    (defaults : list (str * str)) (before : list str) (s : str)
    (after : list str) (d : dict value) (unhandled : gset str) (key : str) :
  ch "=" ∉ s → s `prefix_of` key → key ∈ dict_keys d →
  Forall (λ s', ¬ (color_arg s').1 `prefix_of` key) after →
  color_arg s = (s, [])
  ∧ raises (map_translation (color_mappings defaults (before ++ s :: after))
              (VDict d) unhandled).
Proof.
  intros Hsep Hprefix Hkey Hafter.
  pose proof (color_arg_absent s Hsep) as Harg. split; [done|].
  pose proof (color_mappings_last defaults before s after key) as Hlast.
  rewrite Harg in Hlast. specialize (Hlast Hprefix Hafter).
  destruct (for_each_color_key_unknown _ (dict_keys d) d unhandled key []
              Hkey Hlast eq_refl) as [e He].
  exists e. unfold map_translation. by rewrite He.
Qed.

Lemma color_option_without_separator_witness :
  color_arg (lit "subtitles.block.") = (lit "subtitles.block.", [])
  ∧ raises (map_translation
              (color_mappings [(lit "subtitles.", lit "white")]
                 ([] ++ lit "subtitles.block." :: []))
              (VDict [(lit "subtitles.block.anvil.land",
                       VStr (lit "Anvil lands"))]) ∅).
Proof.
  apply (color_option_without_separator _ [] (lit "subtitles.block.") []
           _ ∅ (lit "subtitles.block.anvil.land")).
  - intros H%list_elem_of_In. vm_compute in H. intuition discriminate.
  - by eexists.
  - left.
  - constructor.
Defined.
